(** * The crawl-and-scrape ingestion pipeline of your-agent

    A shallow embedding of
      - [web_scraper/crawler/url_utils.py]   (URL normaliser and classifier),
      - [utils/retry.py]                      (retry with exponential backoff),
      - [web_scraper/crawler/queue_manager.py] (the two deduplicating queues),
      - [web_scraper/crawler/crawler.py]      (the traversal loop),
      - [web_scraper/scraper/scraper_worker.py] and
        [web_scraper/scraper_runner.py]       (worker pool and shutdown, the
                                               database path of a site),
      - [web_scraper/scraper/playwright_utils.py] (the shared browser),
      - [web_scraper/scraper/content_extractor.py] (the kind of a page),
    together with the parts of Python's [urllib.parse] these call, as they
    are in CPython 3.11 with its security fixes ([urlsplit] strips leading
    C0 control characters and spaces, removes tab, line feed and carriage
    return, and validates a bracketed host).

    Conventions.
      - A Python [str] is a Rocq [string].  The embedding is exact on ASCII
        text; a character outside ASCII is carried as the bytes of its UTF-8
        encoding, which is what [find], [split], [replace], [startswith] and
        [endswith] with ASCII arguments cannot tell apart from the code
        points.  [lower] is the ASCII lower-casing, and [_checknetloc] (an
        NFKC test that returns at once on an ASCII netloc) is not modelled.
      - A function that can raise returns [option]: [None] is the exception
        ([ValueError] for everything of [urllib.parse] modelled here).
      - A Python [int] is a [Z] and a Python [float] a binary64 number, with
        the rounding of IEEE 754.  The arithmetic of [retry_async] is a
        parameter of its model, given in full for [int] operands.
      - [urllib.parse] delegates the validation of a bracketed host
        ([_check_bracketed_host]) to the [ipaddress] and [re] modules.  That
        validation is a parameter, [bracketed_host_ok], of everything below. *)

From Stdlib Require Import String Ascii List ZArith QArith Qpower Lia Bool Arith.
From Stdlib Require Import Floats.SpecFloat.
From Equations Require Import Equations.
From stdpp Require Import gmap strings.
Import ListNotations.
Open Scope string_scope.

(** ** Python strings *)

Definition str := string.

Definition code (c : ascii) : nat := nat_of_ascii c.

Definition isascii (c : ascii) : bool := (code c <? 128)%nat.
Definition is_upper (c : ascii) : bool := ((65 <=? code c) && (code c <=? 90))%nat.
Definition is_lower (c : ascii) : bool := ((97 <=? code c) && (code c <=? 122))%nat.
Definition isalpha (c : ascii) : bool := is_upper c || is_lower c.
Definition isdigit (c : ascii) : bool := ((48 <=? code c) && (code c <=? 57))%nat.

Definition lower_char (c : ascii) : ascii :=
  if is_upper c then ascii_of_nat (code c + 32) else c.

(** [s.lower()] *)
Fixpoint lower (s : str) : str :=
  match s with
  | EmptyString => EmptyString
  | String c r => String (lower_char c) (lower r)
  end.

(** [c in s] for a one-character [c] *)
Fixpoint contains (c : ascii) (s : str) : bool :=
  match s with
  | EmptyString => false
  | String d r => Ascii.eqb c d || contains c r
  end.

Fixpoint forallb_str (p : ascii -> bool) (s : str) : bool :=
  match s with
  | EmptyString => true
  | String c r => p c && forallb_str p r
  end.

(** [s.startswith(p)] *)
Fixpoint startswith (s p : str) : bool :=
  match p, s with
  | EmptyString, _ => true
  | String _ _, EmptyString => false
  | String a p', String b s' => Ascii.eqb a b && startswith s' p'
  end.

(** [sub in s] for an arbitrary [sub] *)
Fixpoint contains_str (sub s : str) : bool :=
  startswith s sub ||
  match s with
  | EmptyString => false
  | String _ r => contains_str sub r
  end.

(** [s.endswith(p)] *)
Fixpoint endswith (s p : str) : bool :=
  String.eqb s p ||
  match s with
  | EmptyString => false
  | String _ r => endswith r p
  end.

(** [s[:-1]] *)
Fixpoint drop_last (s : str) : str :=
  match s with
  | EmptyString => EmptyString
  | String c r => match r with
                  | EmptyString => EmptyString
                  | String _ _ => String c (drop_last r)
                  end
  end.

(** [s[n:]] *)
Fixpoint drop (n : nat) (s : str) : str :=
  match n, s with
  | S k, String _ r => drop k r
  | _, _ => s
  end.

(** [s.partition(c)]: [(before, Some after)] at the first [c],
    [(s, None)] when there is none (Python: [(s, '', '')]). *)
Fixpoint partition (c : ascii) (s : str) : str * option str :=
  match s with
  | EmptyString => (EmptyString, None)
  | String d r =>
      if Ascii.eqb c d then (EmptyString, Some r)
      else let '(a, b) := partition c r in (String d a, b)
  end.

(** [s.rpartition(c)]: [(Some before, after)] at the last [c],
    [(None, s)] when there is none (Python: [('', '', s)]). *)
Fixpoint rpartition (c : ascii) (s : str) : option str * str :=
  match s with
  | EmptyString => (None, EmptyString)
  | String d r =>
      match rpartition c r with
      | (Some h, t) => (Some (String d h), t)
      | (None, t) =>
          if Ascii.eqb c d then (Some EmptyString, t) else (None, String d t)
      end
  end.

(** [s.split(c)] *)
Fixpoint split (c : ascii) (s : str) : list str :=
  match s with
  | EmptyString => [EmptyString]
  | String d r =>
      if Ascii.eqb c d then EmptyString :: split c r
      else match split c r with
           | x :: xs => String d x :: xs
           | [] => [String d EmptyString]
           end
  end.

(** [sep.join(l)] *)
Fixpoint join (sep : str) (l : list str) : str :=
  match l with
  | [] => EmptyString
  | [x] => x
  | x :: rest => x ++ sep ++ join sep rest
  end.

(** [s.replace(c, d)] for one-character [c] and [d] *)
Fixpoint replace_char (c d : ascii) (s : str) : str :=
  match s with
  | EmptyString => EmptyString
  | String e r => String (if Ascii.eqb c e then d else e) (replace_char c d r)
  end.

(** [s.replace(c, "")] for each [c] that satisfies [p] *)
Fixpoint remove_chars (p : ascii -> bool) (s : str) : str :=
  match s with
  | EmptyString => EmptyString
  | String c r => if p c then remove_chars p r else String c (remove_chars p r)
  end.

(** [s.lstrip(chars)], [chars] given by its membership test *)
Fixpoint lstrip (p : ascii -> bool) (s : str) : str :=
  match s with
  | EmptyString => EmptyString
  | String c r => if p c then lstrip p r else s
  end.

(** [s.replace("//", "/")]: occurrences are replaced left to right and do
    not overlap. *)
Fixpoint replace_dslash (s : str) : str :=
  match s with
  | EmptyString => EmptyString
  | String c r =>
      match r with
      | EmptyString => String c EmptyString
      | String d r' =>
          if Ascii.eqb c "/" && Ascii.eqb d "/"
          then String "/" (replace_dslash r')
          else String c (replace_dslash r)
      end
  end.

(** ["//" in s] *)
Fixpoint has_dslash (s : str) : bool :=
  match s with
  | EmptyString => false
  | String c r =>
      match r with
      | EmptyString => false
      | String d _ => (Ascii.eqb c "/" && Ascii.eqb d "/") || has_dslash r
      end
  end.

(** [x in l] for a list or set of strings *)
Definition str_in (x : str) (l : list str) : bool :=
  existsb (String.eqb x) l.

(** ** [urllib.parse]: percent-decoding *)

(** The value of a hexadecimal digit, [_hexdig] of [urllib.parse]. *)
Definition hexval (c : ascii) : option nat :=
  let n := code c in
  if isdigit c then Some (n - 48)%nat
  else if ((65 <=? n) && (n <=? 70))%nat then Some (n - 55)%nat
  else if ((97 <=? n) && (n <=? 102))%nat then Some (n - 87)%nat
  else None.

(** One byte of the text handed to [bytes.decode]: a byte of an ASCII run
    after [unquote_to_bytes] ([Run]), or a character outside ASCII, which
    [_asciire.split] keeps out of the runs ([Raw]). *)
Inductive qbyte : Type :=
| Run (b : nat)
| Raw (c : ascii).

(** [unquote_to_bytes] on every ASCII run of [s]: [%XY] with two hex digits
    becomes one byte, any other [%] stays. *)
Fixpoint unquote_to_bytes (s : str) : list qbyte :=
  match s with
  | EmptyString => []
  | String c r =>
      if negb (isascii c) then Raw c :: unquote_to_bytes r
      else if Ascii.eqb c "%" then
        match r with
        | String x (String y r') =>
            match hexval x, hexval y with
            | Some hx, Some hy => Run (16 * hx + hy) :: unquote_to_bytes r'
            | _, _ => Run (code c) :: unquote_to_bytes r
            end
        | _ => Run (code c) :: unquote_to_bytes r
        end
      else Run (code c) :: unquote_to_bytes r
  end.

Definition is_cont (b : nat) : bool := ((128 <=? b) && (b <=? 191))%nat.

(** U+FFFD, in UTF-8 *)
Definition replacement : str :=
  String (ascii_of_nat 239) (String (ascii_of_nat 191) (String (ascii_of_nat 189) EmptyString)).

Definition chr (b : nat) : ascii := ascii_of_nat b.

(** The second byte that may follow the lead byte [b0] of a sequence of
    three or four bytes (no overlong form, no surrogate, nothing above
    U+10FFFF). *)
Definition second_ok (b0 b1 : nat) : bool :=
  is_cont b1 &&
  (if (b0 =? 224)%nat then (160 <=? b1)%nat
   else if (b0 =? 237)%nat then (b1 <? 160)%nat
   else if (b0 =? 240)%nat then (144 <=? b1)%nat
   else if (b0 =? 244)%nat then (b1 <? 144)%nat
   else true).

(** [bytes.decode("utf-8", "replace")] run by run: a well-formed sequence is
    kept, every maximal ill-formed prefix becomes one U+FFFD. *)
Fixpoint decode_replace (l : list qbyte) : str :=
  match l with
  | [] => EmptyString
  | Raw c :: r => String c (decode_replace r)
  | Run b0 :: r =>
      if (b0 <? 128)%nat then String (chr b0) (decode_replace r)
      else if (b0 <? 194)%nat then replacement ++ decode_replace r
      else if (b0 <? 224)%nat then
        match r with
        | Run b1 :: r1 =>
            if is_cont b1
            then String (chr b0) (String (chr b1) (decode_replace r1))
            else replacement ++ decode_replace r
        | _ => replacement ++ decode_replace r
        end
      else if (b0 <? 240)%nat then
        match r with
        | Run b1 :: r1 =>
            if second_ok b0 b1 then
              match r1 with
              | Run b2 :: r2 =>
                  if is_cont b2
                  then String (chr b0) (String (chr b1) (String (chr b2) (decode_replace r2)))
                  else replacement ++ decode_replace r1
              | _ => replacement ++ decode_replace r1
              end
            else replacement ++ decode_replace r
        | _ => replacement ++ decode_replace r
        end
      else if (b0 <? 245)%nat then
        match r with
        | Run b1 :: r1 =>
            if second_ok b0 b1 then
              match r1 with
              | Run b2 :: r2 =>
                  if is_cont b2 then
                    match r2 with
                    | Run b3 :: r3 =>
                        if is_cont b3
                        then String (chr b0) (String (chr b1) (String (chr b2)
                               (String (chr b3) (decode_replace r3))))
                        else replacement ++ decode_replace r2
                    | _ => replacement ++ decode_replace r2
                    end
                  else replacement ++ decode_replace r1
              | _ => replacement ++ decode_replace r1
              end
            else replacement ++ decode_replace r
        | _ => replacement ++ decode_replace r
        end
      else replacement ++ decode_replace r
  end.

(** [unquote(s)], with the defaults [encoding='utf-8', errors='replace'] *)
Definition unquote (s : str) : str :=
  if contains "%" s then decode_replace (unquote_to_bytes s) else s.

(** [parse_qsl(qs, keep_blank_values=True)]: the fields between [&], empty
    ones skipped; each is cut at its first [=] (a field without [=] gets the
    value ['']); [+] becomes a space and percent escapes are decoded. *)
Definition parse_field (name_value : str) : str * str :=
  let '(n, v) := partition "=" name_value in
  let v := match v with Some v => v | None => EmptyString end in
  (unquote (replace_char "+" " " n), unquote (replace_char "+" " " v)).

Fixpoint parse_fields (query_args : list str) : list (str * str) :=
  match query_args with
  | [] => []
  | name_value :: rest =>
      if String.eqb name_value "" then parse_fields rest
      else parse_field name_value :: parse_fields rest
  end.

Definition parse_qsl (qs : str) : list (str * str) :=
  parse_fields (if String.eqb qs "" then [] else split "&" qs).

(** ** [urllib.parse]: splitting and joining a URL *)

Record SplitResult : Type := mkSplit {
  split_scheme : str;
  split_netloc : str;
  split_path : str;
  split_query : str;
  split_fragment : str
}.

Record ParseResult : Type := mkParse {
  scheme : str;
  netloc : str;
  path : str;
  params : str;
  query : str;
  fragment : str
}.

Definition uses_netloc : list str :=
  [""; "ftp"; "http"; "gopher"; "nntp"; "telnet"; "imap"; "wais"; "file";
   "mms"; "https"; "shttp"; "snews"; "prospero"; "rtsp"; "rtspu"; "rsync";
   "svn"; "svn+ssh"; "sftp"; "nfs"; "git"; "git+ssh"; "ws"; "wss"].

Definition uses_params : list str :=
  [""; "ftp"; "hdl"; "prospero"; "http"; "imap"; "https"; "shttp"; "rtsp";
   "rtspu"; "sip"; "sips"; "mms"; "sftp"; "tel"].

(** [c in scheme_chars] *)
Definition scheme_char (c : ascii) : bool :=
  isalpha c || isdigit c || Ascii.eqb c "+" || Ascii.eqb c "-" || Ascii.eqb c ".".

(** [c in _WHATWG_C0_CONTROL_OR_SPACE] *)
Definition c0_or_space (c : ascii) : bool := (code c <=? 32)%nat.

(** [c in _UNSAFE_URL_BYTES_TO_REMOVE]: tab, line feed, carriage return *)
Definition unsafe_byte (c : ascii) : bool :=
  ((code c =? 9) || (code c =? 10) || (code c =? 13))%nat.

(** The scheme test of [urlsplit]: with [i = url.find(':')], when [i > 0],
    [url[0]] is an ASCII letter and every character of [url[:i]] is a scheme
    character, the scheme is [url[:i].lower()] and the rest is [url[i+1:]]. *)
Definition take_scheme (url : str) : str * str :=
  match partition ":" url with
  | (String c0 pre, Some rest) =>
      if isascii c0 && isalpha c0 && forallb_str scheme_char (String c0 pre)
      then (lower (String c0 pre), rest)
      else (EmptyString, url)
  | _ => (EmptyString, url)
  end.

(** [_splitnetloc(url, 2)] on [r = url[2:]]: the netloc runs up to the first
    of [/], [?], [#]; the rest starts there. *)
Fixpoint _splitnetloc (r : str) : str * str :=
  match r with
  | EmptyString => (EmptyString, EmptyString)
  | String c r' =>
      if Ascii.eqb c "/" || Ascii.eqb c "?" || Ascii.eqb c "#"
      then (EmptyString, r)
      else let '(n, u) := _splitnetloc r' in (String c n, u)
  end.

(** [_splitparams(url)] *)
Definition _splitparams (url : str) : str * str :=
  if contains "/" url then
    match rpartition "/" url with
    | (Some head, tail) =>
        match partition ";" tail with
        | (a, Some b) => (head ++ "/" ++ a, b)
        | (_, None) => (url, EmptyString)
        end
    | (None, _) => (url, EmptyString)
    end
  else
    match partition ";" url with
    | (a, Some b) => (a, b)
    | (_, None) => (drop_last url, url)
    end.

(** [urlunsplit((scheme, netloc, url, query, fragment))] *)
Definition urlunsplit (scheme netloc url query fragment : str) : str :=
  let url :=
    if negb (String.eqb netloc "") ||
       (negb (String.eqb scheme "") && str_in scheme uses_netloc &&
        negb (startswith url "//"))
    then
      let url :=
        if negb (String.eqb url "") && negb (startswith url "/")
        then "/" ++ url else url in
      "//" ++ netloc ++ url
    else url in
  let url := if negb (String.eqb scheme "") then scheme ++ ":" ++ url else url in
  let url := if negb (String.eqb query "") then url ++ "?" ++ query else url in
  if negb (String.eqb fragment "") then url ++ "#" ++ fragment else url.

(** [urlunparse((scheme, netloc, url, params, query, fragment))] *)
Definition urlunparse (scheme netloc url params query fragment : str) : str :=
  let url := if negb (String.eqb params "") then url ++ ";" ++ params else url in
  urlunsplit scheme netloc url query fragment.

(** [_hostinfo] of a parse result, on its netloc: the host name and the
    port, without the userinfo. *)
Definition _hostinfo (netloc : str) : str * str :=
  let hostinfo := snd (rpartition "@" netloc) in
  match partition "[" hostinfo with
  | (_, Some bracketed) =>
      let '(hostname, port) :=
        match partition "]" bracketed with
        | (h, Some p) => (h, p)
        | (h, None) => (h, EmptyString)
        end in
      (hostname,
       match partition ":" port with
       | (_, Some p) => p
       | (_, None) => EmptyString
       end)
  | (_, None) =>
      match partition ":" hostinfo with
      | (h, Some p) => (h, p)
      | (h, None) => (h, EmptyString)
      end
  end.

(** [hostname] of a parse result: [None] when the host name is empty, else
    the host name in lower case, up to a ['%'] (the zone of a scoped IPv6
    address is left as it is). *)
Definition hostname (netloc : str) : option str :=
  let h := fst (_hostinfo netloc) in
  if String.eqb h "" then None
  else
    match partition "%" h with
    | (h, Some zone) => Some (lower h ++ "%" ++ zone)
    | (h, None) => Some (lower h)
    end.

(** The host of a URL with this netloc, [""] when it has none. *)
Definition host (netloc : str) : str :=
  match hostname netloc with
  | Some h => h
  | None => EmptyString
  end.

(** A netloc that is a host name and nothing else: no userinfo, no port,
    no bracket, no zone. *)
Definition host_only (netloc : str) : bool :=
  negb (contains "@" netloc) && negb (contains ":" netloc) &&
  negb (contains "[" netloc) && negb (contains "%" netloc).

(** ** [url_utils.py]: the parts that do not parse *)

Definition DISALLOWED_EXTENSIONS : list str :=
  [".png"; ".jpg"; ".jpeg"; ".gif"; ".webp"; ".svg"; ".ico";
   ".mp4"; ".webm"; ".mp3"; ".wav"; ".ogg";
   ".pdf"; ".zip"; ".rar"; ".7z"; ".gz"; ".tar";
   ".doc"; ".docx"; ".xls"; ".xlsx"; ".ppt"; ".pptx";
   ".exe"; ".dmg"; ".apk";
   ".css"; ".js"; ".mjs"; ".map"].

Definition TRACKING_PARAMS_PREFIXES : list str := ["utm_"].

Definition TRACKING_PARAMS_EXACT : list str :=
  ["gclid"; "fbclid"; "ref"; "referrer"; "_hsenc"; "_hsmi"].

(** The loop of [_strip_tracking_params] over the parsed pairs; [filtered]
    is the list built so far. *)
Fixpoint strip_loop (pairs filtered : list (str * str)) : list (str * str) :=
  match pairs with
  | [] => filtered
  | (k, v) :: rest =>
      if str_in k TRACKING_PARAMS_EXACT then strip_loop rest filtered
      else if existsb (fun p => startswith k p) TRACKING_PARAMS_PREFIXES
           then strip_loop rest filtered
           else strip_loop rest (filtered ++ [(k, v)])%list
  end.

Definition _strip_tracking_params (query : str) : str :=
  if String.eqb query "" then EmptyString
  else
    let filtered := strip_loop (parse_qsl query) [] in
    match filtered with
    | [] => EmptyString
    | _ => join "&" (map (fun kv => fst kv ++ "=" ++ snd kv) filtered)
    end.

Definition inspect {A : Type} (a : A) : {b : A | a = b} := exist _ a eq_refl.

(** The loop [while "//" in path: path = path.replace("//", "/")]. *)
Equations? collapse_slashes (path : str) : str by wf (String.length path) lt :=
  collapse_slashes path with inspect (has_dslash path) := {
    | exist _ true _ => collapse_slashes (replace_dslash path)
    | exist _ false _ => path }.
Proof.
  clear collapse_slashes.
  assert (Hle : forall n s, (String.length s <= n)%nat ->
                (String.length (replace_dslash s) <= String.length s)%nat).
  { induction n as [|n IH]; intros [|c [|d r]] Hs; simpl in *; try lia.
    destruct (Ascii.eqb c "/" && Ascii.eqb d "/"); simpl.
    - specialize (IH r). lia.
    - specialize (IH (String d r)). simpl in IH. lia. }
  assert (Hlt : forall s, has_dslash s = true ->
                (String.length (replace_dslash s) < String.length s)%nat).
  { induction s as [|c r IH]; [discriminate|].
    destruct r as [|d r']; [discriminate|].
    cbn [has_dslash replace_dslash].
    destruct (Ascii.eqb c "/" && Ascii.eqb d "/"); cbn [orb].
    - intros _. specialize (Hle (String.length r') r'). simpl. lia.
    - intros H. specialize (IH H). simpl in *. lia. }
  apply Hlt; assumption.
Qed.

(** ** [config.py] *)

Definition WORKER_COUNT : nat := 10.
Definition MAX_DEPTH : Z := 3.

(** ** [queue_manager.py]

    [URLQueue] and [DiscoveryQueue] have the same fields and the same
    methods; they differ in what they put: [norm] (or the sentinel [None])
    for the first, [(norm, depth)] for the second.  One record, indexed by
    the type of the items, stands for both.  [items] is the content of the
    [asyncio.Queue] (first in, first out), [unfinished] its count of
    unfinished tasks, [locked] the state of the [asyncio.Lock]. *)

Record DedupQueue (I : Type) : Type := mkQueue {
  items : list I;
  unfinished : nat;
  visited : gset str;
  locked : bool
}.
Arguments mkQueue {I} _ _ _ _.
Arguments items {I} _.
Arguments unfinished {I} _.
Arguments visited {I} _.
Arguments locked {I} _.

Definition URLQueue : Type := DedupQueue (option str).
Definition DiscoveryQueue : Type := DedupQueue (str * Z).

(** What [add_url_async] puts for a normalised URL: [norm] itself in a
    [URLQueue], [(norm, depth)] in a [DiscoveryQueue]. *)
Definition URLQueue_item (norm : str) (_ : unit) : option str := Some norm.
Definition DiscoveryQueue_item (norm : str) (depth : Z) : str * Z := (norm, depth).

(** [__init__] *)
Definition new_queue {I : Type} : DedupQueue I := mkQueue [] 0%nat ∅ false.

(** [self.queue.put(x)] and [self.queue.put_nowait(x)]: the queue is
    unbounded, so neither waits. *)
Definition put {I : Type} (x : I) (q : DedupQueue I) : DedupQueue I :=
  mkQueue (items q ++ [x])%list (S (unfinished q)) (visited q) (locked q).

(** [self.visited.add(norm)] *)
Definition visited_add {I : Type} (norm : str) (q : DedupQueue I) : DedupQueue I :=
  mkQueue (items q) (unfinished q) ({[norm]} ∪ visited q) (locked q).

Definition set_lock {I : Type} (b : bool) (q : DedupQueue I) : DedupQueue I :=
  mkQueue (items q) (unfinished q) (visited q) b.

(** The body of [add_url] and of the [async with] block of [add_url_async]. *)
Definition check_and_put {I : Type} (item : I) (norm : str) (q : DedupQueue I)
  : DedupQueue I :=
  if bool_decide (norm ∈ visited q) then q
  else visited_add norm (put item q).

(** [add_sentinel_async] and [add_sentinel] *)
Definition add_sentinel (q : URLQueue) : URLQueue := put None q.

(** [get_url]: [None] when the queue is empty and the caller has to wait. *)
Definition get_url {I : Type} (q : DedupQueue I) : option (I * DedupQueue I) :=
  match items q with
  | [] => None
  | x :: rest => Some (x, mkQueue rest (unfinished q) (visited q) (locked q))
  end.

(** [task_done]: [asyncio.Queue.task_done] raises [ValueError] ([None]) when
    called more often than items were put. *)
Definition task_done {I : Type} (q : DedupQueue I) : option (DedupQueue I) :=
  match unfinished q with
  | O => None
  | S n => Some (mkQueue (items q) n (visited q) (locked q))
  end.

(** [has_pending] *)
Definition has_pending {I : Type} (q : DedupQueue I) : bool :=
  match items q with [] => false | _ :: _ => true end.

(** *** Concurrent callers of [add_url_async]: the tasks

    A call is a task that the event loop may suspend between any two of
    its steps (the real suspension points, the [await]s, are among them):
    normalise, take the lock, test [visited], put, add to [visited],
    release. *)

Inductive add_pc : Type :=
| AtNormalize (url : str)
| AtAcquire (norm : str)
| AtCheck (norm : str)
| AtPut (norm : str)
| AtAdd (norm : str)
| AtRelease
| Returned
| Raised.

Record add_task (D : Type) : Type := mkTask { pc : add_pc; arg : D }.
Arguments mkTask {D} _ _.
Arguments pc {D} _.
Arguments arg {D} _.

(** The queue shared by the tasks, with the log of every normalised URL
    ever put by [add_url_async] or [add_url] (the log is not part of the
    program: it is what the statements are about). *)
(** The steps between taking and releasing the lock. *)
Definition in_critical (p : add_pc) : bool :=
  match p with
  | AtCheck _ | AtPut _ | AtAdd _ | AtRelease => true
  | AtNormalize _ | AtAcquire _ | Returned | Raised => false
  end.

Record shared (I D : Type) : Type := mkShared {
  sh_queue : DedupQueue I;
  sh_tasks : list (add_task D);
  sh_log : list str
}.
Arguments mkShared {I D} _ _ _.
Arguments sh_queue {I D} _.
Arguments sh_tasks {I D} _.
Arguments sh_log {I D} _.

(** What the event loop can do next: run caller [i] for one step, or let a
    consumer take the first item ([get_url]). *)
Inductive action : Type :=
| RunTask (i : nat)
| Consume.

(** ** [crawler.py]

    The browser page is the crawler's environment: [browser i url] is what
    the [i]-th iteration of the loop gets from [page.goto(url, ...)] and
    from the link extraction that follows it. *)

Inductive nav_result : Type :=
| NavError                              (* [page.goto] raises *)
| NavOk (links : option (list str)).    (* [None]: [eval_on_selector_all] raises *)

Inductive crawl_event : Type :=
| HasPending (b : bool)
| GetUrl (url : str) (depth : Z)
| Goto (url : str) (ok : bool)
| LogInfo (url : str) (depth : Z)
| ScrapePut (url : str)
| DiscoveryPut (url : str) (depth : Z)
| LogError (url : str)
| TaskDone.

Record Crawler : Type := mkCrawler {
  discovery_queue : DiscoveryQueue;
  scrape_queue : URLQueue;
  base_url : str;
  iteration : nat;
  trace : list crawl_event
}.

Definition emit (e : crawl_event) (c : Crawler) : Crawler :=
  mkCrawler (discovery_queue c) (scrape_queue c) (base_url c) (iteration c)
            (trace c ++ [e])%list.

Inductive crawl_result : Type :=
| Finished (c : Crawler)      (* the loop has exited *)
| Crashed (c : Crawler)       (* an exception has left the loop *)
| Running (c : Crawler).      (* the loop has not exited yet *)

Definition state_of (r : crawl_result) : Crawler :=
  match r with Finished c | Crashed c | Running c => c end.

(** *** Reading a trace *)

(** The events of the [try] and [except] blocks. *)
Definition in_flight (e : crawl_event) : bool :=
  match e with
  | Goto _ _ | LogInfo _ _ | ScrapePut _ | DiscoveryPut _ _ | LogError _ => true
  | HasPending _ | GetUrl _ _ | TaskDone => false
  end.

Fixpoint discovery_puts (tr : list crawl_event) : list (str * Z) :=
  match tr with
  | [] => []
  | DiscoveryPut url depth :: rest => (url, depth) :: discovery_puts rest
  | _ :: rest => discovery_puts rest
  end.

Fixpoint scrape_puts (tr : list crawl_event) : list str :=
  match tr with
  | [] => []
  | ScrapePut url :: rest => url :: scrape_puts rest
  | _ :: rest => scrape_puts rest
  end.



(** Where the traversal actor stands, as a trace shows it: between two
    items ([Idle]), after [has_pending()] said yes ([Polled]), between
    [get_url()] and [task_done()] of an item ([InFlight]), out of the loop
    ([Stopped]). *)
Inductive phase : Type := Idle | Polled | InFlight | Stopped.

Definition protocol_step (ph : phase) (e : crawl_event) : option phase :=
  match ph, e with
  | Idle, HasPending true => Some Polled
  | Idle, HasPending false => Some Stopped
  | Polled, GetUrl _ _ => Some InFlight
  | InFlight, TaskDone => Some Idle
  | InFlight, e => if in_flight e then Some InFlight else None
  | _, _ => None
  end.

Fixpoint protocol (ph : phase) (tr : list crawl_event) : option phase :=
  match tr with
  | [] => Some ph
  | e :: rest =>
      match protocol_step ph e with
      | None => None
      | Some ph' => protocol ph' rest
      end
  end.

(** The depths a trace may show for [MAX_DEPTH]. *)
Definition depth_ok (e : crawl_event) : Prop :=
  match e with
  | GetUrl _ depth => (0 <= depth <= MAX_DEPTH)%Z
  | DiscoveryPut _ depth => (1 <= depth <= MAX_DEPTH)%Z
  | _ => True
  end.

(** ** [scraper_worker.py] and [scraper_runner.py]: the pool and its shutdown

    The actors are the crawler task, the [k] worker tasks and [main] (the
    orchestrator); the scrape queue is what they share.  The crawler is seen
    from the scrape queue only: while its loop runs it may push a URL, and at
    some point its loop may exit.  What a worker does with a URL (navigation
    under [retry_async], extraction, storage, the polite delay) is one step
    that ends by success or by a caught exception.  A worker starts at the
    head of its loop, its page open. *)

Inductive worker_pc : Type :=
| AtGet                    (* at [await self.url_queue.get_url()] *)
| Scraping (url : str)     (* in the [try] block for [url] *)
| Exited                   (* has left the loop by [break] *)
| Failed.                  (* left by an exception *)

Record worker : Type := mkWorker {
  w_pc : worker_pc;
  w_sentinels : nat;       (* sentinels this worker has dequeued *)
  w_done : nat             (* its calls of [task_done] *)
}.

Inductive main_pc : Type :=
| AwaitCrawler             (* step 7: [await crawler_task] *)
| Signal (sent : nat)      (* step 8: [sent] sentinels enqueued so far *)
| AwaitWorkers             (* step 9: [asyncio.gather] *)
| Completed.               (* step 10 done: browser closed *)

Record pipeline : Type := mkPipeline {
  crawling : bool;         (* the crawler's loop has not exited *)
  queue : URLQueue;
  workers : list worker;
  orchestrator : main_pc;
  sentinels_sent : nat
}.

Inductive pipeline_action : Type :=
| CrawlerPush (url : str)
| CrawlerExit
| Orchestrate
| Work (i : nat) (ok : bool).

Definition all_exited (ws : list worker) : bool :=
  forallb (fun w => match w_pc w with Exited => true | _ => false end) ws.

(** One loop step of a worker ([ScraperWorker.run]); [None] when it waits. *)
Definition worker_step (ok : bool) (w : worker) (q : URLQueue)
  : option (worker * URLQueue) :=
  match w_pc w with
  | AtGet =>
      match get_url q with
      | None => None
      | Some (None, q) =>
          match task_done q with
          | None => Some (mkWorker Failed (S (w_sentinels w)) (w_done w), q)
          | Some q => Some (mkWorker Exited (S (w_sentinels w)) (S (w_done w)), q)
          end
      | Some (Some url, q) => Some (mkWorker (Scraping url) (w_sentinels w) (w_done w), q)
      end
  | Scraping url =>
      (* [ok]: the [try] block ran through; otherwise the error is logged;
         [finally] runs in both cases *)
      match task_done q with
      | None => Some (mkWorker Failed (w_sentinels w) (w_done w), q)
      | Some q => Some (mkWorker AtGet (w_sentinels w) (S (w_done w)), q)
      end
  | Exited => None
  | Failed => None
  end.

(** One step of [main] from step 7 on, for [k = WORKER_COUNT] workers. *)
Definition main_step (k : nat) (p : pipeline) : option pipeline :=
  match orchestrator p with
  | AwaitCrawler =>
      if crawling p then None
      else Some (mkPipeline (crawling p) (queue p) (workers p) (Signal 0) (sentinels_sent p))
  | Signal sent =>
      if (sent <? k)%nat
      then Some (mkPipeline (crawling p) (add_sentinel (queue p)) (workers p)
                            (Signal (S sent)) (S (sentinels_sent p)))
      else Some (mkPipeline (crawling p) (queue p) (workers p) AwaitWorkers (sentinels_sent p))
  | AwaitWorkers =>
      if all_exited (workers p)
      then Some (mkPipeline (crawling p) (queue p) (workers p) Completed (sentinels_sent p))
      else None
  | Completed => None
  end.

(** *** Counting, for the statements about the pool *)

Fixpoint count_workers (f : worker -> bool) (ws : list worker) : nat :=
  match ws with
  | [] => 0
  | w :: rest => ((if f w then 1 else 0) + count_workers f rest)%nat
  end.

Definition is_exited (w : worker) : bool :=
  match w_pc w with Exited => true | _ => false end.

Definition is_scraping (w : worker) : bool :=
  match w_pc w with Scraping _ => true | _ => false end.

(** The sentinels among the items of the scrape queue. *)
Fixpoint sentinels_in (l : list (option str)) : nat :=
  match l with
  | [] => 0
  | None :: rest => S (sentinels_in rest)
  | Some _ :: rest => sentinels_in rest
  end.


(** ** Python's [float]

    A [float] is an IEEE 754 binary64 number: the Standard Library's
    [spec_float] at precision 53 and maximal exponent 1024, with its
    operations, which round to the nearest float, ties to the even one. *)

Definition float : Type := spec_float.
Definition prec : Z := 53.
Definition emax : Z := 1024.

(** [x + y] for two floats; it never raises (an overflow gives [inf]). *)
Definition float_add (x y : float) : float := SFadd prec emax x y.

(** The conversion of an [int] that arithmetic with a [float] starts with:
    the nearest float, or [OverflowError: int too large to convert to
    float] ([None]) when that is beyond the largest float. *)
Definition float_of_int (n : Z) : option float :=
  match binary_normalize prec emax n 0 false with
  | S754_infinity _ => None
  | x => Some x
  end.

(** [n + r] for an [int] [n] and a [float] [r] *)
Definition int_add_float (n : Z) (r : float) : option float :=
  match float_of_int n with
  | None => None
  | Some x => Some (float_add x r)
  end.

(** The real number a finite float stands for. *)
Definition float_value (x : float) : Q :=
  match x with
  | S754_finite s m e => (inject_Z (cond_Zopp s (Z.pos m)) * 2 ^ e)%Q
  | _ => 0%Q
  end.

(** [0 <= x < 1] *)
Definition in_unit_interval (x : float) : bool :=
  match x with
  | S754_zero _ => true
  | S754_finite false m e => (e <? 0)%Z && (Z.pos m <? 2 ^ (- e))%Z
  | _ => false
  end.

(** [x] is finite and its value lies between the integers [lo] and [hi]. *)
Definition between (lo hi : Z) (x : float) : Prop :=
  match x with
  | S754_zero _ => (lo <= 0 <= hi)%Z
  | S754_finite s m e =>
      (e <= 0)%Z /\
      (lo * 2 ^ (- e) <= cond_Zopp s (Z.pos m) <= hi * 2 ^ (- e))%Z
  | _ => False
  end.

(** ** [retry.py]

    [coro_func k] is the outcome of the [k]-th call of the wrapped operation
    and [uniform k] the value of the [k]-th call of [random.uniform(0, 1)],
    a float, both counted from 0.

    Line 18 computes the wait with Python's arithmetic: [**], [*] and [+]
    are methods of whatever [delay] and [backoff] are, and each of them can
    raise.  [arithmetic] is what the line asks of its operands, of type [N],
    for a wait of type [W], a finite number, after which [asyncio.sleep]
    returns; [int_arithmetic] is the arithmetic of [int] operands, as the
    defaults [delay=2] and [backoff=2] are.  An exception raised on line 18
    is raised inside the [except] block, so it leaves [retry_async]. *)

Inductive outcome (A E : Type) : Type :=
| Return (a : A)
| Raise (e : E).
Arguments Return {A E} _.
Arguments Raise {A E} _.

Inductive retry_event (E W : Type) : Type :=
| Call
| Print (attempt : Z) (e : E) (wait : W)
| Sleep (wait : W).
Arguments Call {E W}.
Arguments Print {E W} _ _ _.
Arguments Sleep {E W} _.

Record arithmetic (N W E : Type) : Type := mkArithmetic {
  py_pow : N -> Z -> E + N;           (* [x ** k] for an [int] [k] *)
  py_mul : N -> N -> E + N;           (* [x * y] *)
  py_add : N -> float -> E + W        (* [x + r] for a [float] [r] *)
}.
Arguments py_pow {N W E} _ _ _.
Arguments py_mul {N W E} _ _ _.
Arguments py_add {N W E} _ _ _.

(** [int] operands.  [x ** k] is exact for [k >= 0], and the loop only asks
    for [backoff ** (attempt - 1)] with [attempt >= 1]; [x * y] is exact;
    [x + r] converts [x] to a float first, which can raise. *)
Definition int_arithmetic {E : Type} (OverflowError : E) : arithmetic Z float E := {|
  py_pow := fun x k => inr (x ^ k)%Z;
  py_mul := fun x y => inr (x * y)%Z;
  py_add := fun x r =>
    match int_add_float x r with
    | None => inl OverflowError
    | Some w => inr w
    end
|}.

(** What a trace shows: the calls of the wrapped operation, the sleeps, and
    the sum of the waits handed to [asyncio.sleep]. *)
Definition calls_made {E W : Type} (tr : list (retry_event E W)) : nat :=
  length (List.filter (fun ev => match ev with Call => true | _ => false end) tr).

Definition sleeps_made {E W : Type} (tr : list (retry_event E W)) : nat :=
  length (List.filter (fun ev => match ev with Sleep _ => true | _ => false end) tr).

Fixpoint total_wait {E : Type} (tr : list (retry_event E float)) : Q :=
  match tr with
  | [] => 0%Q
  | Sleep w :: rest => (float_value w + total_wait rest)%Q
  | _ :: rest => total_wait rest
  end.

Section Retry.

Variables A E N W : Type.
Variable none : A.                        (* Python's [None] *)
Variable is_Exception : E -> bool.        (* [isinstance(e, Exception)] *)
Variable coro_func : nat -> outcome A E.
Variable uniform : nat -> float.
Variable arith : arithmetic N W E.

(** [delay * (backoff ** (attempt - 1)) + r], evaluated left to right. *)
Definition wait_expr (delay backoff : N) (attempt : Z) (r : float) : E + W :=
  match py_pow arith backoff (attempt - 1) with
  | inl x => inl x
  | inr p =>
      match py_mul arith delay p with
      | inl x => inl x
      | inr d => py_add arith d r
      end
  end.

(** The [for] loop with [n] attempts left; [calls] counts the calls made. *)
Fixpoint retry_loop (retries : Z) (delay backoff : N) (n : nat) (attempt : Z)
    (calls : nat) (tr : list (retry_event E W))
  : outcome A E * list (retry_event E W) :=
  match n with
  | O => (Return none, tr)
  | S n' =>
      match coro_func calls with
      | Return a => (Return a, tr ++ [Call])%list
      | Raise e =>
          if is_Exception e then
            if (attempt =? retries)%Z then (Raise e, tr ++ [Call])%list
            else
              match wait_expr delay backoff attempt (uniform calls) with
              | inl x => (Raise x, tr ++ [Call])%list
              | inr wait =>
                  retry_loop retries delay backoff n' (attempt + 1)%Z (S calls)
                             (tr ++ [Call; Print attempt e wait; Sleep wait])%list
              end
          else (Raise e, tr ++ [Call])%list
      end
  end.

Definition retry_async (retries : Z) (delay backoff : N)
  : outcome A E * list (retry_event E W) :=
  retry_loop retries delay backoff (Z.to_nat retries) 1%Z 0%nat [].

End Retry.

(** ** The code that parses URLs *)

(** ** [playwright_utils.py]: the shared browser

    The module keeps the browser and the Playwright driver in two globals,
    [_browser] and [_playwright].  Drivers and browsers are numbered in the
    order in which [start()] and [launch()] return them.  [get_browser] is a
    coroutine with two [await]s, at which the event loop may run another
    task: one step takes it from one [await] to the next. *)

Record browsers : Type := mkBrowsers {
  _browser : option nat;
  _playwright : option nat;
  started : nat;          (* drivers started so far *)
  launched : nat;         (* browsers launched so far *)
  closed : list nat;      (* browsers closed *)
  stopped : list nat      (* drivers stopped *)
}.

Inductive get_pc : Type :=
| GbCheck                 (* at [if _browser is None] *)
| GbStarting              (* at [await async_playwright().start()] *)
| GbLaunching             (* at [await _playwright.chromium.launch(...)] *)
| GbReturned (b : nat).   (* has returned [_browser] *)

(** One step of [get_browser]; [None] when it has returned. *)
Definition get_step (pc : get_pc) (st : browsers) : option (get_pc * browsers) :=
  match pc with
  | GbCheck =>
      match _browser st with
      | Some b => Some (GbReturned b, st)
      | None => Some (GbStarting, st)
      end
  | GbStarting =>
      Some (GbLaunching,
            mkBrowsers (_browser st) (Some (started st)) (S (started st))
                       (launched st) (closed st) (stopped st))
  | GbLaunching =>
      Some (GbReturned (launched st),
            mkBrowsers (Some (launched st)) (_playwright st) (started st)
                       (S (launched st)) (closed st) (stopped st))
  | GbReturned _ => None
  end.

(** [get_browser] run by one task with no other task in between. *)
Fixpoint get_browser_from (fuel : nat) (pc : get_pc) (st : browsers)
  : option nat * browsers :=
  match pc, fuel with
  | GbReturned b, _ => (Some b, st)
  | _, O => (None, st)
  | _, S fuel' =>
      match get_step pc st with
      | Some (pc', st') => get_browser_from fuel' pc' st'
      | None => (None, st)
      end
  end.

Definition get_browser (st : browsers) : option nat * browsers :=
  get_browser_from 3 GbCheck st.

(** [close_browser], with no other task in between *)
Definition close_browser (st : browsers) : browsers :=
  let st :=
    match _browser st with
    | Some b => mkBrowsers None (_playwright st) (started st) (launched st)
                           (closed st ++ [b])%list (stopped st)
    | None => st
    end in
  match _playwright st with
  | Some p => mkBrowsers (_browser st) None (started st) (launched st)
                         (closed st) (stopped st ++ [p])%list
  | None => st
  end.

(** The module as it is loaded. *)
Definition no_browsers : browsers := mkBrowsers None None 0 0 [] [].

(** The callers of [get_browser] and the globals they share; the event
    loop runs caller [i] for one step. *)
Definition get_browser_step (i : nat) (s : list get_pc * browsers)
  : list get_pc * browsers :=
  match fst s !! i with
  | None => s
  | Some pc =>
      match get_step pc (snd s) with
      | None => s
      | Some (pc', st') => (<[i := pc']> (fst s), st')
      end
  end.

Definition run_get_browser (schedule : list nat) (s : list get_pc * browsers)
  : list get_pc * browsers :=
  fold_left (fun s i => get_browser_step i s) schedule s.

(** Every caller in turn, one step each. *)
Fixpoint sweep (pcs : list get_pc) (st : browsers) : list get_pc * browsers :=
  match pcs with
  | [] => ([], st)
  | pc :: rest =>
      match get_step pc st with
      | None => let '(rest', st') := sweep rest st in (pc :: rest', st')
      | Some (pc', st1) => let '(rest', st') := sweep rest st1 in (pc' :: rest', st')
      end
  end.

(** ** Inputs of the examples *)

(** The exceptions of the retry examples: what the [k]-th call of the
    example operation raises, and the error of the arithmetic. *)
Inductive example_exception : Type :=
| Failure (k : nat)
| OverflowError.

(** One half, the jitter of the examples. *)
Definition one_half : float := S754_finite false (2 ^ 52) (-53).

(** A host check that accepts no bracketed host.  The URLs of the examples
    have no bracket in them, or one bracket only, and [urlsplit] decides on
    these before it looks at the host. *)
Definition no_bracketed_hosts : str -> bool := fun _ => false.

(** A site of two pages: the first links to the second, to itself and to
    another site; the second cannot be reached. *)
Definition example_browser (iteration : nat) (url : str) : nav_result :=
  match iteration with
  | O => NavOk (Some ["http://a.example/b"; "http://a.example/";
                      "http://other.example/"])
  | _ => NavError
  end.

(** Two workers: one page is scraped, the crawler exits, the orchestrator
    sends the sentinels, the workers leave, the orchestrator completes. *)
Definition example_schedule : list pipeline_action :=
  [CrawlerPush "http://a.example/"; Work 0 true; Work 0 true; CrawlerExit;
   Orchestrate; Orchestrate; Orchestrate; Work 1 true; Orchestrate;
   Work 0 true; Orchestrate].

Section WithHostValidation.

(** [_check_bracketed_host(hostname)] does not raise. *)
Variable bracketed_host_ok : str -> bool.

(** [_check_bracketed_netloc(netloc)] does not raise. *)
Definition _check_bracketed_netloc (netloc : str) : bool :=
  let hostname_and_port := snd (rpartition "@" netloc) in
  match partition "[" hostname_and_port with
  | (before_bracket, Some bracketed) =>
      if negb (String.eqb before_bracket "") then false
      else
        let '(hostname, port) :=
          match partition "]" bracketed with
          | (h, Some p) => (h, p)
          | (h, None) => (h, EmptyString)
          end in
        if negb (String.eqb port "") && negb (startswith port ":") then false
        else bracketed_host_ok hostname
  | (_, None) =>
      bracketed_host_ok (fst (partition ":" hostname_and_port))
  end.

(** The checks [urlsplit] makes on a netloc; [false] is [ValueError]. *)
Definition netloc_ok (netloc : str) : bool :=
  let lb := contains "[" netloc in
  let rb := contains "]" netloc in
  if (lb && negb rb) || (rb && negb lb) then false
  else if lb && rb then _check_bracketed_netloc netloc
  else true.

(** [urlsplit(url)] from the test [url[:2] == '//'] on: netloc, fragment,
    query. *)
Definition split_rest (scheme url : str) : option SplitResult :=
  let after_netloc :=
    if startswith url "//" then
      let '(netloc, rest) := _splitnetloc (drop 2 url) in
      if netloc_ok netloc then Some (netloc, rest) else None
    else Some (EmptyString, url) in
  match after_netloc with
  | None => None
  | Some (netloc, url) =>
      let '(url, fragment) :=
        match partition "#" url with
        | (a, Some b) => (a, b)
        | (a, None) => (a, EmptyString)
        end in
      let '(url, query) :=
        match partition "?" url with
        | (a, Some b) => (a, b)
        | (a, None) => (a, EmptyString)
        end in
      Some (mkSplit scheme netloc url query fragment)
  end.

(** [urlsplit(url)] *)
Definition urlsplit (url : str) : option SplitResult :=
  let url := lstrip c0_or_space url in
  let url := remove_chars unsafe_byte url in
  let '(scheme, url) := take_scheme url in
  split_rest scheme url.

(** [urlparse(url)] *)
Definition urlparse (url : str) : option ParseResult :=
  match urlsplit url with
  | None => None
  | Some r =>
      let '(url, params) :=
        if str_in (split_scheme r) uses_params && contains ";" (split_path r)
        then _splitparams (split_path r)
        else (split_path r, EmptyString) in
      Some (mkParse (split_scheme r) (split_netloc r) url params
                    (split_query r) (split_fragment r))
  end.

(** ** [url_utils.py] *)

Definition normalize_url (url : str) : option str :=
  match urlparse url with
  | None => None
  | Some parsed =>
      let scheme := lower (if String.eqb (scheme parsed) "" then "http" else scheme parsed) in
      let netloc := lower (netloc parsed) in
      let path := if String.eqb (path parsed) "" then "/" else path parsed in
      let path := collapse_slashes path in
      let query := _strip_tracking_params (query parsed) in
      let fragment := EmptyString in
      let path :=
        if (1 <? String.length path)%nat && endswith path "/"
        then drop_last path else path in
      Some (urlunparse scheme netloc path EmptyString query fragment)
  end.

Definition strip_www (h : str) : str :=
  if startswith h "www." then drop 4 h else h.

Definition is_internal_url (url base_url : str) : option bool :=
  match urlparse base_url with
  | None => None
  | Some parsed_base =>
      match urlparse url with
      | None => None
      | Some parsed_url =>
          let base_host := lower (netloc parsed_base) in
          let url_host := lower (netloc parsed_url) in
          Some (String.eqb (strip_www url_host) (strip_www base_host) &&
                str_in (scheme parsed_url) ["http"; "https"])
      end
  end.

Definition is_probably_html_url (url : str) : option bool :=
  match urlparse url with
  | None => None
  | Some parsed =>
      let path := lower (path parsed) in
      if contains_str "/wp-content/uploads/" path then Some false
      else Some (negb (existsb (fun ext => endswith path ext) DISALLOWED_EXTENSIONS))
  end.

(** ** [queue_manager.py]: adding URLs *)

(** [add_url_async] run without interruption on a queue whose lock is free
    (the crawler is the only caller in a run, so it always is); [None] when
    [normalize_url] raises. *)
Definition add_url_async {I : Type} (mk : str -> I) (url : str) (q : DedupQueue I)
  : option (DedupQueue I) :=
  match normalize_url url with
  | None => None
  | Some norm => Some (set_lock false (check_and_put (mk norm) norm (set_lock true q)))
  end.

(** [add_url]: the synchronous version, which takes no lock. *)
Definition add_url {I : Type} (mk : str -> I) (url : str) (q : DedupQueue I)
  : option (DedupQueue I) :=
  match normalize_url url with
  | None => None
  | Some norm => Some (check_and_put (mk norm) norm q)
  end.

Definition URLQueue_add_url_async (url : str) (q : URLQueue) : option URLQueue :=
  add_url_async Some url q.

Definition DiscoveryQueue_add_url_async (url : str) (depth : Z) (q : DiscoveryQueue)
  : option DiscoveryQueue :=
  add_url_async (fun norm => (norm, depth)) url q.

Definition DiscoveryQueue_add_url (url : str) (depth : Z) (q : DiscoveryQueue)
  : option DiscoveryQueue :=
  add_url (fun norm => (norm, depth)) url q.

(** One step of one caller: the new program counter, queue and log;
    [None] when the caller cannot move (it waits for the lock, or is done). *)
Definition add_step {I D : Type} (mk : str -> D -> I) (t : add_task D)
    (q : DedupQueue I) (log : list str)
  : option (add_task D * DedupQueue I * list str) :=
  match pc t with
  | AtNormalize url =>
      match normalize_url url with
      | None => Some (mkTask Raised (arg t), q, log)
      | Some norm => Some (mkTask (AtAcquire norm) (arg t), q, log)
      end
  | AtAcquire norm =>
      if locked q then None
      else Some (mkTask (AtCheck norm) (arg t), set_lock true q, log)
  | AtCheck norm =>
      if bool_decide (norm ∈ visited q)
      then Some (mkTask AtRelease (arg t), q, log)
      else Some (mkTask (AtPut norm) (arg t), q, log)
  | AtPut norm =>
      Some (mkTask (AtAdd norm) (arg t), put (mk norm (arg t)) q, (log ++ [norm])%list)
  | AtAdd norm =>
      Some (mkTask AtRelease (arg t), visited_add norm q, log)
  | AtRelease =>
      Some (mkTask Returned (arg t), set_lock false q, log)
  | Returned => None
  | Raised => None
  end.

Definition shared_step {I D : Type} (mk : str -> D -> I) (a : action)
    (s : shared I D) : shared I D :=
  match a with
  | RunTask i =>
      match sh_tasks s !! i with
      | None => s
      | Some t =>
          match add_step mk t (sh_queue s) (sh_log s) with
          | None => s
          | Some (t', q', log') => mkShared q' (<[i := t']> (sh_tasks s)) log'
          end
      end
  | Consume =>
      match get_url (sh_queue s) with
      | None => s
      | Some (_, q') => mkShared q' (sh_tasks s) (sh_log s)
      end
  end.

Definition run_shared {I D : Type} (mk : str -> D -> I) (schedule : list action)
    (s : shared I D) : shared I D :=
  fold_left (fun s a => shared_step mk a s) schedule s.

(** A queue after the synchronous [add_url] calls [seeds], and then the
    callers [calls] of [add_url_async], not yet started. *)
Fixpoint seed_queue {I D : Type} (mk : str -> D -> I) (seeds : list (str * D))
    (s : DedupQueue I * list str) : DedupQueue I * list str :=
  match seeds with
  | [] => s
  | (url, d) :: rest =>
      match normalize_url url with
      | None => seed_queue mk rest s
      | Some norm =>
          seed_queue mk rest
            (check_and_put (mk norm d) norm (fst s),
             if bool_decide (norm ∈ visited (fst s)) then snd s else (snd s ++ [norm])%list)
      end
  end.

Definition start_shared {I D : Type} (mk : str -> D -> I)
    (seeds calls : list (str * D)) : shared I D :=
  let '(q, log) := seed_queue mk seeds (new_queue, []) in
  mkShared q (map (fun c => mkTask (AtNormalize (fst c)) (snd c)) calls) log.

(** ** [crawler.py]: the traversal loop *)

(** [await self.scrape_queue.add_url_async(url)], the put recorded *)
Definition push_scrape (url : str) (c : Crawler) : option Crawler :=
  match normalize_url url with
  | None => None
  | Some norm =>
      match URLQueue_add_url_async url (scrape_queue c) with
      | None => None
      | Some q =>
          let c' := mkCrawler (discovery_queue c) q (base_url c) (iteration c) (trace c) in
          Some (if bool_decide (norm ∈ visited (scrape_queue c)) then c'
                else emit (ScrapePut norm) c')
      end
  end.

(** [await self.discovery_queue.add_url_async(link, depth + 1)], the put
    recorded *)
Definition push_discovery (link : str) (depth : Z) (c : Crawler) : option Crawler :=
  match normalize_url link with
  | None => None
  | Some norm =>
      match DiscoveryQueue_add_url_async link depth (discovery_queue c) with
      | None => None
      | Some q =>
          let c' := mkCrawler q (scrape_queue c) (base_url c) (iteration c) (trace c) in
          Some (if bool_decide (norm ∈ visited (discovery_queue c)) then c'
                else emit (DiscoveryPut norm depth) c')
      end
  end.

(** The loop [for link in links]; the flag tells whether an exception left
    the loop (what was put before it stays put). *)
Fixpoint enqueue_links (links : list str) (depth : Z) (c : Crawler)
  : Crawler * bool :=
  match links with
  | [] => (c, false)
  | link :: rest =>
      match normalize_url link with
      | None => (c, true)
      | Some link =>
          match is_internal_url link (base_url c) with
          | None => (c, true)
          | Some false => enqueue_links rest depth c
          | Some true =>
              match is_probably_html_url link with
              | None => (c, true)
              | Some false => enqueue_links rest depth c
              | Some true =>
                  match push_discovery link (depth + 1) c with
                  | None => (c, true)
                  | Some c' => enqueue_links rest depth c'
                  end
              end
          end
      end
  end.

Section Crawl.

Variable browser : nat -> str -> nav_result.

(** The [try] block of the loop body for the popped [(url, depth)]; the
    flag tells whether it raised. *)
Definition try_body (url : str) (depth : Z) (c : Crawler) : Crawler * bool :=
  match browser (iteration c) url with
  | NavError => (emit (Goto url false) c, true)
  | NavOk links =>
      let c := emit (LogInfo url depth) (emit (Goto url true) c) in
      match push_scrape url c with
      | None => (c, true)
      | Some c =>
          match links with
          | None => (c, true)
          | Some links =>
              if (depth <? MAX_DEPTH)%Z then enqueue_links links depth c
              else (c, false)
          end
      end
  end.

(** One turn of the [while] loop, entered with an item pending; [None] when
    an exception leaves the loop. *)
Definition loop_body (c : Crawler) : option Crawler :=
  match get_url (discovery_queue c) with
  | None => None
  | Some ((url, depth), q) =>
      let c := emit (GetUrl url depth)
                 (mkCrawler q (scrape_queue c) (base_url c) (iteration c) (trace c)) in
      let '(c, raised) := try_body url depth c in
      let c := if raised then emit (LogError url) c else c in
      match task_done (discovery_queue c) with
      | None => None
      | Some q =>
          Some (emit TaskDone
                  (mkCrawler q (scrape_queue c) (base_url c) (S (iteration c)) (trace c)))
      end
  end.

(** [start_crawling], at most [n] turns of its loop *)
Fixpoint start_crawling (n : nat) (c : Crawler) : crawl_result :=
  if has_pending (discovery_queue c) then
    match n with
    | O => Running c
    | S n' =>
        match loop_body (emit (HasPending true) c) with
        | None => Crashed c
        | Some c' => start_crawling n' c'
        end
    end
  else Finished (emit (HasPending false) c).

End Crawl.

(** Steps 3 and 4 of [main]: fresh queues, the seed at depth 0, the crawler. *)
Definition seeded (seed : str) : option Crawler :=
  match DiscoveryQueue_add_url seed 0 new_queue with
  | None => None
  | Some dq => Some (mkCrawler dq new_queue seed 0 [])
  end.

(** ** The pipeline *)

(** One step of the pipeline; [None] when the actor cannot move. *)
Definition pipeline_step (k : nat) (a : pipeline_action) (p : pipeline)
  : option pipeline :=
  match a with
  | CrawlerPush url =>
      if crawling p then
        match URLQueue_add_url_async url (queue p) with
        | None => Some p
        | Some q => Some (mkPipeline true q (workers p) (orchestrator p) (sentinels_sent p))
        end
      else None
  | CrawlerExit =>
      if crawling p
      then Some (mkPipeline false (queue p) (workers p) (orchestrator p) (sentinels_sent p))
      else None
  | Orchestrate => main_step k p
  | Work i ok =>
      match workers p !! i with
      | None => None
      | Some w =>
          match worker_step ok w (queue p) with
          | None => None
          | Some (w', q) =>
              Some (mkPipeline (crawling p) q (<[i := w']> (workers p))
                               (orchestrator p) (sentinels_sent p))
          end
      end
  end.

(** The executions of the pipeline: [p] goes to [p'] by the listed actions. *)
Inductive run (k : nat) : pipeline -> list pipeline_action -> pipeline -> Prop :=
| run_nil p : run k p [] p
| run_cons p a p' acts p'' :
    pipeline_step k a p = Some p' -> run k p' acts p'' -> run k p (a :: acts) p''.

(** Steps 3 to 6 of [main]: the scrape queue, the crawler task, [k] workers. *)
Definition start_pipeline (k : nat) : pipeline :=
  mkPipeline true new_queue (repeat (mkWorker AtGet 0 0) k) AwaitCrawler 0.

Definition stuck (k : nat) (p : pipeline) : Prop :=
  forall a, pipeline_step k a p = None.

(** The pipeline after the listed actions; [None] when one cannot be taken. *)
Fixpoint run_actions (k : nat) (acts : list pipeline_action) (p : pipeline)
  : option pipeline :=
  match acts with
  | [] => Some p
  | a :: acts' =>
      match pipeline_step k a p with
      | None => None
      | Some p' => run_actions k acts' p'
      end
  end.

(** ** [queue_manager.py]: a queue used by one task

    The methods of a [URLQueue] called one after the other.  What
    [get_url] has returned so far is kept beside the queue; a [get_url] on
    an empty queue would wait for ever, and is no step. *)

Inductive queue_op : Type :=
| AddUrl (url : str)
| AddUrlAsync (url : str)
| AddSentinel
| GetUrlOp
| TaskDoneOp.

Definition queue_step (op : queue_op) (s : URLQueue * list (option str))
  : option (URLQueue * list (option str)) :=
  let '(q, got) := s in
  match op with
  | AddUrl url => option_map (fun q' => (q', got)) (add_url Some url q)
  | AddUrlAsync url => option_map (fun q' => (q', got)) (URLQueue_add_url_async url q)
  | AddSentinel => Some (add_sentinel q, got)
  | GetUrlOp =>
      match get_url q with
      | None => None
      | Some (x, q') => Some (q', (got ++ [x])%list)
      end
  | TaskDoneOp => option_map (fun q' => (q', got)) (task_done q)
  end.

Fixpoint run_ops (ops : list queue_op) (s : URLQueue * list (option str))
  : option (URLQueue * list (option str)) :=
  match ops with
  | [] => Some s
  | op :: rest =>
      match queue_step op s with
      | None => None
      | Some s' => run_ops rest s'
      end
  end.

(** The URLs among the items of a scrape queue. *)
Fixpoint urls_in (l : list (option str)) : list str :=
  match l with
  | [] => []
  | Some u :: rest => u :: urls_in rest
  | None :: rest => urls_in rest
  end.

Definition is_task_done_op (op : queue_op) : bool :=
  match op with TaskDoneOp => true | _ => false end.

(** ** [scraper_runner.py]: the database of a site

    [os.path.join] is [posixpath.join]; [project_root], a module constant
    computed from [__file__], is a parameter. *)

(** [posixpath.join(a, b)] *)
Definition posix_join (a b : str) : str :=
  if startswith b "/" then b
  else if String.eqb a "" || endswith a "/" then a ++ b
  else a ++ "/" ++ b.

(** [(urlparse(seed).netloc or "site").replace(":", "_")], the [host] of
    [_db_path_for_site] and the [site_host] of [main] *)
Definition site_host (seed : str) : option str :=
  match urlparse seed with
  | None => None
  | Some parsed =>
      Some (replace_char ":" "_"
              (if String.eqb (netloc parsed) "" then "site" else netloc parsed))
  end.

Definition _db_path_for_site (project_root seed_url : str) : option str :=
  match site_host seed_url with
  | None => None
  | Some host =>
      Some (posix_join (posix_join project_root "data") (host ++ ".scraper.db"))
  end.

(** ** [content_extractor.py]: the kind of a page *)

(** [extract_page_type(url, soup)]; the function does not look at [soup]. *)
Definition extract_page_type (url : str) : option str :=
  match urlparse url with
  | None => None
  | Some parsed =>
      let path := lower (path parsed) in
      if existsb (fun x => contains_str x path) ["blog"; "article"; "post"]
      then Some "blog"
      else if existsb (fun x => contains_str x path) ["product"; "item"; "shop"]
      then Some "product"
      else if str_in path [""; "/"; "/home"] then Some "homepage"
      else Some "generic"
  end.

(** ** Strings *)

Lemma lower_char_cases (c : ascii) :
  lower_char c = c \/ (is_upper c = true /\ is_lower (lower_char c) = true).
Proof.
  destruct c as [[] [] [] [] [] [] [] []]; vm_compute; auto.
Qed.

Lemma lower_char_idem (c : ascii) : lower_char (lower_char c) = lower_char c.
Proof.
  destruct c as [[] [] [] [] [] [] [] []]; vm_compute; reflexivity.
Qed.

Lemma upper_lower_disjoint (c : ascii) : is_upper c = true -> is_lower c = false.
Proof.
  destruct c as [[] [] [] [] [] [] [] []]; vm_compute; auto.
Qed.

(** Lower-casing cannot make or unmake a character that is not a letter. *)
Lemma eqb_lower_char (d c : ascii) :
  isalpha d = false -> Ascii.eqb d (lower_char c) = Ascii.eqb d c.
Proof.
  intros Hd. unfold isalpha in Hd. apply orb_false_elim in Hd as [Hu Hl].
  destruct (lower_char_cases c) as [-> | [Hup Hlow]]; [reflexivity|].
  destruct (Ascii.eqb_spec d (lower_char c)) as [->|_]; [congruence|].
  destruct (Ascii.eqb_spec d c) as [->|_]; [congruence | reflexivity].
Qed.

Lemma lower_idem (s : str) : lower (lower s) = lower s.
Proof.
  induction s as [|c s IH]; simpl; [reflexivity|].
  rewrite lower_char_idem, IH. reflexivity.
Qed.

Lemma contains_lower (d : ascii) (s : str) :
  isalpha d = false -> contains d (lower s) = contains d s.
Proof.
  intros Hd. induction s as [|c s IH]; simpl; [reflexivity|].
  rewrite eqb_lower_char, IH by assumption. reflexivity.
Qed.

Lemma forallb_str_lower (f : ascii -> bool) (s : str) :
  (forall c, f c = true -> f (lower_char c) = true) ->
  forallb_str f s = true -> forallb_str f (lower s) = true.
Proof.
  intros Hf. induction s as [|c s IH]; simpl; [auto|].
  intros [Hc Hs]%andb_prop. rewrite Hf, IH by assumption. reflexivity.
Qed.

Lemma forallb_str_app (f : ascii -> bool) (a b : str) :
  forallb_str f (a ++ b) = forallb_str f a && forallb_str f b.
Proof.
  induction a as [|c a IH]; simpl; [reflexivity|].
  rewrite IH, andb_assoc. reflexivity.
Qed.

Lemma forallb_str_impl (f g : ascii -> bool) (s : str) :
  (forall c, f c = true -> g c = true) ->
  forallb_str f s = true -> forallb_str g s = true.
Proof.
  intros Hfg. induction s as [|c s IH]; simpl; [auto|].
  intros [Hc Hs]%andb_prop. rewrite Hfg, IH by assumption. reflexivity.
Qed.

Lemma forallb_str_and (f g : ascii -> bool) (s : str) :
  forallb_str (fun c => f c && g c) s = forallb_str f s && forallb_str g s.
Proof.
  induction s as [|c s IH]; simpl; [reflexivity|].
  rewrite IH. destruct (f c), (g c), (forallb_str f s); reflexivity.
Qed.

(** [c] does not occur in [s]. *)
Lemma contains_false (d : ascii) (s : str) :
  contains d s = false <-> forallb_str (fun c => negb (Ascii.eqb d c)) s = true.
Proof.
  induction s as [|c s IH]; simpl; [tauto|].
  destruct (Ascii.eqb d c); simpl; [split; discriminate | exact IH].
Qed.

Lemma contains_app (d : ascii) (a b : str) :
  contains d (a ++ b) = contains d a || contains d b.
Proof.
  induction a as [|c a IH]; simpl; [reflexivity|].
  rewrite IH, orb_assoc. reflexivity.
Qed.

Lemma partition_spec (d : ascii) (s : str) :
  match partition d s with
  | (a, Some b) => s = a ++ String d b /\ contains d a = false
  | (a, None) => s = a /\ contains d s = false
  end.
Proof.
  induction s as [|c s IH]; simpl; [auto|].
  destruct (Ascii.eqb d c) eqn:Hdc; [apply Ascii.eqb_eq in Hdc as ->; auto|].
  destruct (partition d s) as [a [b|]]; destruct IH as [-> Hc]; simpl;
    rewrite ?Hdc; (split; [reflexivity|]); auto.
Qed.

Lemma partition_found (d : ascii) (a b : str) :
  contains d a = false -> partition d (a ++ String d b) = (a, Some b).
Proof.
  induction a as [|c a IH]; simpl.
  - rewrite Ascii.eqb_refl. reflexivity.
  - intros [Hc Ha]%orb_false_elim. rewrite Hc, (IH Ha). reflexivity.
Qed.

Lemma partition_none (d : ascii) (s : str) :
  contains d s = false -> partition d s = (s, None).
Proof.
  induction s as [|c s IH]; simpl; [reflexivity|].
  intros [Hc Hs]%orb_false_elim. rewrite Hc, (IH Hs). reflexivity.
Qed.

Lemma forallb_str_partition (f : ascii -> bool) (d : ascii) (s : str) :
  forallb_str f s = true ->
  forallb_str f (fst (partition d s)) = true /\
  forall b, snd (partition d s) = Some b -> forallb_str f b = true.
Proof.
  intros Hs. pose proof (partition_spec d s) as H.
  destruct (partition d s) as [a [b|]]; simpl.
  - destruct H as [-> _]. rewrite forallb_str_app in Hs. simpl in Hs.
    apply andb_prop in Hs as [Ha [_ Hb]%andb_prop].
    split; [exact Ha | intros ? [= <-]; exact Hb].
  - destruct H as [-> _]. split; [exact Hs | discriminate].
Qed.

Lemma rpartition_spec (d : ascii) (s : str) :
  match rpartition d s with
  | (Some h, t) => s = h ++ String d t /\ contains d t = false
  | (None, t) => s = t /\ contains d s = false
  end.
Proof.
  induction s as [|c s IH]; simpl; [auto|].
  destruct (rpartition d s) as [[h|] t].
  - destruct IH as [-> Ht]. auto.
  - destruct IH as [-> Ht]. destruct (Ascii.eqb d c) eqn:Hdc.
    + apply Ascii.eqb_eq in Hdc as ->. auto.
    + auto.
Qed.

Lemma partition_lower (d : ascii) (s : str) :
  isalpha d = false ->
  partition d (lower s) =
  (lower (fst (partition d s)), option_map lower (snd (partition d s))).
Proof.
  intros Hd. induction s as [|c s IH]; simpl; [reflexivity|].
  rewrite eqb_lower_char by assumption.
  destruct (Ascii.eqb d c); [reflexivity|].
  rewrite IH. destruct (partition d s) as [a b]. reflexivity.
Qed.

Lemma rpartition_lower (d : ascii) (s : str) :
  isalpha d = false ->
  rpartition d (lower s) =
  (option_map lower (fst (rpartition d s)), lower (snd (rpartition d s))).
Proof.
  intros Hd. induction s as [|c s IH]; simpl; [reflexivity|].
  rewrite IH, eqb_lower_char by assumption.
  destruct (rpartition d s) as [[h|] t]; simpl; [reflexivity|].
  destruct (Ascii.eqb d c); reflexivity.
Qed.

Lemma startswith_nil (s : str) : startswith s "" = true.
Proof. destruct s; reflexivity. Qed.

Lemma lower_eq_empty (s : str) : String.eqb (lower s) "" = String.eqb s "".
Proof. destruct s; reflexivity. Qed.

Lemma startswith_lower_char (d : ascii) (s : str) :
  isalpha d = false ->
  startswith (lower s) (String d "") = startswith s (String d "").
Proof.
  intros Hd. destruct s as [|c s]; simpl; [reflexivity|].
  rewrite eqb_lower_char, !startswith_nil by assumption. reflexivity.
Qed.

(** ** The normal form of a URL *)

(** What the specification says of [normalize]: scheme and host in lower
    case, every run of [/] in the path collapsed to one, one trailing [/]
    removed unless the path is the root, the query rebuilt from the
    parameters whose key is no tracking key, no [params], no fragment. *)

Definition head_is_slash (s : str) : bool :=
  match s with
  | EmptyString => false
  | String c _ => Ascii.eqb c "/"
  end.

Fixpoint squeeze_slashes (s : str) : str :=
  match s with
  | EmptyString => EmptyString
  | String c r =>
      if Ascii.eqb c "/" && head_is_slash r then squeeze_slashes r
      else String c (squeeze_slashes r)
  end.

Definition strip_trailing_slash (p : str) : str :=
  if String.eqb p "/" then p
  else if endswith p "/" then drop_last p else p.

Definition is_tracking_key (k : str) : bool :=
  str_in k TRACKING_PARAMS_EXACT ||
  existsb (fun prefix => startswith k prefix) TRACKING_PARAMS_PREFIXES.

Definition kept_query (q : str) : str :=
  join "&" (map (fun kv => fst kv ++ "=" ++ snd kv)
              (List.filter (fun kv => negb (is_tracking_key (fst kv))) (parse_qsl q))).

Definition normalized_path (r : ParseResult) : str :=
  strip_trailing_slash
    (squeeze_slashes (if String.eqb (path r) "" then "/" else path r)).

Definition normalized (r : ParseResult) : str :=
  urlunparse (lower (if String.eqb (scheme r) "" then "http" else scheme r))
             (lower (netloc r))
             (normalized_path r)
             ""
             (kept_query (query r))
             "".

Lemma collapse_unfold (p : str) :
  collapse_slashes p =
  if has_dslash p then collapse_slashes (replace_dslash p) else p.
Proof.
  funelim (collapse_slashes p); rewrite e; reflexivity.
Qed.

Lemma head_replace_dslash (s : str) :
  head_is_slash (replace_dslash s) = head_is_slash s.
Proof.
  destruct s as [|c [|d r]]; simpl; try reflexivity.
  destruct (Ascii.eqb c "/") eqn:Hc, (Ascii.eqb d "/"); simpl; auto.
Qed.

Lemma squeeze_cons (c : ascii) (r : str) :
  squeeze_slashes (String c r) =
  if Ascii.eqb c "/" && head_is_slash r then squeeze_slashes r
  else String c (squeeze_slashes r).
Proof. reflexivity. Qed.

Lemma replace_dslash_cons (c d : ascii) (r : str) :
  replace_dslash (String c (String d r)) =
  if Ascii.eqb c "/" && Ascii.eqb d "/" then String "/" (replace_dslash r)
  else String c (replace_dslash (String d r)).
Proof. reflexivity. Qed.

Lemma squeeze_replace_dslash (s : str) :
  squeeze_slashes (replace_dslash s) = squeeze_slashes s.
Proof.
  remember (String.length s) as n eqn:Hn. revert s Hn.
  induction n as [n IH] using lt_wf_ind. intros s Hn.
  destruct s as [|c [|d r]]; try reflexivity.
  rewrite replace_dslash_cons.
  destruct (Ascii.eqb c "/" && Ascii.eqb d "/") eqn:Hcd.
  - apply andb_prop in Hcd as [Hc Hd].
    apply Ascii.eqb_eq in Hc, Hd. subst c d.
    cbn [squeeze_slashes head_is_slash]. rewrite Ascii.eqb_refl. cbn [andb].
    rewrite head_replace_dslash.
    rewrite (IH (String.length r) ltac:(subst n; simpl; lia) r eq_refl).
    reflexivity.
  - rewrite (squeeze_cons c (replace_dslash (String d r))),
            (squeeze_cons c (String d r)), head_replace_dslash.
    rewrite (IH (String.length (String d r)) ltac:(subst n; simpl; lia) (String d r) eq_refl).
    reflexivity.
Qed.

Lemma has_dslash_cons (c d : ascii) (r : str) :
  has_dslash (String c (String d r)) =
  (Ascii.eqb c "/" && Ascii.eqb d "/") || has_dslash (String d r).
Proof. reflexivity. Qed.

Lemma squeeze_fixed (s : str) : has_dslash s = false -> squeeze_slashes s = s.
Proof.
  induction s as [|c r IH]; [reflexivity|].
  destruct r as [|d r']; [simpl; rewrite andb_false_r; reflexivity|].
  rewrite has_dslash_cons, squeeze_cons. cbn [head_is_slash].
  intros [Hcd Hr]%orb_false_elim. rewrite Hcd, (IH Hr). reflexivity.
Qed.

Lemma collapse_squeeze (p : str) : collapse_slashes p = squeeze_slashes p.
Proof.
  funelim (collapse_slashes p).
  - rewrite H. apply squeeze_replace_dslash.
  - symmetry. apply squeeze_fixed. assumption.
Qed.

Lemma head_squeeze (s : str) :
  head_is_slash (squeeze_slashes s) = head_is_slash s.
Proof.
  induction s as [|c r IH]; [reflexivity|].
  rewrite squeeze_cons.
  destruct (Ascii.eqb c "/" && head_is_slash r) eqn:Hc; [|reflexivity].
  apply andb_prop in Hc as [Hc Hr]. rewrite IH, Hr. simpl. auto.
Qed.

Lemma has_dslash_squeeze (s : str) : has_dslash (squeeze_slashes s) = false.
Proof.
  induction s as [|c r IH]; [reflexivity|].
  rewrite squeeze_cons.
  destruct (Ascii.eqb c "/" && head_is_slash r) eqn:Hc; [exact IH|].
  pose proof (head_squeeze r) as Hh.
  destruct (squeeze_slashes r) as [|d r'] eqn:Hsq; [reflexivity|].
  rewrite has_dslash_cons, IH, orb_false_r.
  cbn [head_is_slash] in Hh. rewrite Hh. exact Hc.
Qed.

Lemma strip_loop_filter (pairs : list (str * str)) :
  forall filtered,
    strip_loop pairs filtered =
    (filtered ++ List.filter (fun kv => negb (is_tracking_key (fst kv))) pairs)%list.
Proof.
  induction pairs as [|[k v] pairs IH]; intros filtered.
  - simpl. rewrite app_nil_r. reflexivity.
  - cbn [strip_loop List.filter fst]. unfold is_tracking_key at 1.
    destruct (str_in k TRACKING_PARAMS_EXACT); [apply IH|].
    cbn [orb].
    destruct (existsb (fun p => startswith k p) TRACKING_PARAMS_PREFIXES);
      [apply IH|].
    cbn [negb]. rewrite IH, <- app_assoc. reflexivity.
Qed.

Lemma strip_tracking_kept (q : str) : _strip_tracking_params q = kept_query q.
Proof.
  unfold _strip_tracking_params, kept_query.
  destruct (String.eqb q "") eqn:Hq.
  - unfold parse_qsl. rewrite Hq. reflexivity.
  - rewrite strip_loop_filter. cbn [app].
    destruct (List.filter _ (parse_qsl q)); reflexivity.
Qed.

Lemma endswith_slash_length (p : str) :
  endswith p "/" = true -> (String.length p <= 1)%nat -> p = "/".
Proof.
  destruct p as [|c [|d r]]; intros H Hlen; [discriminate | | simpl in Hlen; lia].
  cbn [endswith] in H. change (String.eqb "" "/") with false in H.
  rewrite !orb_false_r in H. apply String.eqb_eq in H. exact H.
Qed.

Lemma strip_trailing_spec (p : str) :
  (if (1 <? String.length p)%nat && endswith p "/" then drop_last p else p) =
  strip_trailing_slash p.
Proof.
  unfold strip_trailing_slash.
  destruct (String.eqb_spec p "/") as [->|Hne]; [reflexivity|].
  destruct (endswith p "/") eqn:He; [|rewrite andb_false_r; reflexivity].
  destruct (Nat.ltb_spec 1 (String.length p)) as [_|Hle]; [reflexivity|].
  exfalso. apply Hne, endswith_slash_length; [assumption | lia].
Qed.

Lemma drop_last_cons (c d : ascii) (r : str) :
  drop_last (String c (String d r)) = String c (drop_last (String d r)).
Proof. reflexivity. Qed.

Lemma has_dslash_drop_last (p : str) :
  has_dslash p = false -> has_dslash (drop_last p) = false.
Proof.
  induction p as [|c r IH]; [reflexivity|].
  destruct r as [|d r']; [reflexivity|].
  rewrite has_dslash_cons, drop_last_cons. intros [Hcd Hr]%orb_false_elim.
  specialize (IH Hr).
  destruct r' as [|e r'']; [reflexivity|].
  rewrite drop_last_cons in *. rewrite has_dslash_cons, Hcd. exact IH.
Qed.

Lemma endswith_cons (c : ascii) (r : str) :
  r <> "" -> endswith (String c r) "/" = endswith r "/".
Proof.
  intros Hr. destruct r as [|d r']; [contradiction|].
  change (endswith (String c (String d r')) "/")
    with ((Ascii.eqb c "/" && false) || endswith (String d r') "/").
  rewrite andb_false_r. reflexivity.
Qed.

Lemma endswith_drop_last (p : str) :
  has_dslash p = false -> endswith p "/" = true -> p <> "/" ->
  endswith (drop_last p) "/" = false.
Proof.
  induction p as [|c r IH]; [discriminate|].
  destruct r as [|d r']; [intros _ H Hne; exfalso; apply Hne;
                          apply endswith_slash_length; [exact H | simpl; lia]|].
  intros Hd He Hne.
  rewrite has_dslash_cons in Hd. apply orb_false_elim in Hd as [Hcd Hr].
  rewrite endswith_cons in He by discriminate.
  rewrite drop_last_cons.
  destruct r' as [|e r''].
  - assert (d = "/"%char) as ->.
    { simpl in He. rewrite orb_false_r in He.
      destruct (Ascii.eqb_spec d "/"); [assumption | discriminate]. }
    rewrite Ascii.eqb_refl, andb_true_r in Hcd.
    simpl. rewrite Hcd. reflexivity.
  - assert (Hne' : String d (String e r'') <> "/") by discriminate.
    specialize (IH Hr He Hne').
    rewrite endswith_cons; [exact IH|].
    rewrite drop_last_cons. discriminate.
Qed.

Lemma squeeze_nonempty (p : str) : p <> "" -> squeeze_slashes p <> "".
Proof.
  destruct p as [|c p]; [contradiction|]. intros _.
  revert c. induction p as [|d p IH]; intros c; rewrite squeeze_cons.
  - cbn [head_is_slash]. rewrite andb_false_r. discriminate.
  - destruct (Ascii.eqb c "/" && head_is_slash (String d p)); [apply IH | discriminate].
Qed.

Lemma strip_trailing_normal (p : str) :
  p <> "" -> has_dslash p = false ->
  strip_trailing_slash p <> "" /\
  has_dslash (strip_trailing_slash p) = false /\
  (endswith (strip_trailing_slash p) "/" = true -> strip_trailing_slash p = "/").
Proof.
  intros Hp Hd. unfold strip_trailing_slash.
  destruct (String.eqb_spec p "/") as [->|Hne].
  { split; [discriminate | split; [reflexivity | auto]]. }
  destruct (endswith p "/") eqn:He.
  - split; [|split].
    + destruct p as [|c [|d p']]; [contradiction | | rewrite drop_last_cons; discriminate].
      exfalso. apply Hne, endswith_slash_length; [exact He | simpl; lia].
    + apply has_dslash_drop_last, Hd.
    + rewrite endswith_drop_last by assumption. discriminate.
  - repeat split; auto. congruence.
Qed.

(** The path of the normal form: never empty, no [//] in it, and no
    trailing [/] unless it is the root. *)
Lemma normalized_path_spec (r : ParseResult) :
  normalized_path r <> "" /\
  has_dslash (normalized_path r) = false /\
  (endswith (normalized_path r) "/" = true -> normalized_path r = "/").
Proof.
  unfold normalized_path. apply strip_trailing_normal.
  - apply squeeze_nonempty.
    destruct (String.eqb_spec (path r) ""); [discriminate | assumption].
  - apply has_dslash_squeeze.
Qed.

Lemma normalize_url_normalized (url : str) :
  normalize_url url = option_map normalized (urlparse url).
Proof.
  unfold normalize_url. destruct (urlparse url) as [r|]; [|reflexivity].
  cbn [option_map]. unfold normalized, normalized_path.
  rewrite strip_trailing_spec, collapse_squeeze, strip_tracking_kept. reflexivity.
Qed.

(** C8, amended.  [normalize_url] raises exactly when [urlparse] does; on
    every other string it returns the normal form of the parsed URL. *)
Theorem normalize_url_spec (url : str) :
  normalize_url url = option_map normalized (urlparse url) /\
  (normalize_url url = None <-> urlparse url = None) /\
  (forall r, urlparse url = Some r ->
     normalized_path r <> "" /\
     has_dslash (normalized_path r) = false /\
     (endswith (normalized_path r) "/" = true -> normalized_path r = "/")).
Proof.
  pose proof (normalize_url_normalized url) as H.
  split; [exact H|]. split.
  - rewrite H. destruct (urlparse url); simpl; split; congruence.
  - intros r _. apply normalized_path_spec.
Qed.

(** ** Normalising a normal form *)

Definition no_unsafe (s : str) : bool :=
  forallb_str (fun c => negb (unsafe_byte c)) s.

Definition netloc_char (c : ascii) : bool :=
  negb (Ascii.eqb c "/" || Ascii.eqb c "?" || Ascii.eqb c "#").

(** The query part of a URL as [urlunsplit] writes it. *)
Definition query_part (q : str) : str :=
  if negb (String.eqb q "") then "?" ++ q else "".

Lemma scheme_char_facts (c : ascii) :
  scheme_char c = true ->
  scheme_char (lower_char c) = true /\
  Ascii.eqb ":" c = false /\
  unsafe_byte c = false.
Proof.
  destruct c as [[] [] [] [] [] [] [] []]; vm_compute; intros H;
    try discriminate H; auto.
Qed.

Lemma alpha_facts (c : ascii) :
  isascii c && isalpha c = true ->
  c0_or_space c = false /\
  isascii (lower_char c) && isalpha (lower_char c) = true.
Proof.
  destruct c as [[] [] [] [] [] [] [] []]; vm_compute; intros H;
    try discriminate H; auto.
Qed.

Lemma unsafe_lower_char (c : ascii) : unsafe_byte (lower_char c) = unsafe_byte c.
Proof.
  destruct c as [[] [] [] [] [] [] [] []]; vm_compute; reflexivity.
Qed.

Lemma str_app_cons (x : ascii) (a b : str) : String x a ++ b = String x (a ++ b).
Proof. reflexivity. Qed.

Lemma str_app_nil_l (b : str) : "" ++ b = b.
Proof. reflexivity. Qed.

Lemma str_app_assoc (a b c : str) : (a ++ b) ++ c = a ++ (b ++ c).
Proof.
  induction a as [|x a IH]; [reflexivity|].
  rewrite !str_app_cons, IH. reflexivity.
Qed.

Lemma str_app_nil_r (a : str) : a ++ "" = a.
Proof.
  induction a as [|x a IH]; [reflexivity|].
  rewrite str_app_cons, IH. reflexivity.
Qed.

Lemma str_eqb_false_cons (c : ascii) (r : str) : String.eqb (String c r) "" = false.
Proof. reflexivity. Qed.

Lemma remove_chars_id (f : ascii -> bool) (s : str) :
  forallb_str (fun c => negb (f c)) s = true -> remove_chars f s = s.
Proof.
  induction s as [|c s IH]; simpl; [reflexivity|].
  intros [Hc Hs]%andb_prop. apply negb_true_iff in Hc. rewrite Hc, (IH Hs). reflexivity.
Qed.

Lemma forallb_str_remove_chars (f : ascii -> bool) (s : str) :
  forallb_str (fun c => negb (f c)) (remove_chars f s) = true.
Proof.
  induction s as [|c s IH]; simpl; [reflexivity|].
  destruct (f c) eqn:Hc; [exact IH|]. simpl. rewrite Hc, IH. reflexivity.
Qed.

Lemma splitnetloc_app (n r : str) :
  forallb_str netloc_char n = true ->
  (r = "" \/ exists c r', r = String c r' /\ netloc_char c = false) ->
  _splitnetloc (n ++ r) = (n, r).
Proof.
  intros Hn Hr. induction n as [|c n IH]; simpl.
  - destruct Hr as [-> | (c & r' & -> & Hc)]; [reflexivity|].
    simpl. unfold netloc_char in Hc. apply negb_false_iff in Hc. rewrite Hc. reflexivity.
  - simpl in Hn. apply andb_prop in Hn as [Hc Hn].
    unfold netloc_char in Hc. apply negb_true_iff in Hc. rewrite Hc, (IH Hn). reflexivity.
Qed.

Lemma splitnetloc_spec (r : str) :
  r = fst (_splitnetloc r) ++ snd (_splitnetloc r) /\
  forallb_str netloc_char (fst (_splitnetloc r)) = true /\
  (snd (_splitnetloc r) = "" \/
   exists c r', snd (_splitnetloc r) = String c r' /\ netloc_char c = false).
Proof.
  induction r as [|c r IH]; simpl; [auto|].
  destruct (Ascii.eqb c "/" || Ascii.eqb c "?" || Ascii.eqb c "#") eqn:Hc.
  - simpl. split; [reflexivity|]. split; [reflexivity|].
    right. exists c, r. split; [reflexivity|]. unfold netloc_char. rewrite Hc. reflexivity.
  - destruct (_splitnetloc r) as [n u]. cbn [fst snd] in *.
    destruct IH as (Hr & Hn & Hu).
    split; [rewrite str_app_cons, <- Hr; reflexivity|]. split; [|exact Hu].
    cbn [forallb_str]. unfold netloc_char at 1. rewrite Hc. exact Hn.
Qed.

Lemma startswith_cons (b a : ascii) (s p : str) :
  startswith (String b s) (String a p) = Ascii.eqb a b && startswith s p.
Proof. reflexivity. Qed.

Lemma startswith_dslash_false (p : str) :
  has_dslash p = false -> startswith p "//" = false.
Proof.
  destruct p as [|c [|d r]]; try reflexivity.
  - rewrite startswith_cons. intros _. apply andb_false_r.
  - rewrite has_dslash_cons. intros [H _]%orb_false_elim.
    rewrite !startswith_cons, startswith_nil, andb_true_r.
    rewrite (Ascii.eqb_sym "/" c), (Ascii.eqb_sym "/" d). exact H.
Qed.

Definition path_char (c : ascii) : bool :=
  negb (Ascii.eqb "?" c) && negb (Ascii.eqb "#" c) && negb (Ascii.eqb ";" c)
  && negb (unsafe_byte c).

Definition query_char (c : ascii) : bool :=
  negb (Ascii.eqb "#" c) && negb (unsafe_byte c).

(** The parts of a URL as [normalize_url] hands them to [urlunparse]. *)
Record normal_parts (s n p q : str) : Prop := mkNormal {
  np_scheme_head : exists c0 s', s = String c0 s' /\ isascii c0 && isalpha c0 = true;
  np_scheme_chars : forallb_str scheme_char s = true;
  np_scheme_lower : lower s = s;
  np_netloc_chars : forallb_str netloc_char n = true;
  np_netloc_lower : lower n = n;
  np_netloc_ok : netloc_ok n = true;
  np_netloc_safe : no_unsafe n = true;
  np_path_nonempty : p <> "";
  np_path_slashes : has_dslash p = false;
  np_path_trailing : endswith p "/" = true -> p = "/";
  np_path_chars : forallb_str path_char p = true;
  np_query_chars : forallb_str query_char q = true;
  np_query_fixed : _strip_tracking_params q = q
}.

Lemma path_char_facts (p : str) :
  forallb_str path_char p = true ->
  contains "?" p = false /\ contains "#" p = false /\ contains ";" p = false /\
  no_unsafe p = true.
Proof.
  intros H. unfold no_unsafe. rewrite !contains_false.
  repeat split; eapply forallb_str_impl; try exact H; intros c Hc;
    unfold path_char in Hc;
    apply andb_prop in Hc as [[[H1 H2]%andb_prop H3]%andb_prop H4]; assumption.
Qed.

Lemma query_char_facts (q : str) :
  forallb_str query_char q = true ->
  contains "#" q = false /\ no_unsafe q = true.
Proof.
  intros H. unfold no_unsafe. rewrite !contains_false.
  split; eapply forallb_str_impl; try exact H; intros c Hc;
    unfold query_char in Hc; apply andb_prop in Hc as [H1 H2]; assumption.
Qed.

(** Splitting [path ++ query_part q] at [#] and at [?] gives back [path]
    and [q]. *)
Lemma split_path_query (s n P q : str) :
  contains "?" P = false -> contains "#" P = false -> contains "#" q = false ->
  (let '(url, fragment) :=
     match partition "#" (P ++ query_part q) with
     | (a, Some b) => (a, b)
     | (a, None) => (a, EmptyString)
     end in
   let '(url, query) :=
     match partition "?" url with
     | (a, Some b) => (a, b)
     | (a, None) => (a, EmptyString)
     end in
   Some (mkSplit s n url query fragment)) = Some (mkSplit s n P q "").
Proof.
  intros HP1 HP2 Hq.
  assert (Hfrag : contains "#" (P ++ query_part q) = false).
  { rewrite contains_app, HP2. unfold query_part.
    destruct (String.eqb q ""); [reflexivity|]. cbn [negb].
    rewrite str_app_cons, str_app_nil_l. cbn [contains]. rewrite Hq. reflexivity. }
  rewrite (partition_none _ _ Hfrag).
  unfold query_part. destruct (String.eqb_spec q "") as [->|Hne]; cbn [negb].
  - rewrite str_app_nil_r, (partition_none _ _ HP1). reflexivity.
  - rewrite str_app_cons, str_app_nil_l, (partition_found _ _ _ HP1). reflexivity.
Qed.

Lemma split_rest_netloc (s n P q : str) :
  forallb_str netloc_char n = true -> netloc_ok n = true ->
  startswith P "/" = true ->
  contains "?" P = false -> contains "#" P = false -> contains "#" q = false ->
  split_rest s ("//" ++ n ++ P ++ query_part q) = Some (mkSplit s n P q "").
Proof.
  intros Hn Hok HP0 HP1 HP2 Hq. unfold split_rest.
  rewrite !str_app_cons, str_app_nil_l.
  rewrite !startswith_cons, startswith_nil, !Ascii.eqb_refl. cbn [andb drop].
  rewrite splitnetloc_app; [| exact Hn |].
  - rewrite Hok. apply split_path_query; assumption.
  - right. destruct P as [|c P']; [discriminate|].
    rewrite startswith_cons in HP0. apply andb_prop in HP0 as [Hc _].
    apply Ascii.eqb_eq in Hc. subst c.
    exists "/"%char, (P' ++ query_part q). split; reflexivity.
Qed.

Lemma split_rest_plain (s P q : str) :
  P <> "" -> has_dslash P = false ->
  contains "?" P = false -> contains "#" P = false -> contains "#" q = false ->
  split_rest s (P ++ query_part q) = Some (mkSplit s "" P q "").
Proof.
  intros HP HPd HP1 HP2 Hq. unfold split_rest.
  assert (Hsw : startswith (P ++ query_part q) "//" = false).
  { destruct P as [|c [|d P']]; [contradiction | |].
    - rewrite str_app_cons, str_app_nil_l, startswith_cons.
      unfold query_part. destruct (String.eqb q ""); cbn [negb].
      + rewrite andb_false_r. reflexivity.
      + rewrite str_app_cons, startswith_cons. cbn. apply andb_false_r.
    - rewrite has_dslash_cons in HPd. apply orb_false_elim in HPd as [Hcd _].
      rewrite !str_app_cons, !startswith_cons, startswith_nil, andb_true_r.
      rewrite (Ascii.eqb_sym "/" c), (Ascii.eqb_sym "/" d). exact Hcd. }
  rewrite Hsw. apply split_path_query; assumption.
Qed.

Lemma take_scheme_rebuilt (s R : str) :
  (exists c0 s', s = String c0 s' /\ isascii c0 && isalpha c0 = true) ->
  forallb_str scheme_char s = true -> lower s = s ->
  take_scheme (s ++ ":" ++ R) = (s, R).
Proof.
  intros (c0 & s' & -> & Hc0) Hs Hl. unfold take_scheme.
  assert (Hcolon : contains ":" (String c0 s') = false).
  { apply contains_false. eapply forallb_str_impl; [|exact Hs].
    intros c Hc. destruct (scheme_char_facts c Hc) as (_ & -> & _). reflexivity. }
  change (":" ++ R) with (String ":" R).
  rewrite (partition_found _ _ _ Hcolon), Hc0, Hs, Hl. reflexivity.
Qed.

Lemma urlsplit_rebuilt (s R : str) :
  (exists c0 s', s = String c0 s' /\ isascii c0 && isalpha c0 = true) ->
  forallb_str scheme_char s = true -> lower s = s -> no_unsafe R = true ->
  urlsplit (s ++ ":" ++ R) = split_rest s R.
Proof.
  intros Hhead Hs Hl HR. unfold urlsplit.
  assert (Hstrip : lstrip c0_or_space (s ++ ":" ++ R) = s ++ ":" ++ R).
  { destruct Hhead as (c0 & s' & -> & Hc0). rewrite str_app_cons. cbn [lstrip].
    destruct (alpha_facts c0 Hc0) as [-> _]. reflexivity. }
  rewrite Hstrip, remove_chars_id;
    [rewrite take_scheme_rebuilt by assumption; reflexivity|].
  unfold no_unsafe in *. change (":" ++ R) with (String ":" R).
  rewrite forallb_str_app. cbn [forallb_str].
  rewrite HR. replace (negb (unsafe_byte ":")) with true by reflexivity.
  cbn [andb]. rewrite andb_true_r.
  eapply forallb_str_impl; [|exact Hs].
  intros c Hc. destruct (scheme_char_facts c Hc) as (_ & _ & ->). reflexivity.
Qed.

(** The path as [urlunsplit] writes it after a netloc. *)
Definition rooted (p : str) : str :=
  if startswith p "/" then p else "/" ++ p.

Lemma urlunparse_shape (s n p q : str) :
  s <> "" -> p <> "" -> has_dslash p = false ->
  urlunparse s n p "" q "" =
  s ++ ":" ++ ((if negb (String.eqb n "") || str_in s uses_netloc
                then "//" ++ n ++ rooted p else p) ++ query_part q).
Proof.
  intros Hs Hp Hd. unfold urlunparse.
  change (String.eqb "" "") with true. cbn [negb].
  unfold urlunsplit, rooted, query_part.
  destruct (String.eqb_spec s "") as [|_]; [contradiction|].
  destruct (String.eqb_spec p "") as [|_]; [contradiction|].
  rewrite (startswith_dslash_false p Hd).
  change (String.eqb "" "") with true. cbn [negb andb].
  rewrite andb_true_r.
  replace (if negb (startswith p "/") then "/" ++ p else p)
    with (if startswith p "/" then p else "/" ++ p)
    by (destruct (startswith p "/"); reflexivity).
  destruct (String.eqb q ""); cbn [negb].
  - rewrite str_app_nil_r. reflexivity.
  - rewrite !str_app_assoc. reflexivity.
Qed.

Lemma rooted_normal (p : str) :
  p <> "" -> has_dslash p = false -> (endswith p "/" = true -> p = "/") ->
  forallb_str path_char p = true ->
  startswith (rooted p) "/" = true /\
  rooted p <> "" /\
  has_dslash (rooted p) = false /\
  (endswith (rooted p) "/" = true -> rooted p = "/") /\
  forallb_str path_char (rooted p) = true /\
  rooted (rooted p) = rooted p.
Proof.
  intros Hp Hd Ht Hc. unfold rooted.
  destruct (startswith p "/") eqn:Hsw.
  - rewrite Hsw. repeat split; auto.
  - destruct p as [|d r]; [contradiction|].
    rewrite startswith_cons, startswith_nil, andb_true_r in Hsw.
    rewrite str_app_cons, str_app_nil_l, startswith_cons, startswith_nil, Ascii.eqb_refl.
    split; [reflexivity|]. split; [discriminate|].
    split; [rewrite has_dslash_cons, Hd, (Ascii.eqb_sym d "/"), Hsw, andb_false_r;
            reflexivity|].
    split; [|split; [|reflexivity]].
    2: { change (forallb_str path_char (String "/" (String d r)))
           with (path_char "/" && forallb_str path_char (String d r)).
         rewrite Hc. reflexivity. }
    rewrite endswith_cons by discriminate. intros He.
    specialize (Ht He). injection Ht as -> _. discriminate.
Qed.

Lemma collapse_fixed (p : str) : has_dslash p = false -> collapse_slashes p = p.
Proof. intros H. rewrite collapse_unfold, H. reflexivity. Qed.

Lemma trailing_fixed (p : str) :
  (endswith p "/" = true -> p = "/") ->
  (if (1 <? String.length p)%nat && endswith p "/" then drop_last p else p) = p.
Proof.
  intros Ht. destruct (endswith p "/"); [|rewrite andb_false_r; reflexivity].
  rewrite (Ht eq_refl). reflexivity.
Qed.

(** What [normalize_url] makes of a URL that splits into normal parts. *)
Lemma normalize_of_split (url s n P q : str) :
  urlsplit url = Some (mkSplit s n P q "") ->
  s <> "" -> lower s = s -> lower n = n ->
  P <> "" -> has_dslash P = false -> (endswith P "/" = true -> P = "/") ->
  contains ";" P = false -> _strip_tracking_params q = q ->
  normalize_url url = Some (urlunparse s n P "" q "").
Proof.
  intros Hsplit Hs Hls Hln HP Hd Ht Hsemi Hq.
  unfold normalize_url, urlparse. rewrite Hsplit.
  cbn [split_scheme split_netloc split_path split_query split_fragment].
  rewrite Hsemi, andb_false_r.
  cbn [scheme netloc path params query fragment].
  destruct (String.eqb_spec s "") as [|_]; [contradiction|].
  destruct (String.eqb_spec P "") as [|_]; [contradiction|].
  rewrite Hls, Hln, Hq, (collapse_fixed P Hd), (trailing_fixed P Ht). reflexivity.
Qed.

(** The second pass: [normalize_url] leaves what it has built from normal
    parts as it is. *)
Lemma normalize_url_fixed (s n p q : str) :
  normal_parts s n p q ->
  normalize_url (urlunparse s n p "" q "") = Some (urlunparse s n p "" q "").
Proof.
  intros [Hhead Hsc Hsl Hnc Hnl Hnok Hns Hp Hd Ht Hpc Hqc Hqf].
  assert (Hs : s <> "") by (destruct Hhead as (c0 & s' & -> & _); discriminate).
  destruct (path_char_facts p Hpc) as (Hp1 & Hp2 & Hp3 & Hp4).
  destruct (query_char_facts q Hqc) as (Hq1 & Hq2).
  destruct (rooted_normal p Hp Hd Ht Hpc) as (Rsw & Rne & Rd & Rt & Rc & Rr).
  destruct (path_char_facts (rooted p) Rc) as (R1 & R2 & R3 & R4).
  assert (Hqp : no_unsafe (query_part q) = true).
  { unfold query_part. destruct (String.eqb q ""); [reflexivity|]. cbn [negb].
    rewrite str_app_cons, str_app_nil_l. unfold no_unsafe in *. cbn [forallb_str].
    rewrite Hq2. reflexivity. }
  rewrite (urlunparse_shape s n p q Hs Hp Hd).
  destruct (negb (String.eqb n "") || str_in s uses_netloc) eqn:Hcond.
  - (* written with a netloc part *)
    assert (Hsplit : urlsplit (s ++ ":" ++ ("//" ++ n ++ rooted p) ++ query_part q)
                     = Some (mkSplit s n (rooted p) q "")).
    { assert (HR : no_unsafe (("//" ++ n ++ rooted p) ++ query_part q) = true).
      { unfold no_unsafe in *. rewrite forallb_str_app, Hqp, andb_true_r.
        change ("//" ++ n ++ rooted p) with (String "/" (String "/" (n ++ rooted p))).
        cbn [forallb_str]. rewrite forallb_str_app, Hns, R4. reflexivity. }
      rewrite urlsplit_rebuilt by assumption.
      rewrite !str_app_assoc. apply split_rest_netloc; assumption. }
    rewrite (normalize_of_split _ s n (rooted p) q Hsplit) by assumption.
    rewrite (urlunparse_shape s n (rooted p) q Hs Rne Rd), Hcond, Rr. reflexivity.
  - (* written without *)
    apply orb_false_elim in Hcond as [Hn Hu].
    apply negb_false_iff, String.eqb_eq in Hn. subst n.
    assert (Hsplit : urlsplit (s ++ ":" ++ p ++ query_part q)
                     = Some (mkSplit s "" p q "")).
    { assert (HR : no_unsafe (p ++ query_part q) = true).
      { unfold no_unsafe in *. rewrite forallb_str_app, Hp4, Hqp. reflexivity. }
      rewrite urlsplit_rebuilt by assumption.
      apply split_rest_plain; assumption. }
    rewrite (normalize_of_split _ s "" p q Hsplit) by assumption.
    rewrite (urlunparse_shape s "" p q Hs Hp Hd). cbn [String.eqb negb orb].
    rewrite Hu. reflexivity.
Qed.

(** ** Queries without percent escapes *)

Definition key_char (c : ascii) : bool :=
  negb (Ascii.eqb "=" c) && negb (Ascii.eqb "&" c) && negb (Ascii.eqb "%" c)
  && negb (Ascii.eqb "+" c).

Definition val_char (c : ascii) : bool :=
  negb (Ascii.eqb "&" c) && negb (Ascii.eqb "%" c) && negb (Ascii.eqb "+" c).

Definition good_pair (kv : str * str) : Prop :=
  forallb_str key_char (fst kv) = true /\ forallb_str val_char (snd kv) = true.

(** A parameter as [_strip_tracking_params] writes it. *)
Definition enc (kv : str * str) : str := fst kv ++ "=" ++ snd kv.

Lemma forallb_str_replace_char (f : ascii -> bool) (c d : ascii) (s : str) :
  f d = true -> forallb_str f s = true -> forallb_str f (replace_char c d s) = true.
Proof.
  intros Hd. induction s as [|e s IH]; simpl; [auto|].
  intros [He Hs]%andb_prop. rewrite (IH Hs), andb_true_r.
  destruct (Ascii.eqb c e); assumption.
Qed.

Lemma replace_char_removes (c d : ascii) (s : str) :
  Ascii.eqb c d = false ->
  forallb_str (fun e => negb (Ascii.eqb c e)) (replace_char c d s) = true.
Proof.
  intros Hcd. induction s as [|e s IH]; simpl; [reflexivity|].
  rewrite IH, andb_true_r. destruct (Ascii.eqb c e) eqn:He; rewrite ?Hcd, ?He; reflexivity.
Qed.

Lemma replace_char_id (c d : ascii) (s : str) :
  contains c s = false -> replace_char c d s = s.
Proof.
  induction s as [|e s IH]; simpl; [reflexivity|].
  intros [He Hs]%orb_false_elim. rewrite He, (IH Hs). reflexivity.
Qed.

Lemma unquote_id (s : str) : contains "%" s = false -> unquote s = s.
Proof. intros H. unfold unquote. rewrite H. reflexivity. Qed.

Lemma forallb_str_split (f : ascii -> bool) (d : ascii) (s : str) :
  forallb_str f s = true ->
  Forall (fun x => forallb_str f x = true /\ contains d x = false) (split d s).
Proof.
  induction s as [|c s IH]; simpl; intros H.
  - repeat constructor.
  - apply andb_prop in H as [Hc Hs]. specialize (IH Hs).
    destruct (Ascii.eqb d c) eqn:Hdc.
    + constructor; [split; reflexivity | exact IH].
    + destruct (split d s) as [|x xs].
      * constructor; [|constructor]. simpl. rewrite Hc, Hdc. auto.
      * inversion IH as [|? ? [Hx Hdx] Hxs]; subst.
        constructor; [|exact Hxs]. simpl. rewrite Hc, Hx, Hdc, Hdx. auto.
Qed.

Lemma split_join (d : ascii) (l : list str) :
  l <> [] -> Forall (fun x => contains d x = false) l ->
  split d (join (String d "") l) = l.
Proof.
  induction l as [|x l IH]; [congruence|]. intros _ Hall.
  inversion Hall as [|? ? Hx Hl]; subst.
  assert (Hsplit : forall y, contains d y = false -> split d y = [y]).
  { induction y as [|c y IHy]; simpl; [reflexivity|].
    intros [Hc Hy]%orb_false_elim. rewrite Hc, (IHy Hy). reflexivity. }
  destruct l as [|x' l'].
  - simpl. apply Hsplit, Hx.
  - change (join (String d "") (x :: x' :: l'))
      with (x ++ String d "" ++ join (String d "") (x' :: l')).
    rewrite str_app_cons, str_app_nil_l.
    specialize (IH ltac:(discriminate) Hl).
    clear Hall Hl. revert IH. generalize (join (String d "") (x' :: l')). intros r IH.
    induction x as [|c x IHx].
    + rewrite str_app_nil_l. simpl. rewrite Ascii.eqb_refl, IH. reflexivity.
    + simpl in Hx. apply orb_false_elim in Hx as [Hc Hx].
      rewrite str_app_cons. simpl. rewrite Hc, (IHx Hx). reflexivity.
Qed.

Lemma parse_field_enc (kv : str * str) :
  good_pair kv -> parse_field (enc kv) = kv /\ String.eqb (enc kv) "" = false
                  /\ contains "&" (enc kv) = false.
Proof.
  destruct kv as [k v]. unfold good_pair, enc, parse_field. cbn [fst snd].
  intros [Hk Hv].
  assert (Hk' : contains "=" k = false /\ contains "&" k = false
                /\ contains "%" k = false /\ contains "+" k = false).
  { rewrite !contains_false. repeat split; eapply forallb_str_impl; try exact Hk;
      intros c Hc; unfold key_char in Hc;
      apply andb_prop in Hc as [[[H1 H2]%andb_prop H3]%andb_prop H4]; assumption. }
  assert (Hv' : contains "&" v = false /\ contains "%" v = false
                /\ contains "+" v = false).
  { rewrite !contains_false. repeat split; eapply forallb_str_impl; try exact Hv;
      intros c Hc; unfold val_char in Hc;
      apply andb_prop in Hc as [[H1 H2]%andb_prop H3]; assumption. }
  destruct Hk' as (K1 & K2 & K3 & K4). destruct Hv' as (V1 & V2 & V3).
  change ("=" ++ v) with (String "=" v).
  rewrite (partition_found _ _ _ K1).
  rewrite !replace_char_id, !unquote_id by assumption.
  split; [reflexivity|]. split.
  - destruct k; reflexivity.
  - rewrite contains_app, K2. cbn [contains]. rewrite V1. reflexivity.
Qed.

Lemma parse_fields_enc (l : list (str * str)) :
  Forall good_pair l -> parse_fields (map enc l) = l.
Proof.
  induction 1 as [|kv l Hkv _ IH]; [reflexivity|].
  cbn [map parse_fields].
  destruct (parse_field_enc kv Hkv) as (-> & -> & _). rewrite IH. reflexivity.
Qed.

Lemma parse_qsl_join (l : list (str * str)) :
  Forall good_pair l -> parse_qsl (join "&" (map enc l)) = l.
Proof.
  intros Hl. unfold parse_qsl. destruct l as [|kv l]; [reflexivity|].
  assert (Hne : String.eqb (join "&" (map enc (kv :: l))) "" = false).
  { inversion Hl as [|? ? Hkv _]; subst.
    destruct (parse_field_enc kv Hkv) as (_ & He & _).
    cbn [map]. destruct (enc kv) as [|c e]; [discriminate|].
    destruct (map enc l); reflexivity. }
  rewrite Hne, split_join; [apply parse_fields_enc; exact Hl | discriminate |].
  apply Forall_map. eapply Forall_impl; [exact Hl|].
  intros x Hx. apply (parse_field_enc x Hx).
Qed.

(** The pairs [parse_qsl] reads from a query that has no [%] in it; [f] is
    any property of characters that a space has too. *)
Lemma parse_qsl_good (f : ascii -> bool) (q : str) :
  f " "%char = true -> contains "%" q = false -> forallb_str f q = true ->
  Forall (fun kv => good_pair kv /\ forallb_str f (fst kv) = true
                    /\ forallb_str f (snd kv) = true) (parse_qsl q).
Proof.
  intros Hsp Hq Hf. unfold parse_qsl.
  destruct (String.eqb q ""); [constructor|].
  set (g := fun c => f c && negb (Ascii.eqb "%" c)).
  assert (Hg : forallb_str g q = true).
  { unfold g. rewrite forallb_str_and, Hf. apply contains_false, Hq. }
  pose proof (forallb_str_split g "&" q Hg) as Hall.
  induction Hall as [|x xs [Hx Hamp] _ IH]; [constructor|].
  cbn [parse_fields]. destruct (String.eqb x ""); [exact IH|].
  constructor; [|exact IH]. clear IH.
  unfold parse_field.
  pose proof (partition_spec "=" x) as Hpart.
  destruct (forallb_str_partition g "=" x Hx) as [Hn Hv].
  apply contains_false in Hamp.
  destruct (forallb_str_partition _ "=" x Hamp) as [Hn2 Hv2].
  destruct (partition "=" x) as [n v]. cbn [fst snd] in *.
  assert (Hnk : contains "=" n = false) by (destruct v; destruct Hpart as [Hx' Hk']; [|rewrite Hx' in Hk']; exact Hk').
  set (v' := match v with Some v0 => v0 | None => "" end).
  assert (Hv' : forallb_str g v' = true /\
                forallb_str (fun c => negb (Ascii.eqb "&" c)) v' = true).
  { subst v'. destruct v as [v0|]; [split; auto | split; reflexivity]. }
  destruct Hv' as [Hgv Hav]. clear Hv Hv2 Hpart.
  assert (Hpn : contains "%" (replace_char "+" " " n) = false).
  { apply contains_false, forallb_str_replace_char; [reflexivity|].
    eapply forallb_str_impl; [|exact Hn]. unfold g. intros c [_ Hc]%andb_prop. exact Hc. }
  assert (Hpv : contains "%" (replace_char "+" " " v') = false).
  { apply contains_false, forallb_str_replace_char; [reflexivity|].
    eapply forallb_str_impl; [|exact Hgv]. unfold g. intros c [_ Hc]%andb_prop. exact Hc. }
  rewrite !unquote_id by assumption. cbn [fst snd]. unfold good_pair. cbn [fst snd].
  apply contains_false in Hnk, Hpn, Hpv.
  repeat split.
  - unfold key_char. rewrite !forallb_str_and.
    rewrite Hpn, (replace_char_removes "+" " " n eq_refl).
    rewrite !forallb_str_replace_char by (reflexivity || assumption). reflexivity.
  - unfold val_char. rewrite !forallb_str_and.
    rewrite Hpv, (replace_char_removes "+" " " v' eq_refl).
    rewrite !forallb_str_replace_char by (reflexivity || assumption). reflexivity.
  - apply forallb_str_replace_char; [exact Hsp|].
    eapply forallb_str_impl; [|exact Hn]. unfold g. intros c [Hc _]%andb_prop. exact Hc.
  - apply forallb_str_replace_char; [exact Hsp|].
    eapply forallb_str_impl; [|exact Hgv]. unfold g. intros c [Hc _]%andb_prop. exact Hc.
Qed.

Lemma forallb_str_join_enc (f : ascii -> bool) (l : list (str * str)) :
  f "="%char = true -> f "&"%char = true ->
  Forall (fun kv => forallb_str f (fst kv) = true /\ forallb_str f (snd kv) = true) l ->
  forallb_str f (join "&" (map enc l)) = true.
Proof.
  intros Heq Hamp. induction 1 as [|kv l [Hk Hv] _ IH]; [reflexivity|].
  assert (He : forallb_str f (enc kv) = true).
  { unfold enc. change ("=" ++ snd kv) with (String "=" (snd kv)).
    rewrite forallb_str_app. cbn [forallb_str]. rewrite Hk, Heq, Hv. reflexivity. }
  cbn [map]. destruct (map enc l) as [|x xs] eqn:Hm; [exact He|].
  change (join "&" (enc kv :: x :: xs)) with (enc kv ++ String "&" (join "&" (x :: xs))).
  rewrite forallb_str_app. cbn [forallb_str]. rewrite He, Hamp, IH. reflexivity.
Qed.

(** The query [normalize_url] writes for a query without [%]: free of the
    characters the query was free of, and left as it is by a second pass. *)
Lemma strip_tracking_fixed (f : ascii -> bool) (q : str) :
  f " "%char = true -> f "="%char = true -> f "&"%char = true ->
  contains "%" q = false -> forallb_str f q = true ->
  forallb_str f (_strip_tracking_params q) = true /\
  _strip_tracking_params (_strip_tracking_params q) = _strip_tracking_params q.
Proof.
  intros Hsp Heq Hamp Hq Hf. rewrite !strip_tracking_kept.
  pose proof (parse_qsl_good f q Hsp Hq Hf) as Hall.
  unfold kept_query at 1 3 4.
  set (keep := fun kv : str * str => negb (is_tracking_key (fst kv))).
  assert (Hkept : Forall (fun kv => good_pair kv /\ forallb_str f (fst kv) = true
                                    /\ forallb_str f (snd kv) = true)
                         (List.filter keep (parse_qsl q))).
  { apply List.Forall_forall. intros kv Hin. apply List.filter_In in Hin as [Hin _].
    exact (proj1 (List.Forall_forall _ _) Hall kv Hin). }
  split.
  - apply forallb_str_join_enc; try assumption.
    eapply Forall_impl; [exact Hkept|]. intros kv (_ & H1 & H2). auto.
  - unfold kept_query. fold keep.
    change (fun kv : str * str => fst kv ++ "=" ++ snd kv) with enc.
    rewrite parse_qsl_join.
    + f_equal. f_equal. clear. induction (parse_qsl q) as [|x l IH]; [reflexivity|].
      simpl. destruct (keep x) eqn:Hx; simpl; rewrite ?Hx, IH; reflexivity.
    + eapply Forall_impl; [exact Hkept|]. intros kv (H0 & _). exact H0.
Qed.

(** ** The first pass *)

(** Neither [?], [#] nor a byte that [urlsplit] removes. *)
Definition plain_char (c : ascii) : bool :=
  negb (Ascii.eqb "?" c) && negb (Ascii.eqb "#" c) && negb (unsafe_byte c).

Lemma netloc_char_lower (c : ascii) :
  netloc_char c = true -> netloc_char (lower_char c) = true.
Proof.
  destruct c as [[] [] [] [] [] [] [] []]; vm_compute; intros H;
    try discriminate H; auto.
Qed.

Lemma forallb_str_drop (f : ascii -> bool) (k : nat) (s : str) :
  forallb_str f s = true -> forallb_str f (drop k s) = true.
Proof.
  revert s. induction k as [|k IH]; intros [|c s]; simpl; auto.
  intros [_ Hs]%andb_prop. apply IH, Hs.
Qed.

Lemma forallb_str_drop_last (f : ascii -> bool) (s : str) :
  forallb_str f s = true -> forallb_str f (drop_last s) = true.
Proof.
  induction s as [|c s IH]; [auto|]. destruct s as [|d s]; [reflexivity|].
  rewrite drop_last_cons. cbn [forallb_str] in *.
  intros [Hc Hs]%andb_prop. rewrite Hc. apply IH, Hs.
Qed.

Lemma forallb_str_squeeze (f : ascii -> bool) (s : str) :
  forallb_str f s = true -> forallb_str f (squeeze_slashes s) = true.
Proof.
  induction s as [|c s IH]; [auto|]. rewrite squeeze_cons.
  cbn [forallb_str]. intros [Hc Hs]%andb_prop.
  destruct (Ascii.eqb c "/" && head_is_slash s); [apply IH, Hs|].
  cbn [forallb_str]. rewrite Hc. apply IH, Hs.
Qed.

Lemma forallb_str_strip_trailing (f : ascii -> bool) (s : str) :
  forallb_str f s = true -> forallb_str f (strip_trailing_slash s) = true.
Proof.
  intros H. unfold strip_trailing_slash.
  destruct (String.eqb s "/"); [exact H|].
  destruct (endswith s "/"); [apply forallb_str_drop_last, H | exact H].
Qed.

Lemma forallb_str_rpartition (f : ascii -> bool) (d : ascii) (s : str) :
  forallb_str f s = true ->
  forallb_str f (snd (rpartition d s)) = true /\
  forall h, fst (rpartition d s) = Some h -> forallb_str f h = true.
Proof.
  intros Hs. pose proof (rpartition_spec d s) as H.
  destruct (rpartition d s) as [[h|] t]; simpl.
  - destruct H as [-> _]. rewrite forallb_str_app in Hs. simpl in Hs.
    apply andb_prop in Hs as [Hh [_ Ht]%andb_prop].
    split; [exact Ht | intros ? [= <-]; exact Hh].
  - destruct H as [-> _]. split; [exact Hs | discriminate].
Qed.

Lemma forallb_str_splitparams (f : ascii -> bool) (url : str) :
  forallb_str f url = true -> forallb_str f (fst (_splitparams url)) = true.
Proof.
  intros H. unfold _splitparams. destruct (contains "/" url).
  - pose proof (rpartition_spec "/" url) as Hr.
    destruct (rpartition "/" url) as [[head|] tail]; [|exact H].
    destruct Hr as [Hurl _].
    pose proof (partition_spec ";" tail) as Hp.
    destruct (partition ";" tail) as [a [b|]]; [|exact H].
    destruct Hp as [Htail _]. cbn [fst].
    rewrite Hurl, Htail in H. change ("/" ++ a) with (String "/" a).
    rewrite !forallb_str_app in *. cbn [forallb_str] in *.
    rewrite forallb_str_app in H.
    apply andb_prop in H as [Hh [Hs [Ha _]%andb_prop]%andb_prop].
    rewrite Hh, Hs, Ha. reflexivity.
  - destruct (forallb_str_partition f ";" url H) as [Ha _].
    destruct (partition ";" url) as [a [b|]]; [exact Ha|].
    apply forallb_str_drop_last, H.
Qed.

(** The scheme [urlsplit] reads off, and what is left. *)
Lemma take_scheme_spec (f : ascii -> bool) (url : str) :
  forallb_str f url = true ->
  forallb_str f (snd (take_scheme url)) = true /\
  (fst (take_scheme url) = "" \/
   exists c0 pre, fst (take_scheme url) = lower (String c0 pre) /\
                  isascii c0 && isalpha c0 = true /\
                  forallb_str scheme_char (String c0 pre) = true).
Proof.
  intros H. unfold take_scheme.
  destruct (forallb_str_partition f ":" url H) as [_ Hb].
  destruct (partition ":" url) as [[|c0 pre] [rest|]]; cbn [fst snd]; auto.
  destruct (isascii c0 && isalpha c0) eqn:Hc0; cbn [andb fst snd]; auto.
  destruct (forallb_str scheme_char (String c0 pre)) eqn:Hsc; cbn [fst snd]; auto.
  split; [apply Hb; reflexivity|]. right. exists c0, pre. auto.
Qed.

Lemma split_rest_spec (sch url : str) (r : SplitResult) :
  no_unsafe url = true -> split_rest sch url = Some r ->
  split_scheme r = sch /\
  forallb_str netloc_char (split_netloc r) = true /\
  netloc_ok (split_netloc r) = true /\
  no_unsafe (split_netloc r) = true /\
  forallb_str plain_char (split_path r) = true /\
  forallb_str query_char (split_query r) = true.
Proof.
  intros Hurl. unfold split_rest.
  assert (Hrest : forall n rest,
    forallb_str netloc_char n = true -> netloc_ok n = true -> no_unsafe n = true ->
    no_unsafe rest = true ->
    (let '(url0, fragment) :=
       match partition "#" rest with
       | (a, Some b) => (a, b)
       | (a, None) => (a, EmptyString)
       end in
     let '(url1, query) :=
       match partition "?" url0 with
       | (a, Some b) => (a, b)
       | (a, None) => (a, EmptyString)
       end in
     Some (mkSplit sch n url1 query fragment)) = Some r ->
    split_scheme r = sch /\
    forallb_str netloc_char (split_netloc r) = true /\
    netloc_ok (split_netloc r) = true /\
    no_unsafe (split_netloc r) = true /\
    forallb_str plain_char (split_path r) = true /\
    forallb_str query_char (split_query r) = true).
  { intros n rest Hn Hok Hsafe Hr.
    pose proof (partition_spec "#" rest) as Hp.
    destruct (forallb_str_partition _ "#" rest Hr) as [Ha _].
    set (url0 := fst (partition "#" rest)) in *.
    assert (Hh : contains "#" url0 = false).
    { subst url0. destruct (partition "#" rest) as [a [b|]]; cbn [fst];
        destruct Hp as [Hp1 Hp2]; [|rewrite <- Hp1]; exact Hp2. }
    replace (match partition "#" rest with
             | (a, Some b) => (a, b)
             | (a, None) => (a, "")
             end)
      with (url0, match snd (partition "#" rest) with Some b => b | None => "" end)
      by (subst url0; destruct (partition "#" rest) as [a [b|]]; reflexivity).
    clear Hp. generalize (match snd (partition "#" rest) with
                          | Some b => b | None => "" end). intros frag.
    set (g := fun c => negb (Ascii.eqb "#" c) && negb (unsafe_byte c)).
    assert (Hg : forallb_str g url0 = true).
    { unfold g. rewrite forallb_str_and. apply contains_false in Hh.
      rewrite Hh. exact Ha. }
    pose proof (partition_spec "?" url0) as Hp.
    destruct (forallb_str_partition g "?" url0 Hg) as [Hpa Hpb].
    destruct (partition "?" url0) as [a b]. cbn [fst snd] in Hpa, Hpb.
    assert (Hq : contains "?" a = false) by (destruct b; destruct Hp as [Hp1 Hp2];
      [|rewrite <- Hp1]; exact Hp2).
    assert (Hplain : forallb_str plain_char a = true).
    { apply contains_false in Hq.
      assert (Hboth : forallb_str (fun c => negb (Ascii.eqb "?" c) && g c) a = true)
        by (rewrite forallb_str_and, Hq, Hpa; reflexivity).
      eapply forallb_str_impl; [|exact Hboth]. intros c. unfold plain_char, g.
      destruct (Ascii.eqb "?" c), (Ascii.eqb "#" c), (unsafe_byte c); auto. }
    assert (Hquery : forallb_str query_char
                       (match b with Some b0 => b0 | None => "" end) = true).
    { destruct b as [b0|]; [apply Hpb; reflexivity | reflexivity]. }
    destruct b as [b0|]; intros [= <-]; cbn; repeat split; assumption. }
  destruct (startswith url "//").
  - pose proof (splitnetloc_spec (drop 2 url)) as (Happ & Hn & _).
    pose proof (forallb_str_drop _ 2 url Hurl) as Hd.
    rewrite Happ in Hd. unfold no_unsafe in Hrest.
    rewrite forallb_str_app in Hd. apply andb_prop in Hd as [Hd1 Hd2].
    destruct (_splitnetloc (drop 2 url)) as [n rest]. cbn [fst snd] in *.
    destruct (netloc_ok n) eqn:Hok; [|discriminate].
    apply Hrest; assumption.
  - apply Hrest; auto.
Qed.

Lemma urlsplit_spec (url : str) (r : SplitResult) :
  urlsplit url = Some r ->
  (split_scheme r = "" \/
   exists c0 pre, split_scheme r = lower (String c0 pre) /\
                  isascii c0 && isalpha c0 = true /\
                  forallb_str scheme_char (String c0 pre) = true) /\
  forallb_str netloc_char (split_netloc r) = true /\
  netloc_ok (split_netloc r) = true /\
  no_unsafe (split_netloc r) = true /\
  forallb_str plain_char (split_path r) = true /\
  forallb_str query_char (split_query r) = true.
Proof.
  unfold urlsplit.
  pose proof (forallb_str_remove_chars unsafe_byte (lstrip c0_or_space url)) as Hsafe.
  destruct (take_scheme_spec _ _ Hsafe) as [Hrest Hsch].
  destruct (take_scheme (remove_chars unsafe_byte (lstrip c0_or_space url)))
    as [sch rest]. cbn [fst snd] in *.
  intros Hsplit. destruct (split_rest_spec sch rest r Hrest Hsplit) as (-> & H).
  split; assumption.
Qed.

Lemma check_bracketed_lower (n : str) :
  (forall h, bracketed_host_ok h = true -> bracketed_host_ok (lower h) = true) ->
  _check_bracketed_netloc n = true -> _check_bracketed_netloc (lower n) = true.
Proof.
  intros Hlow. unfold _check_bracketed_netloc.
  rewrite rpartition_lower by reflexivity. cbn [snd].
  generalize (snd (rpartition "@" n)). intros hp.
  rewrite partition_lower by reflexivity.
  destruct (partition "[" hp) as [before [bracketed|]]; cbn [fst snd option_map].
  - rewrite lower_eq_empty. destruct (negb (String.eqb before "")); [auto|].
    rewrite partition_lower by reflexivity.
    destruct (partition "]" bracketed) as [h [port|]]; cbn [fst snd option_map].
    + rewrite lower_eq_empty, startswith_lower_char by reflexivity.
      destruct (negb (String.eqb port "") && negb (startswith port ":")); auto.
    + change (negb (String.eqb "" "") && negb (startswith "" ":")) with false.
      cbn iota. apply Hlow.
  - rewrite partition_lower by reflexivity. cbn [fst]. apply Hlow.
Qed.

Lemma netloc_ok_lower (n : str) :
  (forall h, bracketed_host_ok h = true -> bracketed_host_ok (lower h) = true) ->
  netloc_ok n = true -> netloc_ok (lower n) = true.
Proof.
  intros Hlow. unfold netloc_ok. rewrite !contains_lower by reflexivity.
  destruct (contains "[" n), (contains "]" n); cbn; auto.
  apply check_bracketed_lower, Hlow.
Qed.

(** The first pass: the parts [normalize_url] hands to [urlunparse] are
    normal when the parsed path has no [;] and the parsed query no [%]. *)
Lemma normalize_url_parts (url : str) (r : ParseResult) :
  (forall h, bracketed_host_ok h = true -> bracketed_host_ok (lower h) = true) ->
  urlparse url = Some r ->
  contains ";" (path r) = false -> contains "%" (query r) = false ->
  normal_parts (lower (if String.eqb (scheme r) "" then "http" else scheme r))
               (lower (netloc r)) (normalized_path r) (kept_query (query r)).
Proof.
  intros Hlow Hparse Hsemi Hpct. unfold urlparse in Hparse.
  destruct (urlsplit url) as [sr|] eqn:Hsplit; [|discriminate].
  destruct (urlsplit_spec url sr Hsplit) as (Hsch & Hnc & Hnok & Hns & Hpl & Hqc).
  set (pp := if str_in (split_scheme sr) uses_params && contains ";" (split_path sr)
             then _splitparams (split_path sr) else (split_path sr, "")) in Hparse.
  assert (Hpp : forallb_str plain_char (fst pp) = true).
  { subst pp. destruct (str_in (split_scheme sr) uses_params
                        && contains ";" (split_path sr));
      [apply forallb_str_splitparams|]; exact Hpl. }
  destruct pp as [pth prm]. cbn [fst] in Hpp. injection Hparse as <-.
  cbn [scheme netloc path params query fragment] in *.
  assert (Hpc : forallb_str path_char pth = true).
  { apply contains_false in Hsemi.
    assert (Hboth : forallb_str (fun c => plain_char c && negb (Ascii.eqb ";" c)) pth
                    = true) by (rewrite forallb_str_and, Hpp, Hsemi; reflexivity).
    eapply forallb_str_impl; [|exact Hboth]. intros c. unfold path_char, plain_char.
    destruct (Ascii.eqb "?" c), (Ascii.eqb "#" c), (Ascii.eqb ";" c), (unsafe_byte c);
      auto. }
  pose proof (normalized_path_spec
                (mkParse (split_scheme sr) (split_netloc sr) pth prm
                         (split_query sr) (split_fragment sr))) as (Hp1 & Hp2 & Hp3).
  destruct (strip_tracking_fixed query_char (split_query sr)
              eq_refl eq_refl eq_refl Hpct Hqc) as [Hq1 Hq2].
  rewrite !strip_tracking_kept in Hq1. rewrite !strip_tracking_kept in Hq2.
  constructor; try assumption.
  - destruct Hsch as [-> | (c0 & pre & -> & Hc0 & _)].
    + exists "h"%char, "ttp". split; reflexivity.
    + cbn [lower]. rewrite str_eqb_false_cons.
      change (String (lower_char c0) (lower pre)) with (lower (String c0 pre)).
      rewrite lower_idem.
      exists (lower_char c0), (lower pre). split; [reflexivity|].
      apply alpha_facts, Hc0.
  - destruct Hsch as [-> | (c0 & pre & -> & _ & Hsc)]; [reflexivity|].
    cbn [lower]. rewrite str_eqb_false_cons.
    change (String (lower_char c0) (lower pre)) with (lower (String c0 pre)).
    rewrite lower_idem. apply forallb_str_lower; [|exact Hsc].
    intros c Hc. apply scheme_char_facts, Hc.
  - apply lower_idem.
  - apply forallb_str_lower; [apply netloc_char_lower | exact Hnc].
  - apply lower_idem.
  - apply netloc_ok_lower; assumption.
  - unfold no_unsafe in *. apply forallb_str_lower; [|exact Hns].
    intros c Hc. rewrite unsafe_lower_char. exact Hc.
  - unfold normalized_path. cbn [path].
    apply forallb_str_strip_trailing, forallb_str_squeeze.
    destruct (String.eqb pth ""); [reflexivity | exact Hpc].
  - rewrite strip_tracking_kept. exact Hq2.
Qed.

(** C1, amended.  A second pass of [normalize_url] changes nothing when the
    first pass met no path parameter and no percent escape in the query: the
    parsed path has no [;] in it and the parsed query no [%].  The host check
    of [urlsplit] is taken to accept the lower-case form of a host it
    accepts. *)
Theorem normalize_url_idempotent (url v : str) (r : ParseResult) :
  (forall h, bracketed_host_ok h = true -> bracketed_host_ok (lower h) = true) ->
  urlparse url = Some r ->
  contains ";" (path r) = false -> contains "%" (query r) = false ->
  normalize_url url = Some v -> normalize_url v = Some v.
Proof.
  intros Hlow Hparse Hsemi Hpct. rewrite normalize_url_normalized, Hparse.
  cbn [option_map]. intros [= <-]. unfold normalized.
  apply normalize_url_fixed, (normalize_url_parts url); assumption.
Qed.

(** ** What the URL functions do not look at *)

Definition set_fragment (f : str) (r : SplitResult) : SplitResult :=
  mkSplit (split_scheme r) (split_netloc r) (split_path r) (split_query r) f.

Definition set_query (q : str) (r : SplitResult) : SplitResult :=
  mkSplit (split_scheme r) (split_netloc r) (split_path r) q (split_fragment r).

Lemma lstrip_app_stop (p : ascii -> bool) (d : ascii) (u t : str) :
  p d = false -> lstrip p (u ++ String d t) = lstrip p u ++ String d t.
Proof.
  intros Hd. induction u as [|c u IH].
  - rewrite str_app_nil_l. cbn [lstrip]. rewrite Hd. reflexivity.
  - rewrite str_app_cons. cbn [lstrip]. destruct (p c); [exact IH | reflexivity].
Qed.

Lemma remove_chars_app (p : ascii -> bool) (a b : str) :
  remove_chars p (a ++ b) = remove_chars p a ++ remove_chars p b.
Proof.
  induction a as [|c a IH]; [reflexivity|].
  rewrite str_app_cons. cbn [remove_chars]. rewrite IH.
  destruct (p c); reflexivity.
Qed.

Lemma forallb_str_lstrip (f p : ascii -> bool) (s : str) :
  forallb_str f s = true -> forallb_str f (lstrip p s) = true.
Proof.
  induction s as [|c s IH]; [auto|]. cbn [lstrip]. intros H.
  destruct (p c); [|exact H]. apply IH.
  cbn [forallb_str] in H. apply andb_prop in H as [_ H]. exact H.
Qed.

Lemma forallb_str_remove (f p : ascii -> bool) (s : str) :
  forallb_str f s = true -> forallb_str f (remove_chars p s) = true.
Proof.
  induction s as [|c s IH]; [auto|]. cbn [remove_chars forallb_str].
  intros [Hc Hs]%andb_prop. destruct (p c); [apply IH, Hs|].
  cbn [forallb_str]. rewrite Hc. apply IH, Hs.
Qed.

Lemma partition_app_some (d : ascii) (a b x y : str) :
  partition d a = (x, Some y) -> partition d (a ++ b) = (x, Some (y ++ b)).
Proof.
  intros H. pose proof (partition_spec d a) as Hs. rewrite H in Hs.
  destruct Hs as [-> Hx]. rewrite str_app_assoc, str_app_cons.
  apply partition_found, Hx.
Qed.

Lemma partition_app_none (d : ascii) (a b : str) :
  contains d a = false ->
  partition d (a ++ b) = (a ++ fst (partition d b), snd (partition d b)).
Proof.
  induction a as [|c a IH]; cbn [contains].
  - intros _. rewrite !str_app_nil_l. destruct (partition d b); reflexivity.
  - intros [Hc Ha]%orb_false_elim. rewrite !str_app_cons. cbn [partition].
    rewrite Hc, (IH Ha). reflexivity.
Qed.

(** A character that cannot be part of a scheme, and is no colon, put
    behind a URL with more text after it, leaves the scheme as it is. *)
Lemma take_scheme_app (d : ascii) (x t : str) :
  scheme_char d = false -> Ascii.eqb ":" d = false ->
  take_scheme (x ++ String d t) =
  (fst (take_scheme x), snd (take_scheme x) ++ String d t).
Proof.
  intros Hd Hcolon. unfold take_scheme.
  destruct (partition ":" x) as [pre [rest|]] eqn:Hp.
  - rewrite (partition_app_some _ _ _ _ _ Hp).
    destruct pre as [|c0 pre]; [reflexivity|].
    destruct (isascii c0 && isalpha c0 && forallb_str scheme_char (String c0 pre));
      reflexivity.
  - pose proof (partition_spec ":" x) as Hs. rewrite Hp in Hs.
    destruct Hs as [<- Hx]. rewrite (partition_app_none _ _ _ Hx).
    cbn [partition]. rewrite Hcolon.
    destruct (partition ":" t) as [a [b|]]; cbn [fst snd].
    + assert (Hbad : forallb_str scheme_char (x ++ String d a) = false)
        by (rewrite forallb_str_app; cbn [forallb_str]; rewrite Hd;
            apply andb_false_r).
      destruct (x ++ String d a) as [|c0 r]; [destruct x; reflexivity|].
      rewrite Hbad, andb_false_r. destruct x; reflexivity.
    + destruct (x ++ String d a); destruct x; reflexivity.
Qed.

Lemma splitnetloc_app_stop (d : ascii) (z t : str) :
  netloc_char d = false ->
  _splitnetloc (z ++ String d t) =
  (fst (_splitnetloc z), snd (_splitnetloc z) ++ String d t).
Proof.
  intros Hd. unfold netloc_char in Hd. apply negb_false_iff in Hd.
  induction z as [|c z IH].
  - rewrite str_app_nil_l. cbn [_splitnetloc]. rewrite Hd. reflexivity.
  - rewrite str_app_cons. cbn [_splitnetloc].
    destruct (Ascii.eqb c "/" || Ascii.eqb c "?" || Ascii.eqb c "#"); [reflexivity|].
    rewrite IH. destruct (_splitnetloc z). reflexivity.
Qed.

Lemma startswith_dslash_app (d : ascii) (y t : str) :
  Ascii.eqb "/" d = false ->
  startswith (y ++ String d t) "//" = startswith y "//".
Proof.
  intros Hd. destruct y as [|a [|b y]].
  - rewrite str_app_nil_l, startswith_cons, Hd. reflexivity.
  - rewrite str_app_cons, str_app_nil_l, !startswith_cons, Hd.
    change (startswith "" "/") with false. rewrite !andb_false_r. reflexivity.
  - rewrite !str_app_cons, !startswith_cons, !startswith_nil. reflexivity.
Qed.

Lemma drop_dslash_app (y s : str) :
  startswith y "//" = true -> drop 2 (y ++ s) = drop 2 y ++ s.
Proof. destruct y as [|a [|b y]]; cbn; try discriminate; auto. intros H.
  rewrite andb_false_r in H. discriminate. Qed.

Lemma split_rest_fragment (sch y f : str) :
  contains "#" y = false ->
  split_rest sch (y ++ String "#" f) = option_map (set_fragment f) (split_rest sch y).
Proof.
  intros Hy. unfold split_rest. rewrite startswith_dslash_app by reflexivity.
  assert (Hend : forall n rest, contains "#" rest = false ->
    (let '(url, fragment) :=
       match partition "#" (rest ++ String "#" f) with
       | (a, Some b) => (a, b) | (a, None) => (a, EmptyString) end in
     let '(url, query) :=
       match partition "?" url with
       | (a, Some b) => (a, b) | (a, None) => (a, EmptyString) end in
     Some (mkSplit sch n url query fragment)) =
    option_map (set_fragment f)
      (let '(url, fragment) :=
         match partition "#" rest with
         | (a, Some b) => (a, b) | (a, None) => (a, EmptyString) end in
       let '(url, query) :=
         match partition "?" url with
         | (a, Some b) => (a, b) | (a, None) => (a, EmptyString) end in
       Some (mkSplit sch n url query fragment))).
  { intros n rest Hrest.
    rewrite (partition_found _ _ _ Hrest), (partition_none _ _ Hrest).
    destruct (partition "?" rest) as [a [b|]]; reflexivity. }
  destruct (startswith y "//") eqn:Hsw.
  - rewrite (drop_dslash_app _ _ Hsw), splitnetloc_app_stop by reflexivity.
    pose proof (splitnetloc_spec (drop 2 y)) as (Happ & _ & _).
    assert (Hrest : contains "#" (snd (_splitnetloc (drop 2 y))) = false).
    { apply contains_false. apply contains_false in Hy.
      pose proof (forallb_str_drop _ 2 y Hy) as Hd. rewrite Happ in Hd.
      rewrite forallb_str_app in Hd. apply andb_prop in Hd as [_ Hd]. exact Hd. }
    destruct (_splitnetloc (drop 2 y)) as [n rest]. cbn [fst snd] in *.
    destruct (netloc_ok n); [apply Hend, Hrest | reflexivity].
  - apply Hend, Hy.
Qed.

Lemma split_rest_query (sch y q : str) :
  contains "?" y = false -> contains "#" y = false -> contains "#" q = false ->
  split_rest sch (y ++ String "?" q) = option_map (set_query q) (split_rest sch y).
Proof.
  intros Hy1 Hy2 Hq. unfold split_rest. rewrite startswith_dslash_app by reflexivity.
  assert (Hend : forall n rest,
    contains "?" rest = false -> contains "#" rest = false ->
    (let '(url, fragment) :=
       match partition "#" (rest ++ String "?" q) with
       | (a, Some b) => (a, b) | (a, None) => (a, EmptyString) end in
     let '(url, query) :=
       match partition "?" url with
       | (a, Some b) => (a, b) | (a, None) => (a, EmptyString) end in
     Some (mkSplit sch n url query fragment)) =
    option_map (set_query q)
      (let '(url, fragment) :=
         match partition "#" rest with
         | (a, Some b) => (a, b) | (a, None) => (a, EmptyString) end in
       let '(url, query) :=
         match partition "?" url with
         | (a, Some b) => (a, b) | (a, None) => (a, EmptyString) end in
       Some (mkSplit sch n url query fragment))).
  { intros n rest Hr1 Hr2.
    assert (Hall : contains "#" (rest ++ String "?" q) = false)
      by (rewrite contains_app, Hr2; cbn [contains]; rewrite Hq; reflexivity).
    rewrite (partition_none _ _ Hall), (partition_none _ _ Hr2).
    rewrite (partition_found _ _ _ Hr1), (partition_none _ _ Hr1). reflexivity. }
  destruct (startswith y "//") eqn:Hsw.
  - rewrite (drop_dslash_app _ _ Hsw), splitnetloc_app_stop by reflexivity.
    pose proof (splitnetloc_spec (drop 2 y)) as (Happ & _ & _).
    assert (Hrest : contains "?" (snd (_splitnetloc (drop 2 y))) = false /\
                    contains "#" (snd (_splitnetloc (drop 2 y))) = false).
    { split; apply contains_false;
        [apply contains_false in Hy1; pose proof (forallb_str_drop _ 2 y Hy1) as Hd
        |apply contains_false in Hy2; pose proof (forallb_str_drop _ 2 y Hy2) as Hd];
        rewrite Happ in Hd; rewrite forallb_str_app in Hd;
        apply andb_prop in Hd as [_ Hd]; exact Hd. }
    destruct (_splitnetloc (drop 2 y)) as [n rest]. cbn [fst snd] in *.
    destruct (netloc_ok n); [apply Hend; tauto | reflexivity].
  - apply Hend; assumption.
Qed.

(** What is left of a URL for [split_rest] has no character that the URL
    has not. *)
Lemma urlsplit_rest_chars (f : ascii -> bool) (u : str) :
  forallb_str f u = true ->
  forallb_str f
    (snd (take_scheme (remove_chars unsafe_byte (lstrip c0_or_space u)))) = true.
Proof.
  intros H. apply take_scheme_spec, forallb_str_remove, forallb_str_lstrip, H.
Qed.

Lemma urlsplit_fragment (u f : str) :
  contains "#" u = false ->
  urlsplit (u ++ String "#" f) =
  option_map (set_fragment (remove_chars unsafe_byte f)) (urlsplit u).
Proof.
  intros Hu. unfold urlsplit.
  rewrite lstrip_app_stop, remove_chars_app by reflexivity.
  change (remove_chars unsafe_byte (String "#" f))
    with (String "#" (remove_chars unsafe_byte f)).
  rewrite take_scheme_app by reflexivity.
  apply contains_false in Hu.
  pose proof (urlsplit_rest_chars _ u Hu) as Hy. apply contains_false in Hy.
  destruct (take_scheme (remove_chars unsafe_byte (lstrip c0_or_space u)))
    as [sch y]. cbn [fst snd] in *.
  apply split_rest_fragment, Hy.
Qed.

Lemma urlsplit_query (u q : str) :
  contains "?" u = false -> contains "#" u = false -> contains "#" q = false ->
  urlsplit (u ++ String "?" q) =
  option_map (set_query (remove_chars unsafe_byte q)) (urlsplit u).
Proof.
  intros Hu1 Hu2 Hq. unfold urlsplit.
  rewrite lstrip_app_stop, remove_chars_app by reflexivity.
  change (remove_chars unsafe_byte (String "?" q))
    with (String "?" (remove_chars unsafe_byte q)).
  rewrite take_scheme_app by reflexivity.
  apply contains_false in Hu1, Hu2.
  pose proof (urlsplit_rest_chars _ u Hu1) as Hy1.
  pose proof (urlsplit_rest_chars _ u Hu2) as Hy2.
  apply contains_false in Hy1, Hy2.
  destruct (take_scheme (remove_chars unsafe_byte (lstrip c0_or_space u)))
    as [sch y]. cbn [fst snd] in *.
  apply split_rest_query; try assumption.
  apply contains_false, forallb_str_remove, contains_false, Hq.
Qed.

Definition with_fragment (f : str) (r : ParseResult) : ParseResult :=
  mkParse (scheme r) (netloc r) (path r) (params r) (query r) f.

Definition with_query (q : str) (r : ParseResult) : ParseResult :=
  mkParse (scheme r) (netloc r) (path r) (params r) q (fragment r).

Lemma urlparse_fragment (u f : str) :
  contains "#" u = false ->
  urlparse (u ++ String "#" f) =
  option_map (with_fragment (remove_chars unsafe_byte f)) (urlparse u).
Proof.
  intros Hu. unfold urlparse. rewrite (urlsplit_fragment u f Hu).
  destruct (urlsplit u) as [r|]; [|reflexivity]. cbn [option_map set_fragment
    split_scheme split_netloc split_path split_query split_fragment].
  destruct (if str_in (split_scheme r) uses_params && contains ";" (split_path r)
            then _splitparams (split_path r) else (split_path r, "")); reflexivity.
Qed.

Lemma urlparse_query (u q : str) :
  contains "?" u = false -> contains "#" u = false -> contains "#" q = false ->
  urlparse (u ++ String "?" q) =
  option_map (with_query (remove_chars unsafe_byte q)) (urlparse u) /\
  forall r, urlparse u = Some r -> query r = "".
Proof.
  intros Hu1 Hu2 Hq. unfold urlparse. rewrite (urlsplit_query u q Hu1 Hu2 Hq).
  assert (Hempty : forall r, urlsplit u = Some r -> split_query r = "").
  { intros r Hr. unfold urlsplit in Hr.
    pose proof (proj1 (contains_false _ _) Hu1) as Hu1'.
    pose proof (urlsplit_rest_chars _ u Hu1') as Hy1. apply contains_false in Hy1.
    destruct (take_scheme (remove_chars unsafe_byte (lstrip c0_or_space u)))
      as [sch y]. cbn [fst snd] in *.
    unfold split_rest in Hr.
    assert (Hpart : forall rest, contains "?" rest = false ->
              fst (partition "?" (fst (partition "#" rest))) = fst (partition "#" rest)
              /\ snd (partition "?" (fst (partition "#" rest))) = None).
    { intros rest Hrest. apply contains_false in Hrest.
      destruct (forallb_str_partition _ "#" rest Hrest) as [Ha _].
      apply contains_false in Ha. rewrite (partition_none _ _ Ha). auto. }
    assert (Hend : forall n rest, contains "?" rest = false ->
      (let '(url, fragment) :=
         match partition "#" rest with
         | (a, Some b) => (a, b) | (a, None) => (a, EmptyString) end in
       let '(url, query) :=
         match partition "?" url with
         | (a, Some b) => (a, b) | (a, None) => (a, EmptyString) end in
       Some (mkSplit sch n url query fragment)) = Some r -> split_query r = "").
    { intros n rest Hrest. destruct (Hpart rest Hrest) as [H1 H2].
      destruct (partition "#" rest) as [a [b|]]; cbn [fst] in H1, H2;
        destruct (partition "?" a) as [a' [b'|]]; cbn [snd] in H2;
        try discriminate H2; intros [= <-]; reflexivity. }
    destruct (startswith y "//").
    - pose proof (splitnetloc_spec (drop 2 y)) as (Happ & _ & _).
      assert (Hrest : contains "?" (snd (_splitnetloc (drop 2 y))) = false).
      { apply contains_false. apply contains_false in Hy1.
        pose proof (forallb_str_drop _ 2 y Hy1) as Hd. rewrite Happ in Hd.
        rewrite forallb_str_app in Hd. apply andb_prop in Hd as [_ Hd]. exact Hd. }
      destruct (_splitnetloc (drop 2 y)) as [n rest]. cbn [fst snd] in *.
      destruct (netloc_ok n); [|discriminate]. revert Hr. apply Hend, Hrest.
    - revert Hr. apply Hend, Hy1. }
  destruct (urlsplit u) as [r|]; [|split; [reflexivity | discriminate]].
  cbn [option_map set_query split_scheme split_netloc split_path split_query
       split_fragment].
  destruct (if str_in (split_scheme r) uses_params && contains ";" (split_path r)
            then _splitparams (split_path r) else (split_path r, "")) as [a b].
  split; [reflexivity|]. intros r' [= <-]. cbn [query]. apply Hempty. reflexivity.
Qed.

(** None of the three functions looks at the fragment: a fragment added to
    a URL that has none changes neither its normal form nor the answer of
    either filter. *)
Theorem fragment_ignored (u f base : str) :
  contains "#" u = false ->
  normalize_url (u ++ "#" ++ f) = normalize_url u /\
  is_internal_url (u ++ "#" ++ f) base = is_internal_url u base /\
  is_probably_html_url (u ++ "#" ++ f) = is_probably_html_url u.
Proof.
  intros Hu. change ("#" ++ f) with (String "#" f).
  unfold normalize_url, is_internal_url, is_probably_html_url.
  rewrite (urlparse_fragment u f Hu).
  destruct (urlparse u) as [r|]; cbn [option_map];
    [|repeat split; destruct (urlparse base); reflexivity].
  repeat split.
Qed.

(** The filters look at no query either, and [normalize_url] at no
    tracking parameter: a query of tracking parameters only, added to a URL
    that has neither query nor fragment, does not change its normal form
    (the [/about?ref=123] of the module's comment). *)
Theorem tracking_query_ignored (u q base : str) :
  contains "?" u = false -> contains "#" u = false -> contains "#" q = false ->
  is_internal_url (u ++ "?" ++ q) base = is_internal_url u base /\
  is_probably_html_url (u ++ "?" ++ q) = is_probably_html_url u /\
  (forallb (fun kv => is_tracking_key (fst kv))
           (parse_qsl (remove_chars unsafe_byte q)) = true ->
   normalize_url (u ++ "?" ++ q) = normalize_url u).
Proof.
  intros Hu1 Hu2 Hq. change ("?" ++ q) with (String "?" q).
  destruct (urlparse_query u q Hu1 Hu2 Hq) as [Hparse Hempty].
  unfold normalize_url, is_internal_url, is_probably_html_url. rewrite Hparse.
  destruct (urlparse u) as [r|]; cbn [option_map];
    [|repeat split; destruct (urlparse base); reflexivity].
  split; [reflexivity|]. split; [reflexivity|]. intros Htrack.
  cbn [with_query scheme netloc path params query fragment].
  rewrite (Hempty r eq_refl).
  replace (_strip_tracking_params (remove_chars unsafe_byte q)) with "";
    [reflexivity|].
  rewrite strip_tracking_kept. unfold kept_query.
  replace (List.filter (fun kv : str * str => negb (is_tracking_key (fst kv)))
             (parse_qsl (remove_chars unsafe_byte q))) with (@nil (str * str));
    [reflexivity|].
  induction (parse_qsl (remove_chars unsafe_byte q)) as [|kv l IH]; [reflexivity|].
  cbn [forallb] in Htrack. apply andb_prop in Htrack as [Hkv Hl].
  cbn [List.filter]. rewrite Hkv. cbn [negb]. apply IH, Hl.
Qed.

(** *** A trailing slash *)

Lemma endswith_snoc (s : str) : endswith (s ++ "/") "/" = true.
Proof.
  induction s as [|c s IH]; [reflexivity|].
  rewrite str_app_cons, endswith_cons; [exact IH | destruct s; discriminate].
Qed.

Lemma drop_last_snoc (s : str) : drop_last (s ++ "/") = s.
Proof.
  induction s as [|c s IH]; [reflexivity|].
  rewrite str_app_cons. destruct s as [|d s]; [reflexivity|].
  rewrite str_app_cons, drop_last_cons, <- str_app_cons, IH. reflexivity.
Qed.

Lemma squeeze_snoc (p : str) :
  squeeze_slashes (p ++ "/") =
  if endswith p "/" then squeeze_slashes p else squeeze_slashes p ++ "/".
Proof.
  induction p as [|c r IH]; [reflexivity|].
  rewrite str_app_cons, !squeeze_cons.
  destruct r as [|d r'].
  - rewrite str_app_nil_l. cbn [head_is_slash squeeze_slashes].
    rewrite Ascii.eqb_refl, andb_true_r, andb_false_r.
    change (endswith (String c "") "/")
      with ((Ascii.eqb c "/" && true) || false).
    rewrite andb_true_r, orb_false_r.
    destruct (Ascii.eqb_spec c "/") as [->|_]; reflexivity.
  - rewrite endswith_cons by discriminate. rewrite IH.
    rewrite str_app_cons. cbn [head_is_slash].
    destruct (Ascii.eqb c "/" && Ascii.eqb d "/"), (endswith (String d r') "/");
      reflexivity.
Qed.

Lemma endswith_squeeze (p : str) :
  endswith (squeeze_slashes p) "/" = endswith p "/".
Proof.
  induction p as [|c r IH]; [reflexivity|].
  destruct r as [|d r']; [cbn; rewrite andb_false_r; reflexivity|].
  rewrite squeeze_cons, (endswith_cons c (String d r')) by discriminate.
  destruct (Ascii.eqb c "/" && head_is_slash (String d r')); [exact IH|].
  rewrite endswith_cons; [exact IH | apply squeeze_nonempty; discriminate].
Qed.

Lemma strip_trailing_snoc (s : str) :
  s <> "" -> endswith s "/" = false ->
  strip_trailing_slash (s ++ "/") = strip_trailing_slash s.
Proof.
  intros Hs He. unfold strip_trailing_slash.
  rewrite endswith_snoc, drop_last_snoc, He.
  destruct s as [|c s]; [contradiction|].
  assert (H1 : String.eqb (String c s ++ "/") "/" = false).
  { rewrite str_app_cons. cbn [String.eqb].
    destruct (Ascii.eqb c "/"); [|reflexivity]. destruct s; reflexivity. }
  rewrite H1. destruct (String.eqb (String c s) "/"); reflexivity.
Qed.

(** A slash behind a path does not change what [normalize_url] makes of
    the path. *)
Lemma normal_path_snoc (p : str) :
  strip_trailing_slash (squeeze_slashes (p ++ "/")) =
  strip_trailing_slash (squeeze_slashes (if String.eqb p "" then "/" else p)).
Proof.
  destruct (String.eqb_spec p "") as [->|Hp]; [reflexivity|].
  rewrite squeeze_snoc. destruct (endswith p "/") eqn:He; [reflexivity|].
  apply strip_trailing_snoc; [apply squeeze_nonempty, Hp|].
  rewrite endswith_squeeze. exact He.
Qed.

(** What a slash behind the text makes of the split: it goes to the end of
    the path, but for the text [/], where the two slashes announce an empty
    netloc. *)
Definition slash_added (r r' : SplitResult) : Prop :=
  split_scheme r' = split_scheme r /\ split_netloc r' = split_netloc r /\
  split_query r = "" /\ split_query r' = "" /\
  (split_path r' = split_path r ++ "/" \/ (split_path r = "/" /\ split_path r' = "")).

Lemma split_rest_path_chars (f : ascii -> bool) (sch y : str) (r : SplitResult) :
  forallb_str f y = true -> split_rest sch y = Some r ->
  forallb_str f (split_path r) = true.
Proof.
  intros Hy. unfold split_rest.
  assert (Hend : forall n rest, forallb_str f rest = true ->
    (let '(url, fragment) :=
       match partition "#" rest with
       | (a, Some b) => (a, b) | (a, None) => (a, EmptyString) end in
     let '(url, query) :=
       match partition "?" url with
       | (a, Some b) => (a, b) | (a, None) => (a, EmptyString) end in
     Some (mkSplit sch n url query fragment)) = Some r ->
    forallb_str f (split_path r) = true).
  { intros n rest Hrest.
    destruct (forallb_str_partition f "#" rest Hrest) as [Ha _].
    destruct (partition "#" rest) as [a b]. cbn [fst] in Ha.
    destruct (forallb_str_partition f "?" a Ha) as [Ha' _].
    destruct b as [b|]; destruct (partition "?" a) as [a' [b'|]];
      intros [= <-]; exact Ha'. }
  destruct (startswith y "//").
  - pose proof (splitnetloc_spec (drop 2 y)) as (Happ & _ & _).
    pose proof (forallb_str_drop _ 2 y Hy) as Hd. rewrite Happ in Hd.
    rewrite forallb_str_app in Hd. apply andb_prop in Hd as [_ Hd].
    destruct (_splitnetloc (drop 2 y)) as [n rest]. cbn [fst snd] in *.
    destruct (netloc_ok n); [apply Hend, Hd | discriminate].
  - apply Hend, Hy.
Qed.

Lemma split_rest_slash (sch y : str) :
  contains "?" y = false -> contains "#" y = false ->
  match split_rest sch y, split_rest sch (y ++ "/") with
  | Some r, Some r' => slash_added r r'
  | None, None => True
  | _, _ => False
  end.
Proof.
  intros Hy1 Hy2.
  destruct (String.eqb_spec y "/") as [->|Hne].
  { change ("/" ++ "/") with "//".
    change (split_rest sch "/") with (Some (mkSplit sch "" "/" "" "")).
    change (split_rest sch "//") with (Some (mkSplit sch "" "" "" "")).
    unfold slash_added. cbn. auto 10. }
  unfold split_rest.
  assert (Hsw : startswith (y ++ "/") "//" = startswith y "//").
  { destruct y as [|a [|b y]].
    - reflexivity.
    - rewrite str_app_cons, str_app_nil_l, !startswith_cons, startswith_nil.
      change (startswith "" "/") with false.
      destruct (Ascii.eqb_spec "/" a) as [<-|_]; [contradiction | reflexivity].
    - rewrite !str_app_cons, !startswith_cons, !startswith_nil. reflexivity. }
  rewrite Hsw.
  assert (Hend : forall n rest,
    contains "?" rest = false -> contains "#" rest = false ->
    match
      (let '(url, fragment) :=
         match partition "#" rest with
         | (a, Some b) => (a, b) | (a, None) => (a, EmptyString) end in
       let '(url, query) :=
         match partition "?" url with
         | (a, Some b) => (a, b) | (a, None) => (a, EmptyString) end in
       Some (mkSplit sch n url query fragment)),
      (let '(url, fragment) :=
         match partition "#" (rest ++ "/") with
         | (a, Some b) => (a, b) | (a, None) => (a, EmptyString) end in
       let '(url, query) :=
         match partition "?" url with
         | (a, Some b) => (a, b) | (a, None) => (a, EmptyString) end in
       Some (mkSplit sch n url query fragment))
    with
    | Some r, Some r' => slash_added r r'
    | None, None => True
    | _, _ => False
    end).
  { intros n rest Hr1 Hr2.
    assert (H1 : contains "?" (rest ++ "/") = false)
      by (rewrite contains_app, Hr1; reflexivity).
    assert (H2 : contains "#" (rest ++ "/") = false)
      by (rewrite contains_app, Hr2; reflexivity).
    rewrite (partition_none _ _ Hr2), (partition_none _ _ Hr1),
            (partition_none _ _ H2), (partition_none _ _ H1).
    unfold slash_added. cbn. auto 10. }
  destruct (startswith y "//") eqn:Hsy.
  - change (y ++ "/") with (y ++ String "/" "").
    rewrite (drop_dslash_app _ _ Hsy), splitnetloc_app_stop by reflexivity.
    pose proof (splitnetloc_spec (drop 2 y)) as (Happ & _ & _).
    assert (Hrest : contains "?" (snd (_splitnetloc (drop 2 y))) = false /\
                    contains "#" (snd (_splitnetloc (drop 2 y))) = false).
    { split; apply contains_false;
        [apply contains_false in Hy1; pose proof (forallb_str_drop _ 2 y Hy1) as Hd
        |apply contains_false in Hy2; pose proof (forallb_str_drop _ 2 y Hy2) as Hd];
        rewrite Happ in Hd; rewrite forallb_str_app in Hd;
        apply andb_prop in Hd as [_ Hd]; exact Hd. }
    destruct (_splitnetloc (drop 2 y)) as [n rest]. cbn [fst snd] in *.
    destruct (netloc_ok n); [apply Hend; tauto | exact I].
  - apply Hend; assumption.
Qed.

(** A slash added behind a URL that has no query, no fragment and no [;]
    does not change its normal form (the [/about] and [/about/] of the
    module's comment). *)
Theorem trailing_slash_ignored (u : str) :
  contains "?" u = false -> contains "#" u = false -> contains ";" u = false ->
  normalize_url (u ++ "/") = normalize_url u.
Proof.
  intros Hu1 Hu2 Hu3. rewrite !normalize_url_normalized. unfold urlparse, urlsplit.
  change (u ++ "/") with (u ++ String "/" "").
  rewrite lstrip_app_stop, remove_chars_app by reflexivity.
  change (remove_chars unsafe_byte "/") with "/".
  rewrite take_scheme_app by reflexivity.
  apply contains_false in Hu1, Hu2, Hu3.
  pose proof (urlsplit_rest_chars _ u Hu1) as Hy1.
  pose proof (urlsplit_rest_chars _ u Hu2) as Hy2.
  pose proof (urlsplit_rest_chars _ u Hu3) as Hy3.
  apply contains_false in Hy1, Hy2.
  destruct (take_scheme (remove_chars unsafe_byte (lstrip c0_or_space u)))
    as [sch y]. cbn [fst snd] in *.
  pose proof (split_rest_slash sch y Hy1 Hy2) as Hrel.
  pose proof (fun r => split_rest_path_chars _ sch y r Hy3) as Hchars.
  destruct (split_rest sch y) as [r|], (split_rest sch (y ++ "/")) as [r'|];
    try contradiction; [|reflexivity].
  specialize (Hchars r eq_refl). apply contains_false in Hchars.
  destruct Hrel as (Hs & Hn & Hq & Hq' & Hp).
  assert (Hsemi' : contains ";" (split_path r') = false).
  { destruct Hp as [-> | [_ ->]]; [|reflexivity].
    rewrite contains_app, Hchars. reflexivity. }
  rewrite Hchars, Hsemi', !andb_false_r. cbn [option_map]. f_equal.
  unfold normalized, normalized_path.
  cbn [scheme netloc path params query fragment].
  rewrite Hs, Hn, Hq, Hq'. f_equal.
  destruct Hp as [-> | [-> ->]]; [|reflexivity].
  assert (Hne : String.eqb (split_path r ++ "/") "" = false)
    by (destruct (split_path r); reflexivity).
  rewrite Hne. apply normal_path_snoc.
Qed.

(** *** What is left of the query and of the fragment *)

(** For a query without [%], stripping and parsing commute: the parameters
    of the stripped query are the parameters of the query that are no
    tracking parameters, in their order. *)
Theorem strip_tracking_params_parsed (q : str) :
  contains "%" q = false ->
  parse_qsl (_strip_tracking_params q) =
  List.filter (fun kv => negb (is_tracking_key (fst kv))) (parse_qsl q).
Proof.
  intros Hq. rewrite strip_tracking_kept. unfold kept_query.
  change (fun kv : str * str => fst kv ++ "=" ++ snd kv) with enc.
  apply parse_qsl_join.
  assert (Htrue : forallb_str (fun _ => true) q = true)
    by (clear Hq; induction q as [|c q IH]; [reflexivity | exact IH]).
  pose proof (parse_qsl_good (fun _ => true) q eq_refl Hq Htrue) as Hall.
  apply List.Forall_forall. intros kv Hin. apply List.filter_In in Hin as [Hin _].
  exact (proj1 (proj1 (List.Forall_forall _ _) Hall kv Hin)).
Qed.

Lemma scheme_char_no_hash (c : ascii) :
  scheme_char c = true -> negb (Ascii.eqb "#" c) = true.
Proof.
  destruct c as [[] [] [] [] [] [] [] []]; vm_compute; intros H;
    try discriminate H; auto.
Qed.

(** The fragment is gone in the string, too, when the query has no [%]:
    the result has no [#] in it. *)
Theorem normalize_url_no_hash (u v : str) (r : ParseResult) :
  urlparse u = Some r -> contains "%" (query r) = false ->
  normalize_url u = Some v -> contains "#" v = false.
Proof.
  intros Hparse Hpct. rewrite normalize_url_normalized, Hparse.
  cbn [option_map]. intros [= <-]. unfold normalized.
  destruct (normalized_path_spec r) as (Hp1 & Hp2 & _).
  unfold urlparse in Hparse.
  destruct (urlsplit u) as [sr|] eqn:Hsplit; [|discriminate].
  destruct (urlsplit_spec u sr Hsplit) as (Hsch & Hnc & _ & _ & Hpl & Hqc).
  set (pp := if str_in (split_scheme sr) uses_params && contains ";" (split_path sr)
             then _splitparams (split_path sr) else (split_path sr, "")) in Hparse.
  assert (Hpp : forallb_str plain_char (fst pp) = true).
  { subst pp. destruct (str_in (split_scheme sr) uses_params
                        && contains ";" (split_path sr));
      [apply forallb_str_splitparams|]; exact Hpl. }
  destruct pp as [pth prm]. cbn [fst] in Hpp. injection Hparse as <-.
  cbn [scheme netloc path params query fragment] in *.
  set (nohash := fun c => negb (Ascii.eqb "#" c)).
  assert (Hs : forallb_str nohash
                 (lower (if String.eqb (split_scheme sr) "" then "http"
                         else split_scheme sr)) = true).
  { destruct Hsch as [-> | (c0 & pre & -> & _ & Hsc)]; [reflexivity|].
    cbn [lower]. rewrite str_eqb_false_cons.
    change (String (lower_char c0) (lower pre)) with (lower (String c0 pre)).
    rewrite lower_idem. apply forallb_str_impl with (f := scheme_char);
      [exact scheme_char_no_hash|].
    apply forallb_str_lower; [|exact Hsc]. intros c Hc. apply scheme_char_facts, Hc. }
  assert (Hn : forallb_str nohash (lower (split_netloc sr)) = true).
  { apply forallb_str_impl with (f := netloc_char).
    - intros c. unfold netloc_char, nohash. rewrite (Ascii.eqb_sym "#" c).
      destruct (Ascii.eqb c "/"), (Ascii.eqb c "?"), (Ascii.eqb c "#"); auto.
    - apply forallb_str_lower; [apply netloc_char_lower | exact Hnc]. }
  assert (Hp : forallb_str nohash
                 (normalized_path (mkParse (split_scheme sr) (split_netloc sr) pth prm
                                           (split_query sr) (split_fragment sr))) = true).
  { unfold normalized_path. cbn [path].
    apply forallb_str_strip_trailing, forallb_str_squeeze.
    apply forallb_str_impl with (f := plain_char).
    - intros c. unfold plain_char, nohash.
      destruct (Ascii.eqb "?" c), (Ascii.eqb "#" c); auto.
    - destruct (String.eqb pth ""); [reflexivity | exact Hpp]. }
  assert (Hq : forallb_str nohash (kept_query (split_query sr)) = true).
  { destruct (strip_tracking_fixed query_char (split_query sr)
                eq_refl eq_refl eq_refl Hpct Hqc) as [Hq1 _].
    rewrite strip_tracking_kept in Hq1.
    eapply forallb_str_impl; [|exact Hq1]. intros c. unfold query_char, nohash.
    destruct (Ascii.eqb "#" c); auto. }
  rewrite urlunparse_shape; [| | exact Hp1 | exact Hp2].
  2: { destruct Hsch as [-> | (c0 & pre & -> & _)]; discriminate. }
  apply contains_false. fold nohash.
  rewrite forallb_str_app, Hs. cbn [andb].
  rewrite !str_app_cons, !str_app_nil_l. cbn [forallb_str].
  change (nohash ":"%char) with true. cbn [andb].
  rewrite forallb_str_app. apply andb_true_intro. split.
  - destruct (negb (String.eqb (lower (split_netloc sr)) "") || _); [|exact Hp].
    cbn [forallb_str]. change (nohash "/"%char) with true. cbn [andb].
    rewrite forallb_str_app, Hn. cbn [andb]. unfold rooted.
    destruct (startswith _ "/"); [exact Hp|].
    rewrite str_app_cons, str_app_nil_l. cbn [forallb_str].
    change (nohash "/"%char) with true. exact Hp.
  - unfold query_part. destruct (negb (String.eqb (kept_query (split_query sr)) ""));
      [|reflexivity].
    rewrite str_app_cons, str_app_nil_l. cbn [forallb_str].
    change (nohash "?"%char) with true. exact Hq.
Qed.

(** ** The same-domain test *)

Lemma rpartition_none (d : ascii) (s : str) :
  contains d s = false -> rpartition d s = (None, s).
Proof.
  induction s as [|c s IH]; simpl; [reflexivity|].
  intros [Hc Hs]%orb_false_elim. rewrite (IH Hs), Hc. reflexivity.
Qed.

(** The host of a netloc that is a host name and nothing else is that
    netloc, in lower case. *)
Lemma host_host_only (n : str) : host_only n = true -> host n = lower n.
Proof.
  unfold host_only. intros H.
  apply andb_prop in H as [H Hpc]. apply andb_prop in H as [H Hbr].
  apply andb_prop in H as [Hat Hcol].
  apply negb_true_iff in Hat, Hcol, Hbr, Hpc.
  unfold host, hostname, _hostinfo.
  rewrite (rpartition_none _ _ Hat). cbn [snd].
  rewrite (partition_none _ _ Hbr), (partition_none _ _ Hcol). cbn [fst].
  rewrite (partition_none _ _ Hpc).
  destruct n; reflexivity.
Qed.

(** What [is_internal_url] compares.  For ASCII URLs it raises exactly
    when [urlparse] raises on one of them, and is true exactly when the
    scheme of [url] is [http] or [https] and the two netlocs (which the
    code calls [url_host] and [base_host]: userinfo, host and port as they
    are written), lower-cased and without one leading ["www."], are
    equal.  For netlocs that are a host name and nothing else this is the
    equality of the two hosts, compared without regard to case and to a
    leading ["www."]. *)
Theorem is_internal_url_netloc (url base_url : str) :
  forallb_str isascii url = true -> forallb_str isascii base_url = true ->
  (is_internal_url url base_url = None <->
   urlparse url = None \/ urlparse base_url = None) /\
  (is_internal_url url base_url = Some true <->
   exists parsed_url parsed_base,
     urlparse url = Some parsed_url /\
     urlparse base_url = Some parsed_base /\
     strip_www (lower (netloc parsed_url)) = strip_www (lower (netloc parsed_base)) /\
     (scheme parsed_url = "http" \/ scheme parsed_url = "https")) /\
  (forall parsed_url parsed_base,
     urlparse url = Some parsed_url -> urlparse base_url = Some parsed_base ->
     host_only (netloc parsed_url) = true ->
     host_only (netloc parsed_base) = true ->
     (is_internal_url url base_url = Some true <->
      strip_www (host (netloc parsed_url)) = strip_www (host (netloc parsed_base)) /\
      (scheme parsed_url = "http" \/ scheme parsed_url = "https"))) /\
  is_internal_url "https://www.example.com/x" "https://example.com" = Some true /\
  is_internal_url "https://other.com/x" "https://example.com" = Some false /\
  is_internal_url "HTTPS://WWW.Example.COM/x" "https://example.com" = Some true.
Proof.
  intros _ _.
  assert (Hiff : is_internal_url url base_url = Some true <->
   exists parsed_url parsed_base,
     urlparse url = Some parsed_url /\
     urlparse base_url = Some parsed_base /\
     strip_www (lower (netloc parsed_url)) = strip_www (lower (netloc parsed_base)) /\
     (scheme parsed_url = "http" \/ scheme parsed_url = "https")).
  { unfold is_internal_url. split.
    - destruct (urlparse base_url) as [pb|]; [|discriminate].
      destruct (urlparse url) as [pu|]; [|discriminate].
      intros [= H]. apply andb_prop in H as [Hh Hs].
      exists pu, pb. repeat split; auto.
      + apply String.eqb_eq. exact Hh.
      + unfold str_in in Hs. simpl in Hs.
        apply orb_prop in Hs as [Hs|Hs]; [left; apply String.eqb_eq; exact Hs|].
        apply orb_prop in Hs as [Hs|Hs]; [right; apply String.eqb_eq; exact Hs | discriminate].
    - intros (pu & pb & -> & -> & Hh & Hs).
      rewrite Hh, String.eqb_refl. simpl. f_equal.
      destruct Hs as [-> | ->]; reflexivity. }
  split; [|split; [exact Hiff|split; [|repeat split; reflexivity]]].
  - unfold is_internal_url.
    destruct (urlparse base_url) as [pb|], (urlparse url) as [pu|];
      split; try discriminate; auto; intros [H|H]; discriminate H.
  - intros pu pb Hu Hb Hpu Hpb. rewrite Hiff.
    rewrite (host_host_only _ Hpu), (host_host_only _ Hpb).
    split.
    + intros (pu' & pb' & Hu' & Hb' & Hh & Hs).
      rewrite Hu in Hu'. rewrite Hb in Hb'.
      injection Hu' as <-. injection Hb' as <-. split; assumption.
    + intros [Hh Hs]. exists pu, pb. repeat split; assumption.
Qed.

(** Being internal is being of one site: among URLs of scheme [http] or
    [https] the test is reflexive, symmetric and transitive, so the pages
    that are internal do not depend on which page of the site is the
    base. *)
Theorem is_internal_url_same_site (a b c : str) :
  (forall r, urlparse a = Some r ->
     is_internal_url a a = Some (str_in (scheme r) ["http"; "https"])) /\
  (is_internal_url a b = Some true -> is_internal_url b a = Some true ->
   is_internal_url a c = is_internal_url b c) /\
  (is_internal_url a b = Some true -> is_internal_url b c = Some true ->
   is_internal_url a c = Some true) /\
  (is_internal_url a b = Some true -> is_internal_url c b = Some true ->
   is_internal_url a c = Some true).
Proof.
  unfold is_internal_url, str_in. cbn [existsb]. repeat split.
  - intros r ->. rewrite String.eqb_refl. reflexivity.
  - destruct (urlparse a) as [ra|], (urlparse b) as [rb|]; try discriminate.
    intros [= [Hh Hs]%andb_prop] [= [_ Hs']%andb_prop].
    apply String.eqb_eq in Hh. destruct (urlparse c) as [rc|]; [|reflexivity].
    rewrite Hh, Hs, Hs'. reflexivity.
  - destruct (urlparse a) as [ra|], (urlparse b) as [rb|]; try discriminate.
    intros [= [Hh Hs]%andb_prop]. apply String.eqb_eq in Hh.
    destruct (urlparse c) as [rc|]; [|discriminate].
    intros [= [Hh' _]%andb_prop]. apply String.eqb_eq in Hh'.
    rewrite Hh, Hh', String.eqb_refl, Hs. reflexivity.
  - destruct (urlparse b) as [rb|]; [|discriminate].
    destruct (urlparse a) as [ra|]; [|discriminate].
    intros [= [Hh Hs]%andb_prop]. apply String.eqb_eq in Hh.
    destruct (urlparse c) as [rc|]; [|discriminate].
    intros [= [Hh' _]%andb_prop]. apply String.eqb_eq in Hh'.
    rewrite Hh, Hh', String.eqb_refl, Hs. reflexivity.
Qed.

(** ** Concurrent callers of [add_url_async] *)

Section SharedQueue.

Context {I D : Type}.
Variable mk : str -> D -> I.

(** What holds of a shared queue at every moment. *)
Record shared_inv (s : shared I D) : Prop := mkInv {
  inv_nodup : NoDup (sh_log s);
  inv_logged : forall norm, norm ∈ sh_log s ->
    norm ∈ visited (sh_queue s) \/
    exists i t, sh_tasks s !! i = Some t /\ pc t = AtAdd norm;
  inv_unique : forall i j ti tj,
    sh_tasks s !! i = Some ti -> sh_tasks s !! j = Some tj ->
    in_critical (pc ti) = true -> in_critical (pc tj) = true -> i = j;
  inv_locked : forall i t,
    sh_tasks s !! i = Some t -> in_critical (pc t) = true ->
    locked (sh_queue s) = true;
  inv_fresh : forall i t norm,
    sh_tasks s !! i = Some t -> pc t = AtPut norm -> norm ∉ visited (sh_queue s)
}.

Lemma lookup_insert_cases (l : list (add_task D)) i j t t' tj :
  l !! i = Some t ->
  <[i := t']> l !! j = Some tj ->
  (j = i /\ tj = t') \/ (j <> i /\ l !! j = Some tj).
Proof.
  intros Hi Hj. destruct (decide (j = i)) as [->|Hne].
  - rewrite list_lookup_insert_eq in Hj by (eapply lookup_lt_Some; eauto).
    left. split; congruence.
  - rewrite list_lookup_insert_ne in Hj by congruence. right. auto.
Qed.

Lemma task_step_inv s i t t' q' log' :
  shared_inv s ->
  sh_tasks s !! i = Some t ->
  add_step mk t (sh_queue s) (sh_log s) = Some (t', q', log') ->
  shared_inv (mkShared q' (<[i := t']> (sh_tasks s)) log').
Proof.
  intros [Hnd Hlog Huniq Hlock Hfresh] Hi Hstep.
  assert (Hcases := lookup_insert_cases (sh_tasks s) i).
  assert (Hii : <[i := t']> (sh_tasks s) !! i = Some t').
  { apply list_lookup_insert_eq. eapply lookup_lt_Some; eauto. }
  unfold add_step in Hstep.
  destruct (pc t) as [url|norm|norm|norm|norm| | |] eqn:Hpc.
  - (* normalise *)
    assert (Hpc' : in_critical (pc t') = false /\ (forall n, pc t' <> AtAdd n)
                   /\ (forall n, pc t' <> AtPut n) /\ q' = sh_queue s /\ log' = sh_log s).
    { destruct (normalize_url url); injection Hstep as <- <- <-;
        repeat split; auto; discriminate. }
    destruct Hpc' as (Hc & Ha & Hp & -> & ->).
    constructor; cbn [sh_log sh_queue sh_tasks]; auto.
    + intros n Hn. destruct (Hlog n Hn) as [Hv | (j & tj & Hj & Hpj)]; [auto|].
      right. exists j, tj. split; [|exact Hpj].
      rewrite list_lookup_insert_ne; [exact Hj|]. intros ->. congruence.
    + intros j k tj tk Hj Hk Hcj Hck.
      destruct (Hcases j t t' tj Hi Hj) as [[-> ->]|[Hnj Hj']]; [congruence|].
      destruct (Hcases k t t' tk Hi Hk) as [[-> ->]|[Hnk Hk']]; [congruence|].
      eapply Huniq; eauto.
    + intros j tj Hj Hcj.
      destruct (Hcases j t t' tj Hi Hj) as [[-> ->]|[Hnj Hj']]; [congruence|].
      eapply Hlock; eauto.
    + intros j tj n Hj Hpj.
      destruct (Hcases j t t' tj Hi Hj) as [[-> ->]|[Hnj Hj']]; [exfalso; eapply Hp; eauto|].
      eapply Hfresh; eauto.
  - (* take the lock *)
    destruct (locked (sh_queue s)) eqn:Hl; [discriminate|].
    injection Hstep as <- <- <-.
    assert (Hnone : forall j tj, sh_tasks s !! j = Some tj -> in_critical (pc tj) = false).
    { intros j tj Hj. destruct (in_critical (pc tj)) eqn:Hc; [|reflexivity].
      specialize (Hlock j tj Hj Hc). discriminate. }
    constructor; cbn [sh_log sh_queue sh_tasks set_lock visited locked pc]; auto.
    + intros n Hn. destruct (Hlog n Hn) as [Hv | (j & tj & Hj & Hpj)]; [auto|].
      specialize (Hnone j tj Hj). rewrite Hpj in Hnone. discriminate.
    + intros j k tj tk Hj Hk Hcj Hck.
      destruct (Hcases j t _ tj Hi Hj) as [[-> ->]|[Hnj Hj']];
        destruct (Hcases k t _ tk Hi Hk) as [[-> ->]|[Hnk Hk']]; auto.
      * rewrite (Hnone k tk Hk') in Hck. discriminate.
      * rewrite (Hnone j tj Hj') in Hcj. discriminate.
      * rewrite (Hnone j tj Hj') in Hcj. discriminate.
    + intros j tj n Hj Hpj.
      destruct (Hcases j t _ tj Hi Hj) as [[-> ->]|[Hnj Hj']]; [discriminate|].
      specialize (Hnone j tj Hj'). rewrite Hpj in Hnone. discriminate.
  - (* test [visited] *)
    assert (Hme : in_critical (pc t) = true) by (rewrite Hpc; reflexivity).
    assert (Hpc' : in_critical (pc t') = true /\ (forall n, pc t' <> AtAdd n)
                   /\ (forall n, pc t' = AtPut n -> n ∉ visited (sh_queue s))
                   /\ q' = sh_queue s /\ log' = sh_log s).
    { case_bool_decide; injection Hstep as <- <- <-; repeat split; auto;
        try discriminate. intros n [= <-]. assumption. }
    destruct Hpc' as (Hc & Ha & Hp & -> & ->).
    constructor; cbn [sh_log sh_queue sh_tasks]; auto.
    + intros n Hn. destruct (Hlog n Hn) as [Hv | (j & tj & Hj & Hpj)]; [auto|].
      right. exists j, tj. split; [|exact Hpj].
      rewrite list_lookup_insert_ne; [exact Hj|]. intros ->. congruence.
    + intros j k tj tk Hj Hk Hcj Hck.
      destruct (Hcases j t t' tj Hi Hj) as [[-> ->]|[Hnj Hj']];
        destruct (Hcases k t t' tk Hi Hk) as [[-> ->]|[Hnk Hk']]; auto;
        eapply Huniq; eauto.
    + intros j tj Hj Hcj.
      destruct (Hcases j t t' tj Hi Hj) as [[-> ->]|[Hnj Hj']]; eapply Hlock; eauto.
    + intros j tj n Hj Hpj.
      destruct (Hcases j t t' tj Hi Hj) as [[-> ->]|[Hnj Hj']]; [auto|].
      eapply Hfresh; eauto.
  - (* put *)
    assert (Hme : in_critical (pc t) = true) by (rewrite Hpc; reflexivity).
    injection Hstep as <- <- <-.
    assert (Honly : forall j tj, sh_tasks s !! j = Some tj ->
                      in_critical (pc tj) = true -> j = i).
    { intros j tj Hj Hc. eapply Huniq; eauto. }
    assert (Hvis : norm ∉ visited (sh_queue s)) by (eapply Hfresh; eauto).
    assert (Hold : forall n, n ∈ sh_log s -> n ∈ visited (sh_queue s)).
    { intros n Hn. destruct (Hlog n Hn) as [Hv | (j & tj & Hj & Hpj)]; [auto|].
      assert (j = i) by (eapply Honly; eauto; rewrite Hpj; reflexivity).
      subst j. congruence. }
    constructor; cbn [sh_log sh_queue sh_tasks put visited locked pc].
    + apply NoDup_app. split; [exact Hnd|]. split; [|apply NoDup_singleton].
      intros n Hn Hn'. apply list_elem_of_singleton in Hn'. subst n.
      apply Hvis, Hold, Hn.
    + intros n Hn. apply elem_of_app in Hn as [Hn|Hn]; [left; auto|].
      apply list_elem_of_singleton in Hn. subst n.
      right. exists i, (mkTask (AtAdd norm) (arg t)). auto.
    + intros j k tj tk Hj Hk Hcj Hck.
      destruct (Hcases j t _ tj Hi Hj) as [[-> ->]|[Hnj Hj']];
        destruct (Hcases k t _ tk Hi Hk) as [[-> ->]|[Hnk Hk']]; auto.
      * symmetry. eapply Honly; eauto.
      * eapply Honly; eauto.
      * eapply Huniq; eauto.
    + intros j tj Hj Hcj. eapply Hlock; eauto.
    + intros j tj n Hj Hpj.
      destruct (Hcases j t _ tj Hi Hj) as [[-> ->]|[Hnj Hj']]; [discriminate|].
      eapply Hfresh; eauto.
  - (* add to [visited] *)
    assert (Hme : in_critical (pc t) = true) by (rewrite Hpc; reflexivity).
    injection Hstep as <- <- <-.
    assert (Honly : forall j tj, sh_tasks s !! j = Some tj ->
                      in_critical (pc tj) = true -> j = i).
    { intros j tj Hj Hc. eapply Huniq; eauto. }
    constructor; cbn [sh_log sh_queue sh_tasks visited_add visited locked pc]; auto.
    + intros n Hn. left.
      apply elem_of_union.
      destruct (Hlog n Hn) as [Hv | (j & tj & Hj & Hpj)]; [right; exact Hv|].
      assert (j = i) by (eapply Honly; eauto; rewrite Hpj; reflexivity).
      subst j. assert (n = norm) by congruence. left. apply elem_of_singleton. assumption.
    + intros j k tj tk Hj Hk Hcj Hck.
      destruct (Hcases j t _ tj Hi Hj) as [[-> ->]|[Hnj Hj']];
        destruct (Hcases k t _ tk Hi Hk) as [[-> ->]|[Hnk Hk']]; auto.
      * symmetry. eapply Honly; eauto.
      * eapply Honly; eauto.
      * eapply Huniq; eauto.
    + intros j tj Hj Hcj. eapply Hlock; eauto.
    + intros j tj n Hj Hpj.
      destruct (Hcases j t _ tj Hi Hj) as [[-> ->]|[Hnj Hj']]; [discriminate|].
      exfalso. apply Hnj. eapply Honly; eauto. rewrite Hpj. reflexivity.
  - (* release *)
    assert (Hme : in_critical (pc t) = true) by (rewrite Hpc; reflexivity).
    injection Hstep as <- <- <-.
    assert (Honly : forall j tj, sh_tasks s !! j = Some tj ->
                      in_critical (pc tj) = true -> j = i).
    { intros j tj Hj Hc. eapply Huniq; eauto. }
    constructor; cbn [sh_log sh_queue sh_tasks set_lock visited locked pc]; auto.
    + intros n Hn. destruct (Hlog n Hn) as [Hv | (j & tj & Hj & Hpj)]; [auto|].
      assert (j = i) by (eapply Honly; eauto; rewrite Hpj; reflexivity).
      subst j. congruence.
    + intros j k tj tk Hj Hk Hcj Hck.
      destruct (Hcases j t _ tj Hi Hj) as [[-> ->]|[Hnj Hj']]; [discriminate|].
      destruct (Hcases k t _ tk Hi Hk) as [[-> ->]|[Hnk Hk']]; [discriminate|].
      eapply Huniq; eauto.
    + intros j tj Hj Hcj.
      destruct (Hcases j t _ tj Hi Hj) as [[-> ->]|[Hnj Hj']]; [discriminate|].
      exfalso. apply Hnj. eapply Honly; eauto.
    + intros j tj n Hj Hpj.
      destruct (Hcases j t _ tj Hi Hj) as [[-> ->]|[Hnj Hj']]; [discriminate|].
      exfalso. apply Hnj. eapply Honly; eauto. rewrite Hpj. reflexivity.
  - discriminate.
  - discriminate.
Qed.

Lemma shared_step_inv a s :
  shared_inv s -> shared_inv (shared_step mk a s).
Proof.
  intros Hinv. destruct a as [i|]; simpl.
  - destruct (sh_tasks s !! i) as [t|] eqn:Hi; [|exact Hinv].
    destruct (add_step mk t (sh_queue s) (sh_log s))
      as [[[t' q'] log']|] eqn:Hstep; [|exact Hinv].
    eapply task_step_inv; eauto.
  - unfold get_url. destruct (items (sh_queue s)) as [|x rest]; [exact Hinv|].
    destruct Hinv as [Hnd Hlog Huniq Hlock Hfresh].
    constructor; cbn [sh_log sh_queue sh_tasks visited locked]; auto.
Qed.

Lemma run_shared_inv schedule :
  forall s, shared_inv s -> shared_inv (run_shared mk schedule s).
Proof.
  unfold run_shared.
  induction schedule as [|a schedule IH]; intros s Hinv; simpl; [exact Hinv|].
  apply IH, shared_step_inv, Hinv.
Qed.

Lemma seed_queue_inv seeds :
  forall q log,
    NoDup log -> (forall n, n ∈ log -> n ∈ visited q) -> locked q = false ->
    let r := seed_queue mk seeds (q, log) in
    NoDup (snd r) /\ (forall n, n ∈ snd r -> n ∈ visited (fst r))
    /\ locked (fst r) = false.
Proof.
  induction seeds as [|[url d] seeds IH]; intros q log Hnd Hv Hl; simpl; [auto|].
  destruct (normalize_url url) as [norm|]; [|apply IH; auto].
  cbn [fst snd]. unfold check_and_put. case_bool_decide as Hin; [apply IH; auto|].
  apply IH; cbn [visited_add put visited locked]; auto.
  - apply NoDup_app. split; [exact Hnd|]. split; [|apply NoDup_singleton].
    intros n Hn Hn'. apply list_elem_of_singleton in Hn'. subst n. auto.
  - intros n Hn. apply elem_of_union.
    apply elem_of_app in Hn as [Hn|Hn]; [right; auto|].
    apply list_elem_of_singleton in Hn. left. apply elem_of_singleton. exact Hn.
Qed.

Lemma start_shared_inv seeds calls :
  shared_inv (start_shared mk seeds calls).
Proof.
  unfold start_shared.
  destruct (seed_queue_inv seeds new_queue []) as (Hnd & Hv & Hl);
    [constructor | intros n Hn; inversion Hn | reflexivity |].
  destruct (seed_queue mk seeds (new_queue, [])) as [q log].
  cbn [fst snd] in *.
  assert (Hpc : forall i t,
    map (fun c => mkTask (AtNormalize (fst c)) (snd c)) calls !! i = Some t ->
    exists url, pc t = AtNormalize url).
  { intros i t Hi. rewrite list_lookup_fmap in Hi.
    destruct (calls !! i) as [c|]; [|discriminate].
    injection Hi as <-. eauto. }
  constructor; cbn [sh_log sh_queue sh_tasks]; auto.
  - intros i j ti tj Hi _ Hc. destruct (Hpc i ti Hi) as [url Hu].
    rewrite Hu in Hc. discriminate.
  - intros i t Hi Hc. destruct (Hpc i t Hi) as [url Hu].
    rewrite Hu in Hc. discriminate.
  - intros i t n Hi Hp. destruct (Hpc i t Hi) as [url Hu]. congruence.
Qed.

End SharedQueue.

(** C2.  Whatever the synchronous [add_url] calls that came first, whatever
    the calls of [add_url_async] and however the event loop interleaves
    their steps with each other and with consumers, no normalised URL is
    put twice into the queue, of a [URLQueue] as of a [DiscoveryQueue], and
    at most one caller is between taking and releasing the lock. *)
Theorem add_url_async_at_most_once :
  (forall (seeds calls : list (str * unit)) (schedule : list action),
     let s := run_shared URLQueue_item schedule (start_shared URLQueue_item seeds calls) in
     NoDup (sh_log s) /\
     forall i j ti tj,
       sh_tasks s !! i = Some ti -> sh_tasks s !! j = Some tj ->
       in_critical (pc ti) = true -> in_critical (pc tj) = true -> i = j) /\
  (forall (seeds calls : list (str * Z)) (schedule : list action),
     let s := run_shared DiscoveryQueue_item schedule
                (start_shared DiscoveryQueue_item seeds calls) in
     NoDup (sh_log s) /\
     forall i j ti tj,
       sh_tasks s !! i = Some ti -> sh_tasks s !! j = Some tj ->
       in_critical (pc ti) = true -> in_critical (pc tj) = true -> i = j).
Proof.
  split; intros seeds calls schedule s;
    (assert (Hinv : shared_inv s)
       by (apply run_shared_inv, start_shared_inv));
    destruct Hinv as [Hnd _ Huniq _ _]; split; auto.
Qed.

(** ** The traversal loop *)

Lemma discovery_puts_app (t1 t2 : list crawl_event) :
  discovery_puts (t1 ++ t2) = (discovery_puts t1 ++ discovery_puts t2)%list.
Proof.
  induction t1 as [|e t1 IH]; [reflexivity|].
  destruct e; simpl; rewrite ?IH; reflexivity.
Qed.

Lemma scrape_puts_app (t1 t2 : list crawl_event) :
  scrape_puts (t1 ++ t2) = (scrape_puts t1 ++ scrape_puts t2)%list.
Proof.
  induction t1 as [|e t1 IH]; [reflexivity|].
  destruct e; simpl; rewrite ?IH; reflexivity.
Qed.

Lemma protocol_app (t1 t2 : list crawl_event) :
  forall ph,
    protocol ph (t1 ++ t2) =
    match protocol ph t1 with
    | None => None
    | Some ph' => protocol ph' t2
    end.
Proof.
  induction t1 as [|e t1 IH]; intros ph; [reflexivity|].
  simpl. destruct (protocol_step ph e); [apply IH | reflexivity].
Qed.

Lemma protocol_in_flight (evs : list crawl_event) :
  forallb in_flight evs = true -> protocol InFlight evs = Some InFlight.
Proof.
  induction evs as [|e evs IH]; [reflexivity|].
  simpl. intros [He Hevs]%andb_prop.
  destruct e; try discriminate; simpl; auto.
Qed.

(** What the [try] block may do to the crawler while an item taken at
    depth [d - 1] is in flight: add in-flight events [evs] to the trace, and
    append what it puts, at depth [d], to the discovery queue. *)
Definition grows (d : Z) (evs : list crawl_event) (c c' : Crawler) : Prop :=
  trace c' = (trace c ++ evs)%list /\
  forallb in_flight evs = true /\
  items (discovery_queue c') =
    (items (discovery_queue c) ++ discovery_puts evs)%list /\
  unfinished (discovery_queue c') =
    (unfinished (discovery_queue c) + length (discovery_puts evs))%nat /\
  Forall (fun ud => snd ud = d) (discovery_puts evs) /\
  visited (discovery_queue c) ⊆ visited (discovery_queue c') /\
  items (scrape_queue c') =
    (items (scrape_queue c) ++ map Some (scrape_puts evs))%list /\
  base_url c' = base_url c /\
  iteration c' = iteration c.

Lemma grows_refl d c : grows d [] c c.
Proof.
  unfold grows. simpl. rewrite !app_nil_r, Nat.add_0_r.
  repeat split; auto.
Qed.

Lemma grows_trans d e1 e2 c c1 c2 :
  grows d e1 c c1 -> grows d e2 c1 c2 -> grows d (e1 ++ e2) c c2.
Proof.
  intros (T1 & F1 & I1 & U1 & D1 & V1 & S1 & B1 & N1)
         (T2 & F2 & I2 & U2 & D2 & V2 & S2 & B2 & N2).
  unfold grows. rewrite discovery_puts_app, scrape_puts_app, forallb_app, length_app, map_app.
  rewrite T2, T1, I2, I1, U2, U1, F1, F2, S2, S1, B2, B1, N2, N1, <- !app_assoc.
  repeat split; auto; try lia.
  - apply Forall_app; auto.
  - etransitivity; eauto.
Qed.

Lemma grows_emit d e c :
  in_flight e = true -> discovery_puts [e] = [] -> scrape_puts [e] = [] ->
  grows d [e] c (emit e c).
Proof.
  intros He Hd Hs. unfold grows. rewrite Hd, Hs. simpl.
  rewrite He, !app_nil_r, Nat.add_0_r. repeat split; auto.
Qed.

Lemma add_url_async_spec {I : Type} (mk : str -> I) url (q q' : DedupQueue I) :
  add_url_async mk url q = Some q' ->
  exists norm, normalize_url url = Some norm /\
    (((norm ∈ visited q) /\ items q' = items q /\ unfinished q' = unfinished q
      /\ visited q' = visited q) \/
     ((norm ∉ visited q) /\ items q' = (items q ++ [mk norm])%list
      /\ unfinished q' = S (unfinished q)
      /\ visited q' = {[norm]} ∪ visited q)).
Proof.
  unfold add_url_async, check_and_put.
  destruct (normalize_url url) as [norm|]; [|discriminate].
  intros [= <-]. exists norm. split; [reflexivity|].
  cbn [visited set_lock]. case_bool_decide; [left | right]; simpl; auto.
Qed.

Lemma push_scrape_spec d url c c' :
  push_scrape url c = Some c' ->
  exists evs, grows d evs c c' /\ discovery_puts evs = [] /\
              discovery_queue c' = discovery_queue c.
Proof.
  unfold push_scrape.
  destruct (normalize_url url) as [norm|] eqn:Hnorm; [|discriminate].
  destruct (URLQueue_add_url_async url (scrape_queue c)) as [q|] eqn:Hq; [|discriminate].
  apply add_url_async_spec in Hq as (norm' & Hnorm' & Hq).
  rewrite Hnorm in Hnorm'. injection Hnorm' as <-.
  intros [= <-]. case_bool_decide as Hin.
  - destruct Hq as [(_ & Hi & _) | (Hout & _)]; [|contradiction].
    exists []. split; [|auto]. unfold grows. simpl.
    rewrite Hi, !app_nil_r, Nat.add_0_r. repeat split; auto.
  - destruct Hq as [(Hin' & _) | (_ & Hi & _)]; [contradiction|].
    exists [ScrapePut norm]. split; [|auto]. unfold grows. simpl.
    rewrite Hi, !app_nil_r, Nat.add_0_r. repeat split; auto.
Qed.

Lemma push_discovery_spec link d c c' :
  push_discovery link d c = Some c' ->
  exists evs, grows d evs c c' /\ scrape_queue c' = scrape_queue c.
Proof.
  unfold push_discovery.
  destruct (normalize_url link) as [norm|] eqn:Hnorm; [|discriminate].
  destruct (DiscoveryQueue_add_url_async link d (discovery_queue c)) as [q|] eqn:Hq;
    [|discriminate].
  apply add_url_async_spec in Hq as (norm' & Hnorm' & Hq).
  rewrite Hnorm in Hnorm'. injection Hnorm' as <-.
  intros [= <-]. case_bool_decide as Hin.
  - destruct Hq as [(_ & Hi & Hu & Hv) | (Hout & _)]; [|contradiction].
    exists []. split; [|reflexivity]. unfold grows. simpl.
    rewrite Hi, Hu, Hv, !app_nil_r, Nat.add_0_r. repeat split; auto.
  - destruct Hq as [(Hin' & _) | (_ & Hi & Hu & Hv)]; [contradiction|].
    exists [DiscoveryPut norm d]. split; [|reflexivity]. unfold grows. simpl.
    rewrite Hi, Hu, Hv, app_nil_r.
    repeat split; auto; [lia | apply union_subseteq_r].
Qed.

Lemma enqueue_links_spec links depth :
  forall c, exists evs,
    grows (depth + 1) evs c (fst (enqueue_links links depth c)) /\
    scrape_queue (fst (enqueue_links links depth c)) = scrape_queue c.
Proof.
  induction links as [|link rest IH]; intros c; simpl.
  - exists []. split; [apply grows_refl | reflexivity].
  - destruct (normalize_url link) as [norm|];
      [| exists []; split; [apply grows_refl | reflexivity]].
    destruct (is_internal_url norm (base_url c)) as [[|]|];
      [| apply IH | exists []; split; [apply grows_refl | reflexivity]].
    destruct (is_probably_html_url norm) as [[|]|];
      [| apply IH | exists []; split; [apply grows_refl | reflexivity]].
    destruct (push_discovery norm (depth + 1) c) as [c'|] eqn:Hpush;
      [| exists []; split; [apply grows_refl | reflexivity]].
    apply push_discovery_spec in Hpush as (e1 & G1 & S1).
    destruct (IH c') as (e2 & G2 & S2).
    exists (e1 ++ e2)%list. split; [eapply grows_trans; eauto | congruence].
Qed.

Section CrawlFacts.

Variable browser : nat -> str -> nav_result.

Lemma try_body_spec url depth c :
  exists evs,
    grows (depth + 1) evs c (fst (try_body browser url depth c)) /\
    (discovery_puts evs <> [] -> (depth < MAX_DEPTH)%Z) /\
    (browser (iteration c) url = NavError ->
       evs = [Goto url false] /\ snd (try_body browser url depth c) = true /\
       scrape_queue (fst (try_body browser url depth c)) = scrape_queue c /\
       discovery_queue (fst (try_body browser url depth c)) = discovery_queue c).
Proof.
  unfold try_body.
  destruct (browser (iteration c) url) as [|links].
  - exists [Goto url false]. cbn [fst snd].
    split; [apply grows_emit; reflexivity|]. split; [simpl; congruence | auto].
  - set (c1 := emit (LogInfo url depth) (emit (Goto url true) c)).
    assert (G1 : grows (depth + 1) [Goto url true; LogInfo url depth] c c1).
    { apply (grows_trans _ [_] [_] c (emit (Goto url true) c));
        apply grows_emit; reflexivity. }
    destruct (push_scrape url c1) as [c2|] eqn:Hpush.
    + apply (push_scrape_spec (depth + 1)) in Hpush as (e2 & G2 & P2 & _).
      pose proof (grows_trans _ _ _ _ _ _ G1 G2) as G12.
      destruct links as [links|].
      * destruct (Z.ltb_spec depth MAX_DEPTH) as [Hlt|Hge].
        -- destruct (enqueue_links_spec links depth c2) as (e3 & G3 & _).
           eexists. split; [eapply grows_trans; eauto|].
           split; [auto | discriminate].
        -- eexists. cbn [fst]. split; [exact G12|].
           rewrite discovery_puts_app, P2. simpl.
           split; [congruence | discriminate].
      * eexists. cbn [fst]. split; [exact G12|].
        rewrite discovery_puts_app, P2. simpl.
        split; [congruence | discriminate].
    + eexists. cbn [fst]. split; [exact G1|].
      simpl. split; [congruence | discriminate].
Qed.

(** The accounting of the discovery queue between two turns of the loop:
    every item put and not yet taken is an unfinished task. *)
Definition balanced (c : Crawler) : Prop :=
  unfinished (discovery_queue c) = length (items (discovery_queue c)).

(** One turn of the loop on a balanced crawler with [(url, depth)] first in
    the discovery queue. *)
Lemma loop_body_spec c url depth rest :
  items (discovery_queue c) = (url, depth) :: rest ->
  balanced c ->
  exists c' evs,
    loop_body browser c = Some c' /\
    trace c' = (trace c ++ GetUrl url depth :: evs ++ [TaskDone])%list /\
    forallb in_flight evs = true /\
    items (discovery_queue c') = (rest ++ discovery_puts evs)%list /\
    items (scrape_queue c') =
      (items (scrape_queue c) ++ map Some (scrape_puts evs))%list /\
    Forall (fun ud => snd ud = (depth + 1)%Z) (discovery_puts evs) /\
    (discovery_puts evs <> [] -> (depth < MAX_DEPTH)%Z) /\
    balanced c' /\
    base_url c' = base_url c /\
    iteration c' = S (iteration c) /\
    (browser (iteration c) url = NavError ->
       evs = [Goto url false; LogError url] /\
       scrape_queue c' = scrape_queue c /\
       visited (discovery_queue c') = visited (discovery_queue c)).
Proof.
  intros Hitems Hbal. unfold loop_body, get_url. rewrite Hitems.
  set (c0 := emit (GetUrl url depth) _).
  destruct (try_body_spec url depth c0) as (evs & G & Hdepth & Hnav).
  destruct (try_body browser url depth c0) as [c1 raised] eqn:Htry.
  cbn [fst snd] in G, Hnav.
  destruct G as (T & F & I & U & D & V & SQ & B & N).
  set (evs' := if raised then [LogError url] else []).
  set (c2 := if raised then emit (LogError url) c1 else c1).
  assert (T2 : trace c2 = (trace c ++ GetUrl url depth :: evs ++ evs')%list).
  { subst c2 evs'. destruct raised; cbn [emit trace]; rewrite T; subst c0;
      cbn [emit trace]; rewrite <- ?app_assoc; simpl; rewrite ?app_nil_r; reflexivity. }
  assert (Q2 : discovery_queue c2 = discovery_queue c1).
  { subst c2. destruct raised; reflexivity. }
  assert (S2 : scrape_queue c2 = scrape_queue c1 /\ base_url c2 = base_url c1
               /\ iteration c2 = iteration c1).
  { subst c2. destruct raised; auto. }
  destruct S2 as (S2 & B2 & N2).
  assert (P2 : discovery_puts (evs ++ evs') = discovery_puts evs).
  { rewrite discovery_puts_app. subst evs'. destruct raised; simpl;
      rewrite ?app_nil_r; reflexivity. }
  assert (P3 : scrape_puts (evs ++ evs') = scrape_puts evs).
  { rewrite scrape_puts_app. subst evs'. destruct raised; simpl;
      rewrite ?app_nil_r; reflexivity. }
  unfold task_done. rewrite Q2, U. subst c0. cbn [emit discovery_queue unfinished items] in *.
  unfold balanced in Hbal. rewrite Hitems in Hbal. simpl in Hbal. rewrite Hbal.
  cbn [Nat.add].
  eexists _, (evs ++ evs')%list. split; [reflexivity|].
  cbn [emit trace discovery_queue items unfinished base_url iteration].
  rewrite T2, P2, P3, I. cbn [app].
  split; [rewrite <- app_assoc; reflexivity|].
  split; [rewrite forallb_app, F; subst evs'; destruct raised; reflexivity|].
  split; [reflexivity|].
  split; [cbn [emit scrape_queue]; rewrite S2, SQ; reflexivity|].
  split; [exact D|]. split; [exact Hdepth|].
  split; [unfold balanced; cbn [emit discovery_queue unfinished items];
          rewrite length_app; reflexivity|].
  split; [rewrite B2, B; reflexivity|]. split; [rewrite N2, N; reflexivity|].
  intros Herr. destruct (Hnav Herr) as (Hevs & Hr & Hs & Hd).
  subst evs' evs. cbn [emit scrape_queue discovery_queue visited].
  rewrite Hr, Hd, S2, Hs. repeat split.
Qed.


Definition depths_bounded (c : Crawler) : Prop :=
  Forall (fun ud => (0 <= snd ud <= MAX_DEPTH)%Z) (items (discovery_queue c)).

Lemma depth_ok_in_flight depth evs :
  (0 <= depth)%Z ->
  forallb in_flight evs = true ->
  Forall (fun ud => snd ud = (depth + 1)%Z) (discovery_puts evs) ->
  (discovery_puts evs <> [] -> (depth < MAX_DEPTH)%Z) ->
  Forall depth_ok evs.
Proof.
  intros Hd. induction evs as [|e evs IH]; intros F D L; [constructor|].
  simpl in F. apply andb_prop in F as [Fe F].
  destruct e; try discriminate; simpl in D, L.
  1,2,3,5: constructor; [exact I | apply IH; auto].
  inversion D as [|? ? Hx D']; subst. simpl in Hx.
  assert (depth < MAX_DEPTH)%Z by (apply L; discriminate).
  constructor; [simpl; lia|].
  apply IH; auto.
Qed.

(** What every turn of the loop keeps. *)
Lemma start_crawling_inv n :
  forall c,
    balanced c -> depths_bounded c ->
    protocol Idle (trace c) = Some Idle ->
    Forall depth_ok (trace c) ->
    let r := start_crawling browser n c in
    balanced (state_of r) /\ depths_bounded (state_of r) /\
    Forall depth_ok (trace (state_of r)) /\
    match r with
    | Finished c' =>
        items (discovery_queue c') = [] /\
        exists tr, trace c' = (tr ++ [HasPending false])%list /\
                   protocol Idle tr = Some Idle
    | Running c' => protocol Idle (trace c') = Some Idle
    | Crashed _ => False
    end.
Proof.
  induction n as [|n IH]; intros c Hbal Hdep Hprot Hok; simpl.
  - destruct (items (discovery_queue c)) eqn:Hitems; simpl; unfold has_pending;
      rewrite Hitems; simpl.
    + repeat split; auto.
      * apply Forall_app; split; [assumption | repeat constructor].
      * exists (trace c). auto.
    + repeat split; auto.
  - unfold has_pending.
    destruct (items (discovery_queue c)) as [|[url depth] rest] eqn:Hitems; simpl.
    + repeat split; auto.
      * apply Forall_app; split; [assumption | repeat constructor].
      * exists (trace c). auto.
    + destruct (loop_body_spec (emit (HasPending true) c) url depth rest)
        as (c' & evs & Hbody & T & F & I & SQ & D & L & Hbal' & _ & _ & _);
        [exact Hitems | exact Hbal |].
      rewrite Hbody.
      assert (Hd : (0 <= depth <= MAX_DEPTH)%Z).
      { unfold depths_bounded in Hdep. rewrite Hitems in Hdep.
        inversion Hdep; subst; assumption. }
      apply IH; auto.
      * unfold depths_bounded in *. rewrite I. rewrite Hitems in Hdep.
        inversion Hdep; subst. apply Forall_app; split; [assumption|].
        destruct (discovery_puts evs) eqn:Hp; [constructor|].
        assert (depth < MAX_DEPTH)%Z by (apply L; discriminate).
        eapply Forall_impl; [exact D|]. intros [u d] Hu. simpl in *. lia.
      * rewrite T. cbn [emit trace]. rewrite <- app_assoc.
        rewrite protocol_app, Hprot. simpl.
        rewrite protocol_app, (protocol_in_flight evs F). reflexivity.
      * rewrite T. cbn [emit trace].
        apply Forall_app; split; [apply Forall_app; split; [assumption | repeat constructor]|].
        constructor; [exact Hd|].
        apply Forall_app; split; [|repeat constructor].
        apply (depth_ok_in_flight depth); auto. lia.
Qed.

Lemma seeded_spec seed c0 :
  seeded seed = Some c0 ->
  balanced c0 /\ depths_bounded c0 /\ trace c0 = [] /\ base_url c0 = seed /\
  exists norm, normalize_url seed = Some norm /\
               items (discovery_queue c0) = [(norm, 0%Z)].
Proof.
  unfold seeded, DiscoveryQueue_add_url, add_url, check_and_put.
  destruct (normalize_url seed) as [norm|]; [|discriminate].
  intros [= <-]. cbn. unfold balanced, depths_bounded. cbn.
  repeat split; eauto. repeat constructor; simpl; unfold MAX_DEPTH; lia.
Qed.

Lemma seeded_run seed c0 n :
  seeded seed = Some c0 ->
  let r := start_crawling browser n c0 in
  balanced (state_of r) /\ depths_bounded (state_of r) /\
  Forall depth_ok (trace (state_of r)) /\
  match r with
  | Finished c' =>
      items (discovery_queue c') = [] /\
      exists tr, trace c' = (tr ++ [HasPending false])%list /\
                 protocol Idle tr = Some Idle
  | Running c' => protocol Idle (trace c') = Some Idle
  | Crashed _ => False
  end.
Proof.
  intros Hseed. apply seeded_spec in Hseed as (Hb & Hd & Ht & _ & _).
  apply start_crawling_inv; auto; rewrite Ht; [reflexivity | constructor].
Qed.

(** C3.  In a run seeded at depth 0, every item taken from the discovery
    queue, every item put into it and every item left in it has a depth of
    at most [MAX_DEPTH]; the children of an item are put at its depth plus
    one, and only when its depth is below [MAX_DEPTH]: an item at
    [MAX_DEPTH] adds nothing to the queue. *)
Theorem depth_bound (seed : str) (c0 : Crawler) (n : nat) :
  seeded seed = Some c0 ->
  let c := state_of (start_crawling browser n c0) in
  (forall url depth, In (GetUrl url depth) (trace c) -> (depth <= MAX_DEPTH)%Z) /\
  (forall url depth, In (DiscoveryPut url depth) (trace c) -> (depth <= MAX_DEPTH)%Z) /\
  (forall url depth, In (url, depth) (items (discovery_queue c)) ->
     (depth <= MAX_DEPTH)%Z) /\
  (forall c1 url depth rest,
     items (discovery_queue c1) = (url, depth) :: rest -> balanced c1 ->
     exists c2 children,
       loop_body browser c1 = Some c2 /\
       items (discovery_queue c2) = (rest ++ children)%list /\
       Forall (fun ud => snd ud = (depth + 1)%Z) children /\
       (children <> [] -> (depth < MAX_DEPTH)%Z) /\
       (depth = MAX_DEPTH -> items (discovery_queue c2) = rest)).
Proof.
  intros Hseed c.
  destruct (seeded_run seed c0 n Hseed) as (_ & Hdep & Hok & _).
  fold c in Hdep, Hok.
  split; [|split; [|split]].
  - intros url depth Hin.
    apply (proj1 (List.Forall_forall _ _) Hok) in Hin. simpl in Hin. lia.
  - intros url depth Hin.
    apply (proj1 (List.Forall_forall _ _) Hok) in Hin. simpl in Hin. lia.
  - intros url depth Hin.
    apply (proj1 (List.Forall_forall _ _) Hdep) in Hin. simpl in Hin. lia.
  - intros c1 url depth rest Hitems Hbal.
    destruct (loop_body_spec c1 url depth rest Hitems Hbal)
      as (c2 & evs & Hbody & _ & _ & I & _ & D & L & _).
    exists c2, (discovery_puts evs). repeat split; auto.
    intros ->. rewrite I.
    destruct (discovery_puts evs); [apply app_nil_r|].
    assert (MAX_DEPTH < MAX_DEPTH)%Z by (apply L; discriminate). lia.
Qed.

(** C6.  In every turn of the loop the trace is: [get_url], then the events
    of the [try] and [except] blocks, among them every put into the scrape
    queue and into the discovery queue (the queues grow by exactly these
    puts), then [task_done], last.  Over a whole run [has_pending] is
    evaluated only between two turns, never with an item in flight, and
    the loop exits only on an empty discovery queue with no item in flight,
    after which the trace has no further event. *)
Theorem enqueue_before_task_done (seed : str) (c0 : Crawler) (n : nat) :
  seeded seed = Some c0 ->
  let r := start_crawling browser n c0 in
  match r with
  | Finished c =>
      items (discovery_queue c) = [] /\
      exists tr, trace c = (tr ++ [HasPending false])%list /\
                 protocol Idle tr = Some Idle /\
                 protocol Idle (trace c) = Some Stopped
  | Running c => protocol Idle (trace c) = Some Idle
  | Crashed _ => False
  end /\
  (forall c1 url depth rest,
     items (discovery_queue c1) = (url, depth) :: rest -> balanced c1 ->
     exists c2 evs,
       loop_body browser c1 = Some c2 /\
       trace c2 = (trace c1 ++ GetUrl url depth :: evs ++ [TaskDone])%list /\
       forallb in_flight evs = true /\
       items (discovery_queue c2) = (rest ++ discovery_puts evs)%list /\
       items (scrape_queue c2) =
         (items (scrape_queue c1) ++ map Some (scrape_puts evs))%list).
Proof.
  intros Hseed r.
  destruct (seeded_run seed c0 n Hseed) as (_ & _ & _ & Hr). fold r in Hr.
  split.
  - destruct r as [c|c|c]; auto.
    destruct Hr as (Hitems & tr & Htr & Hp).
    split; [exact Hitems|]. exists tr. repeat split; auto.
    rewrite Htr, protocol_app, Hp. reflexivity.
  - intros c1 url depth rest Hitems Hbal.
    destruct (loop_body_spec c1 url depth rest Hitems Hbal)
      as (c2 & evs & Hbody & T & F & I & SQ & _).
    exists c2, evs. auto.
Qed.


(** *** Termination of the loop *)

(** The levels below an item of the discovery queue. *)
Definition levels_left (ud : str * Z) : nat := Z.to_nat (MAX_DEPTH - snd ud).

(** Queues, read as the lists of the levels left below their items, that
    run dry: taking the first item puts any number of items of the next
    level at the end. *)
Inductive drains : list nat -> Prop :=
| drains_nil : drains []
| drains_cons h rest :
    (forall new, Forall (fun h' => S h' = h) new -> drains (rest ++ new)%list) ->
    drains (h :: rest).

Lemma first_at_level (k : nat) (hs : list nat) :
  Forall (fun h => (h < S k)%nat) hs ->
  Forall (fun h => (h < k)%nat) hs \/
  exists pre post, hs = (pre ++ k :: post)%list /\
                   Forall (fun h => (h < k)%nat) pre /\
                   Forall (fun h => (h < S k)%nat) post.
Proof.
  induction 1 as [|h hs Hh Hhs IH]; [left; constructor|].
  destruct (Nat.eq_dec h k) as [->|Hne].
  - right. exists [], hs. repeat split; [constructor | exact Hhs].
  - destruct IH as [IH | (pre & post & -> & Hpre & Hpost)].
    + left. constructor; [lia | exact IH].
    + right. exists (h :: pre), post. repeat split; [|exact Hpost].
      constructor; [lia | exact Hpre].
Qed.

Lemma none_at_level (k : nat) (l : list nat) :
  Forall (fun h => (h < k)%nat) l -> List.filter (Nat.eqb k) l = [].
Proof.
  induction 1 as [|h l Hh _ IH]; [reflexivity|]. simpl.
  destruct (Nat.eqb_spec k h); [lia | exact IH].
Qed.

Lemma drains_below (k : nat) :
  forall hs, Forall (fun h => (h < k)%nat) hs -> drains hs.
Proof.
  induction k as [|k IHk]; intros hs Hhs.
  - destruct hs as [|h hs]; [constructor|]. inversion Hhs; subst; lia.
  - remember (length (List.filter (Nat.eqb k) hs)) as m eqn:Hm.
    revert hs Hhs Hm. induction m as [|m IHm]; intros hs Hhs Hm.
    + destruct (first_at_level k hs Hhs) as [Hlow | (pre & post & -> & _ & _)];
        [apply IHk, Hlow|].
      rewrite List.filter_app, length_app in Hm. simpl in Hm.
      rewrite Nat.eqb_refl in Hm. simpl in Hm. lia.
    + destruct (first_at_level k hs Hhs) as [Hlow | (pre & post & -> & Hpre & Hpost)];
        [apply IHk, Hlow|].
      rewrite List.filter_app, length_app, (none_at_level k pre Hpre) in Hm.
      simpl in Hm. rewrite Nat.eqb_refl in Hm. simpl in Hm.
      injection Hm as Hm. clear Hhs.
      revert post Hpost Hm.
      induction Hpre as [|y pre Hy Hpre IHpre]; intros post Hpost Hm.
      * cbn [app]. constructor. intros new Hnew.
        assert (Hlow : Forall (fun h => (h < k)%nat) new)
          by (eapply Forall_impl; [exact Hnew | intros h' Hh'; simpl in Hh'; lia]).
        apply IHm.
        -- apply Forall_app; split; [exact Hpost|].
           eapply Forall_impl; [exact Hlow | intros; simpl in *; lia].
        -- rewrite List.filter_app, length_app, (none_at_level k new Hlow).
           simpl. lia.
      * cbn [app]. constructor. intros new Hnew.
        assert (Hlow : Forall (fun h => (h < k)%nat) new)
          by (eapply Forall_impl; [exact Hnew | intros h' Hh'; simpl in Hh'; lia]).
        rewrite <- app_assoc. cbn [app]. apply IHpre.
        -- apply Forall_app; split; [exact Hpost|].
           eapply Forall_impl; [exact Hlow | intros; simpl in *; lia].
        -- rewrite List.filter_app, length_app, (none_at_level k new Hlow).
           simpl. lia.
Qed.

Lemma drains_finishes (hs : list nat) :
  drains hs ->
  forall c, balanced c -> depths_bounded c ->
    map levels_left (items (discovery_queue c)) = hs ->
    exists n c', forall m, (n <= m)%nat -> start_crawling browser m c = Finished c'.
Proof.
  induction 1 as [|h hs _ IH]; intros c Hbal Hdep Hmap.
  - apply map_eq_nil in Hmap.
    exists 0%nat, (emit (HasPending false) c). intros m _.
    destruct m; simpl; unfold has_pending; rewrite Hmap; reflexivity.
  - destruct (items (discovery_queue c)) as [|[url depth] rest] eqn:Hitems;
      [discriminate|].
    cbn [map] in Hmap. injection Hmap as Hh Hrest.
    destruct (loop_body_spec (emit (HasPending true) c) url depth rest)
      as (c' & evs & Hbody & _ & _ & I & _ & D & L & Hbal' & _);
      [exact Hitems | exact Hbal |].
    unfold depths_bounded in Hdep. rewrite Hitems in Hdep.
    inversion Hdep as [|? ? Hd Hdrest]; subst. cbn [snd] in Hd.
    assert (Hputs : Forall (fun ud => (0 <= snd ud <= MAX_DEPTH)%Z
                                      /\ S (levels_left ud) = levels_left (url, depth))
                      (discovery_puts evs)).
    { destruct (discovery_puts evs) as [|x l] eqn:Hp; [constructor|].
      assert (depth < MAX_DEPTH)%Z by (apply L; discriminate).
      eapply Forall_impl; [exact D|]. intros [u d] Hu. unfold levels_left.
      cbn [snd] in *. subst d. lia. }
    destruct (IH (map levels_left (discovery_puts evs))) with (c := c')
      as (n & c'' & Hn).
    + apply Forall_map. eapply Forall_impl; [exact Hputs|]. intros ud [_ Hud]. exact Hud.
    + exact Hbal'.
    + unfold depths_bounded. rewrite I. apply Forall_app; split; [exact Hdrest|].
      eapply Forall_impl; [exact Hputs|]. intros ud [Hud _]. exact Hud.
    + rewrite I, map_app. reflexivity.
    + exists (S n), c''. intros m Hm. destruct m as [|m]; [lia|].
      cbn [start_crawling]. unfold has_pending. rewrite Hitems, Hbody.
      apply Hn. lia.
Qed.

(** The traversal loop stops, whatever the pages are: an item is at depth
    [MAX_DEPTH] at most and a page has finitely many links, so the loop
    exits after finitely many turns, and more fuel gives the same final
    state. *)
Theorem start_crawling_terminates (seed : str) (c0 : Crawler) :
  seeded seed = Some c0 ->
  exists n c, forall m, (n <= m)%nat -> start_crawling browser m c0 = Finished c.
Proof.
  intros Hseed. destruct (seeded_spec seed c0 Hseed) as (Hbal & Hdep & _).
  apply (drains_finishes (map levels_left (items (discovery_queue c0))));
    [|exact Hbal | exact Hdep | reflexivity].
  apply (drains_below (S (Z.to_nat MAX_DEPTH))).
  apply Forall_map. eapply Forall_impl; [exact Hdep|].
  intros ud Hud. unfold levels_left. cbn beta in *. unfold compose. lia.
Qed.

(** *** Breadth first *)

Fixpoint get_depths (tr : list crawl_event) : list Z :=
  match tr with
  | [] => []
  | GetUrl _ depth :: rest => depth :: get_depths rest
  | _ :: rest => get_depths rest
  end.

Fixpoint nondecreasing (l : list Z) : Prop :=
  match l with
  | [] => True
  | a :: rest => Forall (Z.le a) rest /\ nondecreasing rest
  end.

Lemma nondecreasing_app (l1 l2 : list Z) :
  nondecreasing (l1 ++ l2) <->
  nondecreasing l1 /\ nondecreasing l2 /\
  forall a b, In a l1 -> In b l2 -> (a <= b)%Z.
Proof.
  induction l1 as [|x l1 IH]; cbn [app nondecreasing].
  - split; [intros H; repeat split; auto; intros a b [] | tauto].
  - rewrite IH, Forall_app, !List.Forall_forall. split.
    + intros ((H1 & H2) & H3 & H4 & H5). repeat split; auto.
      intros a b [<-|Ha] Hb; [apply H2, Hb | apply H5; assumption].
    + intros ((H1 & H2) & H3 & H4). repeat split; auto.
      * intros b Hb. apply H4; [left; reflexivity | exact Hb].
      * intros a b Ha Hb. apply H4; [right; exact Ha | exact Hb].
Qed.

Lemma get_depths_app (t1 t2 : list crawl_event) :
  get_depths (t1 ++ t2) = (get_depths t1 ++ get_depths t2)%list.
Proof.
  induction t1 as [|e t1 IH]; [reflexivity|].
  destruct e; simpl; rewrite IH; reflexivity.
Qed.

Lemma get_depths_in_flight (evs : list crawl_event) :
  forallb in_flight evs = true -> get_depths evs = [].
Proof.
  induction evs as [|e evs IH]; [reflexivity|]. simpl.
  intros [He Hevs]%andb_prop. destruct e; try discriminate He; apply IH, Hevs.
Qed.

(** The depths taken so far, followed by those in the queue, never go
    down, and the queue holds items of two adjacent levels at most. *)
Definition breadth_first (c : Crawler) : Prop :=
  nondecreasing (get_depths (trace c) ++ map snd (items (discovery_queue c))) /\
  forall ud ud', In ud (items (discovery_queue c)) ->
                 In ud' (items (discovery_queue c)) -> (snd ud' <= snd ud + 1)%Z.

Lemma loop_body_breadth_first c url depth rest c' evs :
  items (discovery_queue c) = (url, depth) :: rest ->
  breadth_first c ->
  trace c' = (trace c ++ GetUrl url depth :: evs ++ [TaskDone])%list ->
  forallb in_flight evs = true ->
  items (discovery_queue c') = (rest ++ discovery_puts evs)%list ->
  Forall (fun ud => snd ud = (depth + 1)%Z) (discovery_puts evs) ->
  breadth_first c'.
Proof.
  intros Hitems [Hsorted Hspan] T F I D. unfold breadth_first.
  rewrite Hitems in Hsorted, Hspan. rewrite T, I.
  rewrite get_depths_app. cbn [get_depths]. rewrite get_depths_app.
  rewrite (get_depths_in_flight evs F). cbn [get_depths app].
  rewrite map_app.
  cbn [map snd] in Hsorted.
  assert (Hnew : forall b, In b (map snd (discovery_puts evs)) -> b = (depth + 1)%Z).
  { intros b Hb. apply in_map_iff in Hb as (ud & <- & Hud).
    exact (proj1 (List.Forall_forall _ _) D ud Hud). }
  apply nondecreasing_app in Hsorted as (HG & HR & HGR).
  cbn [nondecreasing] in HR. destruct HR as [HdR HR].
  split.
  - assert (Hconst : nondecreasing (map snd (discovery_puts evs))).
    { clear -Hnew. induction (map snd (discovery_puts evs)) as [|b l IH]; [exact I|].
      cbn [nondecreasing]. split.
      - apply List.Forall_forall. intros b' Hb'.
        rewrite (Hnew b (or_introl eq_refl)), (Hnew b' (or_intror Hb')). lia.
      - apply IH. intros b' Hb'. apply Hnew. right. exact Hb'. }
    assert (Hup : forall a, In a (get_depths (trace c) ++ [depth]) -> (a <= depth)%Z).
    { intros a Ha. apply in_app_or in Ha as [Ha | [<- | []]]; [|lia].
      exact (HGR a depth Ha (or_introl eq_refl)). }
    assert (Hdown : forall b, In b (map snd rest ++ map snd (discovery_puts evs)) ->
                              (depth <= b)%Z).
    { intros b Hb. apply in_app_or in Hb as [Hb | Hb].
      - exact (proj1 (List.Forall_forall _ _) HdR b Hb).
      - rewrite (Hnew b Hb). lia. }
    apply nondecreasing_app. split; [|split].
    + apply nondecreasing_app. split; [exact HG|]. split; [cbn; auto|].
      intros a b Ha [<- | []]. apply Hup, in_or_app. left. exact Ha.
    + apply nondecreasing_app. split; [exact HR|]. split; [exact Hconst|].
      intros a b Ha Hb. rewrite (Hnew b Hb).
      apply in_map_iff in Ha as (ud & <- & Hud).
      exact (Hspan (url, depth) ud (or_introl eq_refl) (or_intror Hud)).
    + intros a b Ha Hb. specialize (Hup a Ha). specialize (Hdown b Hb). lia.
  - intros ud ud' Hud Hud'.
    assert (Hlow : (depth <= snd ud)%Z).
    { apply in_app_or in Hud as [Hud|Hud].
      - apply (proj1 (List.Forall_forall _ _) HdR). apply in_map. exact Hud.
      - rewrite (proj1 (List.Forall_forall _ _) D ud Hud). lia. }
    assert (Hhigh : (snd ud' <= depth + 1)%Z).
    { apply in_app_or in Hud' as [Hud'|Hud'].
      - exact (Hspan (url, depth) ud' (or_introl eq_refl) (or_intror Hud')).
      - rewrite (proj1 (List.Forall_forall _ _) D ud' Hud'). lia. }
    lia.
Qed.

Lemma start_crawling_breadth_first n :
  forall c, balanced c -> breadth_first c ->
            breadth_first (state_of (start_crawling browser n c)).
Proof.
  assert (Hemit : forall b c, breadth_first c -> breadth_first (emit (HasPending b) c)).
  { intros b c [H1 H2]. unfold breadth_first. cbn [emit trace discovery_queue].
    rewrite get_depths_app. cbn [get_depths]. rewrite app_nil_r. split; assumption. }
  induction n as [|n IH]; intros c Hbal Hbf; cbn [start_crawling].
  - destruct (has_pending (discovery_queue c)); cbn [state_of]; auto.
  - unfold has_pending.
    destruct (items (discovery_queue c)) as [|[url depth] rest] eqn:Hitems;
      cbn [state_of]; [auto|].
    destruct (loop_body_spec (emit (HasPending true) c) url depth rest)
      as (c' & evs & Hbody & T & F & I & _ & D & _ & Hbal' & _);
      [exact Hitems | exact Hbal |].
    rewrite Hbody. apply IH; [exact Hbal'|].
    apply (loop_body_breadth_first (emit (HasPending true) c) url depth rest c' evs);
      auto.
Qed.

(** The crawl is breadth first: the depths of the items taken from the
    discovery queue never go down, and the items waiting in the queue are
    of two adjacent levels at most. *)
Theorem crawl_breadth_first (seed : str) (c0 : Crawler) (n : nat) :
  seeded seed = Some c0 ->
  let c := state_of (start_crawling browser n c0) in
  nondecreasing (get_depths (trace c)) /\
  forall ud ud', In ud (items (discovery_queue c)) ->
                 In ud' (items (discovery_queue c)) -> (snd ud' <= snd ud + 1)%Z.
Proof.
  intros Hseed c.
  destruct (seeded_spec seed c0 Hseed) as (Hbal & _ & Ht & _ & norm & _ & Hitems).
  assert (Hbf : breadth_first c0).
  { unfold breadth_first. rewrite Ht, Hitems. cbn. split; [auto|].
    intros ud ud' [<-|[]] [<-|[]]. simpl. lia. }
  destruct (start_crawling_breadth_first n c0 Hbal Hbf) as [Hsorted Hspan].
  fold c in Hsorted, Hspan. split; [|exact Hspan].
  apply nondecreasing_app in Hsorted. tauto.
Qed.

(** *** What is put, and why *)

(** [u] is what the discovery queue is given for one of [links]: the link,
    normalised by the loop, has passed both filters, and [add_url_async]
    has normalised it once more. *)
Definition link_admitted (base : str) (links : list str) (u : str) : Prop :=
  exists link norm,
    In link links /\ normalize_url link = Some norm /\
    is_internal_url norm base = Some true /\
    is_probably_html_url norm = Some true /\
    normalize_url norm = Some u.

(** A put into the scrape queue is the normal form of a URL that the
    browser has loaded; a put into the discovery queue comes from a link of
    a page that the browser has loaded and whose links it could read. *)
Definition put_justified (base : str) (e : crawl_event) : Prop :=
  match e with
  | ScrapePut u =>
      exists i url links, browser i url = NavOk links /\ normalize_url url = Some u
  | DiscoveryPut u _ =>
      exists i url links,
        browser i url = NavOk (Some links) /\ link_admitted base links u
  | _ => True
  end.

Lemma push_discovery_events link d c c' :
  push_discovery link d c = Some c' ->
  exists evs, trace c' = (trace c ++ evs)%list /\ base_url c' = base_url c /\
              iteration c' = iteration c /\
              forall e, In e evs -> exists u, e = DiscoveryPut u d /\
                                              normalize_url link = Some u.
Proof.
  unfold push_discovery.
  destruct (normalize_url link) as [norm|]; [|discriminate].
  destruct (DiscoveryQueue_add_url_async link d (discovery_queue c)) as [q|];
    [|discriminate].
  destruct (bool_decide (norm ∈ visited (discovery_queue c))); intros [= <-].
  - exists []. cbn. rewrite app_nil_r. repeat split. intros e [].
  - exists [DiscoveryPut norm d]. cbn. repeat split.
    intros e [<- | []]. eauto.
Qed.

Lemma push_scrape_events url c c' :
  push_scrape url c = Some c' ->
  exists evs, trace c' = (trace c ++ evs)%list /\ base_url c' = base_url c /\
              iteration c' = iteration c /\
              forall e, In e evs -> exists u, e = ScrapePut u /\
                                              normalize_url url = Some u.
Proof.
  unfold push_scrape.
  destruct (normalize_url url) as [norm|]; [|discriminate].
  destruct (URLQueue_add_url_async url (scrape_queue c)) as [q|]; [|discriminate].
  destruct (bool_decide (norm ∈ visited (scrape_queue c))); intros [= <-].
  - exists []. cbn. rewrite app_nil_r. repeat split. intros e [].
  - exists [ScrapePut norm]. cbn. repeat split.
    intros e [<- | []]. eauto.
Qed.

Lemma enqueue_links_events links depth :
  forall c, exists evs,
    trace (fst (enqueue_links links depth c)) = (trace c ++ evs)%list /\
    base_url (fst (enqueue_links links depth c)) = base_url c /\
    forall e, In e evs ->
      exists u, e = DiscoveryPut u (depth + 1) /\ link_admitted (base_url c) links u.
Proof.
  assert (Hnone : forall (c : Crawler) (P : crawl_event -> Prop),
            exists evs, trace c = (trace c ++ evs)%list /\ base_url c = base_url c /\
                        forall e, In e evs -> P e).
  { intros c P. exists []. rewrite app_nil_r. repeat split. intros e []. }
  induction links as [|link rest IH]; intros c; cbn [enqueue_links].
  - apply Hnone.
  - assert (Hrest : exists evs,
              trace (fst (enqueue_links rest depth c)) = (trace c ++ evs)%list /\
              base_url (fst (enqueue_links rest depth c)) = base_url c /\
              forall e, In e evs ->
                exists u, e = DiscoveryPut u (depth + 1) /\
                          link_admitted (base_url c) (link :: rest) u).
    { destruct (IH c) as (evs & T & B & H). exists evs. repeat split; auto.
      intros e He. destruct (H e He) as (u & -> & l & n & Hl & Hrest).
      exists u. split; [reflexivity|]. exists l, n. split; [right; exact Hl | exact Hrest]. }
    destruct (normalize_url link) as [norm|] eqn:Hnorm; [|apply Hnone].
    destruct (is_internal_url norm (base_url c)) as [[|]|] eqn:Hint;
      [| exact Hrest | apply Hnone].
    destruct (is_probably_html_url norm) as [[|]|] eqn:Hhtml;
      [| exact Hrest | apply Hnone].
    destruct (push_discovery norm (depth + 1) c) as [c'|] eqn:Hpush; [|apply Hnone].
    apply push_discovery_events in Hpush as (e1 & T1 & B1 & _ & H1).
    destruct (IH c') as (e2 & T2 & B2 & H2).
    exists (e1 ++ e2)%list. rewrite T2, T1, B2, B1, app_assoc.
    repeat split. intros e He. apply in_app_or in He as [He|He].
    + destruct (H1 e He) as (u & -> & Hu). exists u. split; [reflexivity|].
      exists link, norm. repeat split; auto. left. reflexivity.
    + destruct (H2 e He) as (u & -> & l & n & Hl & Hrest').
      rewrite B1 in Hrest'.
      exists u. split; [reflexivity|]. exists l, n. split; [right; exact Hl | exact Hrest'].
Qed.

Lemma try_body_events url depth c :
  exists evs,
    trace (fst (try_body browser url depth c)) = (trace c ++ evs)%list /\
    base_url (fst (try_body browser url depth c)) = base_url c /\
    Forall (put_justified (base_url c)) evs.
Proof.
  unfold try_body. destruct (browser (iteration c) url) as [|links] eqn:Hnav.
  - exists [Goto url false]. cbn. repeat split. repeat constructor.
  - set (c1 := emit (LogInfo url depth) (emit (Goto url true) c)).
    assert (H1 : trace c1 = (trace c ++ [Goto url true; LogInfo url depth])%list)
      by (subst c1; cbn; rewrite <- app_assoc; reflexivity).
    assert (Hlog : Forall (put_justified (base_url c))
                          [Goto url true; LogInfo url depth]) by (repeat constructor).
    destruct (push_scrape url c1) as [c2|] eqn:Hpush;
      [| exists [Goto url true; LogInfo url depth]; cbn [fst]; auto].
    apply push_scrape_events in Hpush as (e2 & T2 & B2 & N2 & H2).
    assert (Hput : Forall (put_justified (base_url c)) e2).
    { apply List.Forall_forall. intros e He. destruct (H2 e He) as (u & -> & Hu).
      exists (iteration c), url, links. auto. }
    assert (Hc2 : exists evs, trace c2 = (trace c ++ evs)%list /\
                              base_url c2 = base_url c /\
                              Forall (put_justified (base_url c)) evs).
    { exists ([Goto url true; LogInfo url depth] ++ e2)%list.
      rewrite T2, H1, B2, <- app_assoc. repeat split.
      apply Forall_app; split; assumption. }
    destruct links as [links|]; [|exact Hc2].
    destruct (depth <? MAX_DEPTH)%Z; [|exact Hc2].
    destruct Hc2 as (evs & T & B & H).
    destruct (enqueue_links_events links depth c2) as (e3 & T3 & B3 & H3).
    exists (evs ++ e3)%list. rewrite T3, T, B3, B, <- app_assoc. repeat split.
    apply Forall_app; split; [exact H|].
    apply List.Forall_forall. intros e He. destruct (H3 e He) as (u & -> & Hu).
    rewrite B in Hu. exists (iteration c), url, links. auto.
Qed.

Lemma loop_body_events c c' :
  loop_body browser c = Some c' ->
  exists evs, trace c' = (trace c ++ evs)%list /\ base_url c' = base_url c /\
              Forall (put_justified (base_url c)) evs.
Proof.
  unfold loop_body. destruct (get_url (discovery_queue c)) as [[[url depth] q]|];
    [|discriminate].
  set (c1 := emit (GetUrl url depth) _).
  destruct (try_body_events url depth c1) as (evs & T & B & H).
  destruct (try_body browser url depth c1) as [c2 raised]. cbn [fst] in T, B.
  set (c3 := if raised then emit (LogError url) c2 else c2).
  assert (H3 : exists e3, trace c3 = (trace c2 ++ e3)%list /\ base_url c3 = base_url c2 /\
                          discovery_queue c3 = discovery_queue c2 /\
                          Forall (put_justified (base_url c)) e3).
  { subst c3. destruct raised.
    - exists [LogError url]. cbn. repeat split. repeat constructor.
    - exists []. rewrite app_nil_r. repeat split. constructor. }
  destruct H3 as (e3 & T3 & B3 & _ & H3).
  destruct (task_done (discovery_queue c3)) as [q'|]; [|discriminate].
  intros [= <-]. cbn [emit trace base_url].
  exists (GetUrl url depth :: evs ++ e3 ++ [TaskDone])%list.
  rewrite T3, T, B3, B. subst c1. cbn [emit trace base_url].
  split; [rewrite <- !app_assoc; reflexivity|]. split; [reflexivity|].
  constructor; [exact I|]. apply Forall_app; split; [exact H|].
  apply Forall_app; split; [exact H3 | repeat constructor].
Qed.

Lemma start_crawling_events n :
  forall c, Forall (put_justified (base_url c)) (trace c) ->
            Forall (put_justified (base_url c))
                   (trace (state_of (start_crawling browser n c))).
Proof.
  induction n as [|n IH]; intros c Hc; cbn [start_crawling].
  - destruct (has_pending (discovery_queue c)); cbn [state_of emit trace]; auto.
    apply Forall_app; split; [exact Hc | repeat constructor].
  - destruct (has_pending (discovery_queue c)); cbn [state_of emit trace].
    + destruct (loop_body browser (emit (HasPending true) c)) as [c'|] eqn:Hbody;
        [|exact Hc].
      apply loop_body_events in Hbody as (evs & T & B & H).
      cbn [emit trace base_url] in T, B, H. rewrite <- B. apply IH.
      rewrite B, T. apply Forall_app; split; [|exact H].
      apply Forall_app; split; [exact Hc | repeat constructor].
    + apply Forall_app; split; [exact Hc | repeat constructor].
Qed.

(** Nothing is queued without cause.  A URL is put into the scrape queue
    only as the normal form of a URL that the browser has loaded.  A URL is
    put into the discovery queue only for a link read from a loaded page,
    the link, once normalised, being of the seed's domain and no asset; what
    is put is the normal form of that normal form, since [add_url_async]
    normalises what the loop has normalised. *)
Theorem crawler_puts_justified (seed : str) (c0 : Crawler) (n : nat) :
  seeded seed = Some c0 ->
  Forall (put_justified seed) (trace (state_of (start_crawling browser n c0))).
Proof.
  intros Hseed. destruct (seeded_spec seed c0 Hseed) as (_ & _ & Ht & Hb & _).
  rewrite <- Hb. apply start_crawling_events. rewrite Ht. constructor.
Qed.

(** *** Once, and in order *)

Fixpoint gets (tr : list crawl_event) : list (str * Z) :=
  match tr with
  | [] => []
  | GetUrl url depth :: rest => (url, depth) :: gets rest
  | _ :: rest => gets rest
  end.

Lemma gets_app (t1 t2 : list crawl_event) :
  gets (t1 ++ t2) = (gets t1 ++ gets t2)%list.
Proof.
  induction t1 as [|e t1 IH]; [reflexivity|].
  destruct e; simpl; rewrite IH; reflexivity.
Qed.

Lemma gets_in_flight (evs : list crawl_event) :
  forallb in_flight evs = true -> gets evs = [].
Proof.
  induction evs as [|e evs IH]; [reflexivity|]. simpl.
  intros [He Hevs]%andb_prop. destruct e; try discriminate He; apply IH, Hevs.
Qed.

(** From [c] to [c'] the trace grows by puts of URLs that were not in
    [visited], no two of them the same, and [visited] grows by them. *)
Definition puts_fresh (c c' : Crawler) : Prop :=
  exists evs,
    trace c' = (trace c ++ evs)%list /\
    NoDup (map fst (discovery_puts evs)) /\
    (forall u, In u (map fst (discovery_puts evs)) ->
               u ∉ visited (discovery_queue c)) /\
    forall u, u ∈ visited (discovery_queue c') <->
              In u (map fst (discovery_puts evs)) \/ u ∈ visited (discovery_queue c).

Lemma puts_fresh_refl c c' :
  trace c' = trace c -> visited (discovery_queue c') = visited (discovery_queue c) ->
  puts_fresh c c'.
Proof.
  intros Ht Hv. exists []. rewrite app_nil_r, Hv. cbn.
  split; [exact Ht|]. split; [constructor|]. split; [intros u [] | tauto].
Qed.

Lemma puts_fresh_emit e c c' :
  discovery_puts [e] = [] -> trace c' = trace (emit e c) ->
  visited (discovery_queue c') = visited (discovery_queue c) -> puts_fresh c c'.
Proof.
  intros He Ht Hv. exists [e]. rewrite He, Hv. cbn.
  split; [exact Ht|]. split; [constructor|]. split; [intros u [] | tauto].
Qed.

Lemma puts_fresh_trans c c1 c2 :
  puts_fresh c c1 -> puts_fresh c1 c2 -> puts_fresh c c2.
Proof.
  intros (e1 & T1 & N1 & F1 & V1) (e2 & T2 & N2 & F2 & V2).
  exists (e1 ++ e2)%list. rewrite T2, T1, <- app_assoc, discovery_puts_app, map_app.
  split; [reflexivity|]. split; [|split].
  - apply NoDup_app. split; [exact N1|]. split; [|exact N2].
    intros u Hu1%list_elem_of_In Hu2%list_elem_of_In.
    apply (F2 u Hu2), V1. left. exact Hu1.
  - intros u Hu. apply in_app_or in Hu as [Hu|Hu]; [apply F1, Hu|].
    intros Hin. apply (F2 u Hu), V1. right. exact Hin.
  - intros u. rewrite V2, V1, in_app_iff. tauto.
Qed.

Lemma push_discovery_fresh link d c c' :
  push_discovery link d c = Some c' -> puts_fresh c c'.
Proof.
  unfold push_discovery.
  destruct (normalize_url link) as [norm|] eqn:Hnorm; [|discriminate].
  destruct (DiscoveryQueue_add_url_async link d (discovery_queue c)) as [q|] eqn:Hq;
    [|discriminate].
  apply add_url_async_spec in Hq as (norm' & Hnorm' & Hq).
  rewrite Hnorm in Hnorm'. injection Hnorm' as <-.
  intros [= <-]. case_bool_decide as Hin.
  - destruct Hq as [(_ & _ & _ & Hv) | (Hout & _)]; [|contradiction].
    apply puts_fresh_refl; [reflexivity | exact Hv].
  - destruct Hq as [(Hin' & _) | (_ & _ & _ & Hv)]; [contradiction|].
    exists [DiscoveryPut norm d]. cbn [emit trace discovery_queue discovery_puts map fst].
    split; [reflexivity|]. split; [repeat constructor; intros []%elem_of_nil|].
    split; [intros u [<- | []]; exact Hin|].
    intros u. rewrite Hv, elem_of_union, elem_of_singleton. cbn [In]. intuition.
Qed.

Lemma enqueue_links_fresh links depth :
  forall c, puts_fresh c (fst (enqueue_links links depth c)).
Proof.
  induction links as [|link rest IH]; intros c; cbn [enqueue_links].
  - apply puts_fresh_refl; reflexivity.
  - destruct (normalize_url link) as [norm|]; [|apply puts_fresh_refl; reflexivity].
    destruct (is_internal_url norm (base_url c)) as [[|]|];
      [| apply IH | apply puts_fresh_refl; reflexivity].
    destruct (is_probably_html_url norm) as [[|]|];
      [| apply IH | apply puts_fresh_refl; reflexivity].
    destruct (push_discovery norm (depth + 1) c) as [c'|] eqn:Hpush;
      [| apply puts_fresh_refl; reflexivity].
    eapply puts_fresh_trans; [eapply push_discovery_fresh; exact Hpush | apply IH].
Qed.

Lemma try_body_fresh url depth c :
  puts_fresh c (fst (try_body browser url depth c)).
Proof.
  unfold try_body. destruct (browser (iteration c) url) as [|links].
  - apply (puts_fresh_emit (Goto url false)); reflexivity.
  - set (c1 := emit (LogInfo url depth) (emit (Goto url true) c)).
    assert (H1 : puts_fresh c c1).
    { apply (puts_fresh_trans c (emit (Goto url true) c));
        [apply (puts_fresh_emit (Goto url true)) | apply (puts_fresh_emit (LogInfo url depth))];
        reflexivity. }
    destruct (push_scrape url c1) as [c2|] eqn:Hpush; [|exact H1].
    assert (H2 : puts_fresh c1 c2).
    { apply (push_scrape_spec 0) in Hpush as (evs & G & P & Q).
      destruct G as (T & _). exists evs. rewrite P, Q. cbn.
      split; [exact T|]. split; [constructor|]. split; [intros u [] | tauto]. }
    pose proof (puts_fresh_trans _ _ _ H1 H2) as H12.
    destruct links as [links|]; [|exact H12].
    destruct (depth <? MAX_DEPTH)%Z; [|exact H12].
    eapply puts_fresh_trans; [exact H12 | apply enqueue_links_fresh].
Qed.

(** The URLs taken and those waiting are the seed and what was put, in
    this order, and no two of them are the same. *)
Definition in_order (first : str * Z) (c : Crawler) : Prop :=
  (gets (trace c) ++ items (discovery_queue c))%list
    = first :: discovery_puts (trace c) /\
  NoDup (map fst (first :: discovery_puts (trace c))) /\
  forall u, In u (map fst (first :: discovery_puts (trace c))) ->
            u ∈ visited (discovery_queue c).

Lemma loop_body_in_order first c c' url depth rest :
  items (discovery_queue c) = (url, depth) :: rest -> balanced c ->
  in_order first c -> loop_body browser c = Some c' -> in_order first c'.
Proof.
  intros Hitems Hbal (Hfifo & Hnd & Hvis) Hbody.
  destruct (loop_body_spec c url depth rest Hitems Hbal)
    as (c1 & evs & Hbody' & T & F & I & _).
  rewrite Hbody in Hbody'. injection Hbody' as <-.
  assert (Hfresh : puts_fresh c c').
  { revert Hbody. unfold loop_body, get_url. rewrite Hitems.
    set (c0 := emit (GetUrl url depth) _).
    pose proof (try_body_fresh url depth c0) as H0.
    destruct (try_body browser url depth c0) as [c2 raised]. cbn [fst] in H0.
    set (c3 := if raised then emit (LogError url) c2 else c2).
    assert (H3 : puts_fresh c2 c3).
    { subst c3. destruct raised; [apply (puts_fresh_emit (LogError url)) |
                                  apply puts_fresh_refl]; reflexivity. }
    destruct (task_done (discovery_queue c3)) as [q'|] eqn:Hdone; [|discriminate].
    intros [= <-].
    assert (Hq' : visited q' = visited (discovery_queue c3)).
    { unfold task_done in Hdone. destruct (unfinished (discovery_queue c3));
        [discriminate|]. injection Hdone as <-. reflexivity. }
    apply (puts_fresh_trans c c0);
      [apply (puts_fresh_emit (GetUrl url depth)); reflexivity|].
    apply (puts_fresh_trans c0 c2); [exact H0|].
    apply (puts_fresh_trans c2 c3); [exact H3|].
    apply (puts_fresh_emit TaskDone); [reflexivity | reflexivity | exact Hq']. }
  destruct Hfresh as (evs' & T' & N' & F' & V').
  assert (Hevs : evs' = (GetUrl url depth :: evs ++ [TaskDone])%list)
    by (rewrite T in T'; apply app_inv_head in T'; symmetry; exact T').
  assert (Hputs : discovery_puts evs' = discovery_puts evs).
  { rewrite Hevs. cbn [discovery_puts]. rewrite discovery_puts_app. cbn.
    apply app_nil_r. }
  rewrite Hputs in N', F', V'.
  unfold in_order. rewrite T, I, gets_app, discovery_puts_app.
  cbn [gets discovery_puts]. rewrite gets_app, discovery_puts_app.
  rewrite (gets_in_flight evs F). cbn [gets discovery_puts app].
  rewrite app_nil_r. rewrite Hitems in Hfifo.
  split; [|split].
  - transitivity ((gets (trace c) ++ (url, depth) :: rest)
                  ++ discovery_puts evs)%list;
      [rewrite <- !app_assoc; reflexivity | rewrite Hfifo; reflexivity].
  - rewrite app_comm_cons, map_app. apply NoDup_app. split; [exact Hnd|].
    split; [|exact N'].
    intros u Hu1%list_elem_of_In Hu2%list_elem_of_In.
    apply (F' u Hu2), Hvis, Hu1.
  - intros u Hu. rewrite app_comm_cons, map_app in Hu. apply V'.
    apply in_app_or in Hu as [Hu|Hu]; [right; apply Hvis, Hu | left; exact Hu].
Qed.

Lemma start_crawling_in_order first n :
  forall c, balanced c -> in_order first c ->
            in_order first (state_of (start_crawling browser n c)).
Proof.
  assert (Hemit : forall b c, in_order first c -> in_order first (emit (HasPending b) c)).
  { intros b c (H1 & H2 & H3). unfold in_order. cbn [emit trace discovery_queue].
    rewrite gets_app, discovery_puts_app. cbn. rewrite !app_nil_r. auto. }
  induction n as [|n IH]; intros c Hbal Hord; cbn [start_crawling].
  - destruct (has_pending (discovery_queue c)); cbn [state_of]; auto.
  - unfold has_pending.
    destruct (items (discovery_queue c)) as [|[url depth] rest] eqn:Hitems;
      cbn [state_of]; [auto|].
    destruct (loop_body_spec (emit (HasPending true) c) url depth rest)
      as (c' & evs & Hbody & _ & _ & _ & _ & _ & _ & Hbal' & _);
      [exact Hitems | exact Hbal |].
    rewrite Hbody. apply IH; [exact Hbal'|].
    eapply (loop_body_in_order first (emit (HasPending true) c)); eauto.
Qed.

(** No URL string is taken from the discovery queue twice, and URLs are
    taken in the order of their discovery: the items taken from the
    discovery queue, followed by those waiting in it, are the seed and then
    what was put into the queue, in the order of the puts, and their URL
    strings are all different.  (Two different strings can still name one
    page: the seed is normalised once and a link twice, and a second pass
    of [normalize_url] can change a URL.) *)
Theorem crawl_visits_once (seed : str) (c0 : Crawler) (n : nat) :
  seeded seed = Some c0 ->
  let c := state_of (start_crawling browser n c0) in
  exists norm,
    normalize_url seed = Some norm /\
    (gets (trace c) ++ items (discovery_queue c))%list
      = (norm, 0%Z) :: discovery_puts (trace c) /\
    NoDup (map fst (gets (trace c) ++ items (discovery_queue c))).
Proof.
  intros Hseed c.
  destruct (seeded_spec seed c0 Hseed) as (Hbal & _ & Ht & _ & norm & Hnorm & Hitems).
  exists norm. split; [exact Hnorm|].
  assert (Hord : in_order (norm, 0%Z) c0).
  { unfold in_order. rewrite Ht, Hitems. cbn.
    split; [reflexivity|]. split; [repeat constructor; intros []%elem_of_nil|].
    intros u [<- | []].
    revert Hseed. unfold seeded, DiscoveryQueue_add_url, add_url. rewrite Hnorm.
    intros [= <-]. cbn [discovery_queue]. unfold check_and_put.
    case_bool_decide as Hin; [exact Hin|].
    cbn [visited_add visited]. apply elem_of_union. left.
    apply elem_of_singleton. reflexivity. }
  destruct (start_crawling_in_order (norm, 0%Z) n c0 Hbal Hord) as (H1 & H2 & _).
  fold c in H1, H2. split; [exact H1|]. rewrite H1. exact H2.
Qed.

End CrawlFacts.

(** ** The pool and its shutdown *)

Lemma count_workers_insert f ws i w w' :
  ws !! i = Some w ->
  (count_workers f (<[i := w']> ws) + (if f w then 1 else 0) =
   count_workers f ws + (if f w' then 1 else 0))%nat.
Proof.
  revert i. induction ws as [|x ws IH]; intros i Hi; [discriminate|].
  destruct i as [|i]; simpl in *.
  - injection Hi as ->. lia.
  - specialize (IH i Hi). lia.
Qed.

Lemma count_workers_le f ws : (count_workers f ws <= length ws)%nat.
Proof. induction ws as [|x ws IH]; simpl; [lia|]. destruct (f x); lia. Qed.

Lemma count_workers_lt f ws i w :
  ws !! i = Some w -> f w = false -> (count_workers f ws < length ws)%nat.
Proof.
  revert i. induction ws as [|x ws IH]; intros i Hi Hf; [discriminate|].
  destruct i as [|i]; simpl in *.
  - injection Hi as ->. rewrite Hf. pose proof (count_workers_le f ws). lia.
  - specialize (IH i Hi Hf). destruct (f x); lia.
Qed.

Lemma all_exited_count ws :
  all_exited ws = true <-> count_workers is_exited ws = length ws.
Proof.
  unfold all_exited. induction ws as [|x ws IH]; simpl; [tauto|].
  unfold is_exited at 1. pose proof (count_workers_le is_exited ws).
  destruct (w_pc x); simpl; rewrite ?IH; split; intros; try lia; try discriminate.
Qed.

Lemma not_all_exited ws :
  all_exited ws = false -> exists i w, ws !! i = Some w /\ is_exited w = false.
Proof.
  unfold all_exited. induction ws as [|x ws IH]; simpl; [discriminate|].
  destruct (is_exited x) eqn:Hx.
  - unfold is_exited in Hx. destruct (w_pc x); try discriminate. simpl.
    intros H. destruct (IH H) as (i & w & Hi & Hw). exists (S i), w. auto.
  - intros _. exists 0%nat, x. auto.
Qed.

Lemma sentinels_in_app l1 l2 :
  sentinels_in (l1 ++ l2) = (sentinels_in l1 + sentinels_in l2)%nat.
Proof.
  induction l1 as [|[u|] l1 IH]; simpl; rewrite ?IH; reflexivity.
Qed.

(** What holds of a worker at every moment. *)
Definition worker_ok (w : worker) : Prop :=
  w_pc w <> Failed /\
  (w_pc w = Exited -> w_sentinels w = 1%nat) /\
  (w_pc w <> Exited -> w_sentinels w = 0%nat) /\
  (w_sentinels w <= w_done w)%nat.

(** What holds of the pipeline at every moment. *)
Record pipeline_inv (k : nat) (p : pipeline) : Prop := mkPipelineInv {
  pi_workers : length (workers p) = k;
  pi_worker : forall i w, workers p !! i = Some w -> worker_ok w;
  pi_sentinels :
    (sentinels_in (items (queue p)) + count_workers is_exited (workers p))%nat
    = sentinels_sent p;
  pi_orchestrator :
    match orchestrator p with
    | AwaitCrawler => sentinels_sent p = 0%nat
    | Signal sent => sentinels_sent p = sent /\ (sent <= k)%nat /\ crawling p = false
    | AwaitWorkers => sentinels_sent p = k /\ crawling p = false
    | Completed => sentinels_sent p = k /\ crawling p = false
                   /\ all_exited (workers p) = true
    end;
  pi_unfinished :
    unfinished (queue p) =
    (length (items (queue p)) + count_workers is_scraping (workers p))%nat
}.

Lemma start_pipeline_inv k : pipeline_inv k (start_pipeline k).
Proof.
  unfold start_pipeline.
  assert (Hc : forall f, f (mkWorker AtGet 0 0) = false ->
                 count_workers f (repeat (mkWorker AtGet 0 0) k) = 0%nat).
  { intros f Hf. induction k as [|n IH]; simpl; [reflexivity|]. rewrite Hf, IH. reflexivity. }
  constructor; cbn [workers queue orchestrator sentinels_sent crawling items
                    unfinished new_queue]; auto.
  - apply repeat_length.
  - intros i w Hi. apply lookup_lt_Some in Hi as Hlt.
    assert (w = mkWorker AtGet 0 0) as ->.
    { apply list_elem_of_lookup_2 in Hi. apply list_elem_of_In in Hi.
      eapply repeat_spec; eauto. }
    unfold worker_ok. simpl. repeat split; auto; discriminate.
  - rewrite Hc; reflexivity.
  - rewrite Hc; reflexivity.
Qed.

(** A step of a worker keeps the invariant and lowers the measure. *)
Lemma worker_step_spec ok w q ws i :
  worker_ok w -> ws !! i = Some w ->
  unfinished q = (length (items q) + count_workers is_scraping ws)%nat ->
  forall w' q', worker_step ok w q = Some (w', q') ->
    worker_ok w' /\
    unfinished q' =
      (length (items q') + count_workers is_scraping (<[i := w']> ws))%nat /\
    (sentinels_in (items q') + count_workers is_exited (<[i := w']> ws) =
     sentinels_in (items q) + count_workers is_exited ws)%nat /\
    (2 * length (items q') + count_workers is_scraping (<[i := w']> ws) <
     2 * length (items q) + count_workers is_scraping ws)%nat.
Proof.
  intros (Hnf & Hex & Hnex & Hd) Hi Hun w' q' Hstep.
  pose proof (count_workers_insert is_scraping ws i w w' Hi) as Hs.
  pose proof (count_workers_insert is_exited ws i w w' Hi) as He.
  unfold worker_step in Hstep.
  destruct (w_pc w) as [|url| |] eqn:Hpc; try discriminate.
  - replace (is_scraping w) with false in Hs
      by (unfold is_scraping; rewrite Hpc; reflexivity).
    replace (is_exited w) with false in He
      by (unfold is_exited; rewrite Hpc; reflexivity).
    assert (Hz : w_sentinels w = 0%nat) by (apply Hnex; discriminate).
    unfold get_url in Hstep. destruct (items q) as [|[url|] rest] eqn:Hitems;
      [discriminate | |].
    + injection Hstep as <- <-.
      change (is_scraping _) with true in Hs. change (is_exited _) with false in He.
      unfold worker_ok. cbn [w_pc w_sentinels w_done items unfinished length] in *.
      simpl. repeat split; auto; try discriminate; try lia; try congruence.
    + unfold task_done in Hstep. cbn [unfinished items visited locked] in Hstep.
      rewrite Hun in Hstep. simpl in Hstep. injection Hstep as <- <-.
      change (is_scraping _) with false in Hs. change (is_exited _) with true in He.
      unfold worker_ok. cbn [w_pc w_sentinels w_done items unfinished length] in *.
      simpl. repeat split; auto; try discriminate; try lia; try congruence.
  - replace (is_scraping w) with true in Hs
      by (unfold is_scraping; rewrite Hpc; reflexivity).
    replace (is_exited w) with false in He
      by (unfold is_exited; rewrite Hpc; reflexivity).
    assert (Hz : w_sentinels w = 0%nat) by (apply Hnex; discriminate).
    assert (Hpos : (1 <= count_workers is_scraping ws)%nat).
    { assert (Hlt : (count_workers (fun x => negb (is_scraping x)) ws < length ws)%nat).
      { apply (count_workers_lt _ ws i w Hi).
        unfold is_scraping. rewrite Hpc. reflexivity. }
      assert (Hsum : forall l, (count_workers (fun x => negb (is_scraping x)) l
                                + count_workers is_scraping l = length l)%nat).
      { induction l as [|x l IHl]; simpl; [reflexivity|]. destruct (is_scraping x); simpl; lia. }
      specialize (Hsum ws). lia. }
    unfold task_done in Hstep. rewrite Hun in Hstep.
    destruct (length (items q) + count_workers is_scraping ws)%nat as [|m] eqn:Hm; [lia|].
    injection Hstep as <- <-.
    change (is_scraping _) with false in Hs. change (is_exited _) with false in He.
    unfold worker_ok. cbn [w_pc w_sentinels w_done items unfinished length] in *.
    repeat split; auto; try discriminate; try lia; try congruence.
Qed.

Lemma pipeline_step_inv k a p p' :
  pipeline_inv k p -> pipeline_step k a p = Some p' -> pipeline_inv k p'.
Proof.
  intros Hinv Hstep. pose proof Hinv as [Hw Hok Hs Ho Hu].
  destruct a as [url| | |i ok]; simpl in Hstep.
  - destruct (crawling p) eqn:Hc; [|discriminate].
    destruct (URLQueue_add_url_async url (queue p)) as [q|] eqn:Hq.
    + injection Hstep as <-.
      apply add_url_async_spec in Hq as (norm & _ & Hq).
      constructor; cbn [workers queue orchestrator sentinels_sent crawling]; auto.
      * destruct Hq as [(_ & -> & _) | (_ & -> & _)]; [exact Hs|].
        rewrite sentinels_in_app. simpl. lia.
      * destruct Hq as [(_ & -> & -> & _) | (_ & -> & -> & _)]; [exact Hu|].
        rewrite length_app. simpl. lia.
    + injection Hstep as <-. exact Hinv.
  - destruct (crawling p) eqn:Hc; [|discriminate].
    injection Hstep as <-.
    constructor; cbn [workers queue orchestrator sentinels_sent crawling]; auto.
    destruct (orchestrator p); auto; intuition (try congruence; try discriminate).
  - unfold main_step in Hstep. destruct (orchestrator p) as [|sent| |] eqn:Horch.
    + destruct (crawling p) eqn:Hc; [discriminate|]. injection Hstep as <-.
      constructor; cbn [workers queue orchestrator sentinels_sent crawling]; auto.
      repeat split; auto. lia.
    + destruct Ho as (Hsent & Hle & Hc).
      destruct (Nat.ltb_spec sent k) as [Hlt|Hge]; injection Hstep as <-;
        constructor;
        cbn [workers queue orchestrator sentinels_sent crawling add_sentinel put
             items unfinished]; auto;
        rewrite ?sentinels_in_app, ?length_app; simpl; try lia.
      split; [lia | auto].
    + destruct (all_exited (workers p)) eqn:Hall; [|discriminate].
      injection Hstep as <-.
      constructor; cbn [workers queue orchestrator sentinels_sent crawling]; auto.
      destruct Ho. auto.
    + discriminate.
  - destruct (workers p !! i) as [w|] eqn:Hi; [|discriminate].
    destruct (worker_step ok w (queue p)) as [[w' q]|] eqn:Hws; [|discriminate].
    injection Hstep as <-.
    destruct (worker_step_spec ok w (queue p) (workers p) i
                (Hok i w Hi) Hi Hu w' q Hws) as (Hok' & Hu' & Hs' & _).
    constructor; cbn [workers queue orchestrator sentinels_sent crawling]; auto.
    + rewrite length_insert. exact Hw.
    + intros j wj Hj. destruct (decide (j = i)) as [->|Hne].
      * rewrite list_lookup_insert_eq in Hj by (eapply lookup_lt_Some; eauto).
        injection Hj as <-. exact Hok'.
      * rewrite list_lookup_insert_ne in Hj by congruence. eauto.
    + lia.
    + destruct (orchestrator p); auto.
      destruct Ho as (? & ? & Hall). exfalso.
      unfold all_exited in Hall.
      assert (Hin : In w (workers p))
        by (apply list_elem_of_In; eapply list_elem_of_lookup_2; eauto).
      pose proof (proj1 (List.forallb_forall _ _) Hall w Hin) as Hx.
      cbv beta in Hx.
      unfold worker_step in Hws.
      destruct (w_pc w); discriminate.
Qed.

Lemma run_inv k p acts p' :
  run k p acts p' -> pipeline_inv k p -> pipeline_inv k p'.
Proof.
  induction 1 as [|p a p1 acts p2 Hstep _ IH]; intros Hinv; [exact Hinv|].
  apply IH. eapply pipeline_step_inv; eauto.
Qed.



Lemma run_actions_run (k : nat) (acts : list pipeline_action) (p p' : pipeline) :
  run_actions k acts p = Some p' -> run k p acts p'.
Proof.
  revert p. induction acts as [|a acts IH]; intros p; cbn [run_actions].
  - intros [= <-]. constructor.
  - destruct (pipeline_step k a p) as [p1|] eqn:Hstep; [|discriminate].
    intros Hrest. econstructor; [exact Hstep | apply IH, Hrest].
Qed.

(** No deadlock: a pipeline that cannot move has completed. *)
Lemma stuck_completed k p :
  pipeline_inv k p -> stuck k p ->
  crawling p = false /\ orchestrator p = Completed.
Proof.
  intros [Hw Hok Hs Ho Hu] Hstuck.
  assert (Hc : crawling p = false).
  { specialize (Hstuck CrawlerExit). simpl in Hstuck.
    destruct (crawling p); [discriminate | reflexivity]. }
  split; [exact Hc|].
  pose proof (Hstuck Orchestrate) as Hm. simpl in Hm. unfold main_step in Hm.
  destruct (orchestrator p) as [|sent| |] eqn:Horch; auto.
  - rewrite Hc in Hm. discriminate.
  - destruct (sent <? k)%nat; discriminate.
  - destruct (all_exited (workers p)) eqn:Hall; [discriminate|].
    exfalso. destruct (not_all_exited _ Hall) as (i & w & Hi & Hne).
    destruct (Hok i w Hi) as (Hnf & _).
    pose proof (Hstuck (Work i true)) as Hwk. simpl in Hwk. rewrite Hi in Hwk.
    unfold worker_step in Hwk. unfold is_exited in Hne.
    destruct (w_pc w) eqn:Hpc; try discriminate; try contradiction.
    + unfold get_url in Hwk.
      destruct (items (queue p)) as [|[url|] rest] eqn:Hitems; try discriminate.
      * assert (Hlt : (count_workers is_exited (workers p) < length (workers p))%nat).
        { apply (count_workers_lt _ _ i w Hi). unfold is_exited. rewrite Hpc. reflexivity. }
        destruct Ho as [Hsent _]. simpl in Hs. lia.
      * destruct (task_done _); discriminate.
    + destruct (task_done _); discriminate.
Qed.


(** *** Nothing is left behind *)

(** The scrape queue holds URLs first, sentinels last, and no URL once a
    worker has left its loop. *)
Definition sentinels_last (p : pipeline) : Prop :=
  exists us j,
    items (queue p) = (map Some us ++ repeat None j)%list /\
    ((0 < count_workers is_exited (workers p))%nat -> us = []).

Lemma sentinels_in_urls (us : list str) (j : nat) :
  sentinels_in (map Some us ++ repeat None j) = j.
Proof.
  rewrite sentinels_in_app.
  replace (sentinels_in (map Some us)) with 0%nat
    by (induction us; simpl; auto).
  induction j as [|j IH]; simpl in *; [reflexivity | f_equal; exact IH].
Qed.

Lemma all_exited_none_scraping ws :
  all_exited ws = true -> count_workers is_scraping ws = 0%nat.
Proof.
  unfold all_exited. induction ws as [|w ws IH]; simpl; [reflexivity|].
  intros [Hw Hws]%andb_prop. unfold is_scraping at 1.
  destruct (w_pc w); try discriminate Hw. apply IH, Hws.
Qed.

Lemma pipeline_step_order k a p p' :
  pipeline_inv k p -> sentinels_last p -> pipeline_step k a p = Some p' ->
  sentinels_last p'.
Proof.
  intros [Hw Hok Hs Ho Hu] (us & j & Hitems & Hus) Hstep.
  destruct a as [url| | |i ok]; cbn [pipeline_step] in Hstep.
  - destruct (crawling p) eqn:Hc; [|discriminate].
    assert (Hsent : sentinels_sent p = 0%nat).
    { destruct (orchestrator p) as [|sent| |];
        [ exact Ho | destruct Ho as (_ & _ & Ho) | destruct Ho as (_ & Ho)
        | destruct Ho as (_ & Ho & _) ]; discriminate Ho. }
    rewrite Hitems, sentinels_in_urls, Hsent in Hs.
    assert (j = 0%nat) as -> by lia.
    destruct (URLQueue_add_url_async url (queue p)) as [q|] eqn:Hadd.
    + injection Hstep as <-. unfold sentinels_last. cbn [queue workers].
      apply add_url_async_spec in Hadd
        as (norm & _ & [(_ & Hi & _) | (_ & Hi & _)]); rewrite Hi, Hitems.
      * exists us, 0%nat. split; [reflexivity | exact Hus].
      * exists (us ++ [norm])%list, 0%nat. cbn [repeat].
        rewrite !app_nil_r, map_app. split; [reflexivity | lia].
    + injection Hstep as <-. exists us, 0%nat. auto.
  - destruct (crawling p); [|discriminate]. injection Hstep as <-.
    exists us, j. auto.
  - unfold main_step in Hstep. destruct (orchestrator p) as [|sent| |].
    + destruct (crawling p); [discriminate|]. injection Hstep as <-. exists us, j. auto.
    + destruct (sent <? k)%nat; injection Hstep as <-; [|exists us, j; auto].
      exists us, (S j). cbn [queue workers add_sentinel put items].
      rewrite Hitems, <- app_assoc. split; [|exact Hus].
      f_equal. clear. induction j as [|j IH]; [reflexivity|].
      cbn [repeat app]. rewrite IH. reflexivity.
    + destruct (all_exited (workers p)); [|discriminate]. injection Hstep as <-.
      exists us, j. auto.
    + discriminate.
  - destruct (workers p !! i) as [w|] eqn:Hi; [|discriminate].
    destruct (worker_step ok w (queue p)) as [[w' q']|] eqn:Hwork; [|discriminate].
    injection Hstep as <-. unfold sentinels_last. cbn [queue workers].
    pose proof (count_workers_insert is_exited (workers p) i w w' Hi) as Hcount.
    unfold worker_step in Hwork. destruct (w_pc w) eqn:Hpc; try discriminate.
    + unfold get_url in Hwork. rewrite Hitems in Hwork.
      destruct us as [|u us'].
      * destruct j as [|j']; [discriminate|]. cbn [map app repeat] in Hwork.
        exists [], j'.
        destruct (task_done _) as [q1|] eqn:Hdone in Hwork; injection Hwork as <- <-.
        -- unfold task_done in Hdone. cbn [unfinished] in Hdone.
           destruct (unfinished (queue p)); [discriminate|]. injection Hdone as <-.
           cbn [items]. auto.
        -- cbn [items]. auto.
      * cbn [map app] in Hwork. injection Hwork as Hw' <-. cbn [items].
        exists us', j. split; [reflexivity|]. intros Hpos.
        assert (Hx : is_exited w = false) by (unfold is_exited; rewrite Hpc; reflexivity).
        assert (Hx' : is_exited w' = false) by (rewrite <- Hw'; reflexivity).
        rewrite Hx, Hx' in Hcount.
        assert (u :: us' = []) by (apply Hus; lia). discriminate.
    + exists us, j.
      assert (Hq : items q' = items (queue p) /\ is_exited w' = false).
      { unfold task_done in Hwork. destruct (unfinished (queue p));
          injection Hwork as <- <-; auto. }
      destruct Hq as [-> Hx']. split; [exact Hitems|].
      assert (Hx : is_exited w = false) by (unfold is_exited; rewrite Hpc; reflexivity).
      rewrite Hx, Hx' in Hcount.
      intros Hpos. apply Hus. lia.
Qed.

Lemma run_order k p acts p' :
  run k p acts p' -> pipeline_inv k p -> sentinels_last p -> sentinels_last p'.
Proof.
  induction 1 as [|p a p1 acts p2 Hstep _ IH]; intros Hinv Hord; [exact Hord|].
  apply IH; [eapply pipeline_step_inv | eapply pipeline_step_order]; eauto.
Qed.

(** With at least one worker, the pool leaves nothing behind: when the
    orchestrator completes, or the pipeline comes to rest, the scrape queue
    is empty and has no unfinished task, so every URL that the crawler has
    pushed was taken by a worker, which called [task_done] for it. *)
Theorem shutdown_drains_queue (k : nat) (acts : list pipeline_action) (p : pipeline) :
  (1 <= k)%nat ->
  run k (start_pipeline k) acts p ->
  orchestrator p = Completed \/ stuck k p ->
  items (queue p) = [] /\ unfinished (queue p) = 0%nat.
Proof.
  intros Hk Hrun Hend.
  assert (Hinv : pipeline_inv k p) by (eapply run_inv; eauto using start_pipeline_inv).
  assert (Hord : sentinels_last p).
  { eapply run_order; eauto using start_pipeline_inv.
    exists [], 0%nat. split; [reflexivity | auto]. }
  assert (Hdone : orchestrator p = Completed).
  { destruct Hend as [H|H]; [exact H | apply (stuck_completed k p Hinv H)]. }
  destruct Hinv as [Hw _ Hs Ho Hu]. rewrite Hdone in Ho.
  destruct Ho as (Hsent & _ & Hall).
  destruct Hord as (us & j & Hitems & Hus).
  pose proof (proj1 (all_exited_count _) Hall) as Hcount.
  rewrite Hitems, sentinels_in_urls in Hs.
  assert (j = 0%nat) as -> by lia.
  rewrite (Hus ltac:(lia)) in Hitems. cbn in Hitems.
  rewrite Hu, Hitems, (all_exited_none_scraping _ Hall). auto.
Qed.

(** ** A queue used by one task *)

Lemma urls_in_app (l1 l2 : list (option str)) :
  urls_in (l1 ++ l2) = (urls_in l1 ++ urls_in l2)%list.
Proof.
  induction l1 as [|[u|] l1 IH]; simpl; rewrite ?IH; reflexivity.
Qed.

(** What holds of a queue and of what it has handed out, after [d] calls
    of [task_done]. *)
Definition queue_inv (d : nat) (s : URLQueue * list (option str)) : Prop :=
  let '(q, got) := s in
  NoDup (urls_in (got ++ items q)) /\
  (forall u, u ∈ visited q <-> In u (urls_in (got ++ items q))) /\
  (unfinished q + d = length got + length (items q))%nat /\
  locked q = false.

Lemma check_and_put_inv d norm q got :
  queue_inv d (q, got) -> queue_inv d (check_and_put (Some norm) norm q, got).
Proof.
  intros (Hnd & Hv & Hu & Hl). unfold check_and_put.
  case_bool_decide as Hin; [repeat split; auto; apply Hv|].
  unfold queue_inv. cbn [visited_add put items unfinished visited locked].
  rewrite app_assoc, urls_in_app, length_app. cbn [urls_in length].
  split; [|split; [|split; [lia | exact Hl]]].
  - apply NoDup_app. split; [exact Hnd|]. split; [|repeat constructor; intros []%elem_of_nil].
    intros u Hu1 Hu2%list_elem_of_singleton. subst u.
    apply Hin, Hv, list_elem_of_In, Hu1.
  - intros u. rewrite elem_of_union, elem_of_singleton, in_app_iff, Hv.
    cbn [In]. intuition.
Qed.

Lemma queue_step_inv d op s s' :
  queue_inv d s -> queue_step op s = Some s' ->
  queue_inv (d + (if is_task_done_op op then 1 else 0)) s'.
Proof.
  destruct s as [q got]. intros Hinv. pose proof Hinv as (Hnd & Hv & Hu & Hl).
  destruct op as [url|url| | |]; cbn [queue_step is_task_done_op];
    rewrite ?Nat.add_0_r.
  - unfold add_url. destruct (normalize_url url) as [norm|]; [|discriminate].
    intros [= <-]. apply check_and_put_inv, Hinv.
  - unfold URLQueue_add_url_async, add_url_async.
    destruct (normalize_url url) as [norm|]; [|discriminate]. intros [= <-].
    assert (Hsame : set_lock false (check_and_put (Some norm) norm (set_lock true q))
                    = check_and_put (Some norm) norm q).
    { unfold check_and_put, set_lock, visited_add, put. cbn [visited items unfinished locked].
      destruct q as [i n v l]. cbn in Hl. subst l. cbn.
      destruct (bool_decide (norm ∈ v)); reflexivity. }
    rewrite Hsame. apply check_and_put_inv, Hinv.
  - intros [= <-]. unfold queue_inv, add_sentinel, put.
    cbn [items unfinished visited locked].
    rewrite app_assoc, urls_in_app, length_app. cbn [urls_in length].
    rewrite app_nil_r. repeat split; auto; try apply Hv. lia.
  - unfold get_url. destruct (items q) as [|x rest] eqn:Hitems; [discriminate|].
    intros [= <-]. unfold queue_inv. cbn [items unfinished visited locked].
    rewrite <- app_assoc, length_app. cbn [app length].
    repeat split; auto; try apply Hv. cbn [length] in Hu. lia.
  - unfold task_done. destruct (unfinished q) as [|n] eqn:Hn; [discriminate|].
    intros [= <-]. unfold queue_inv. cbn [items unfinished visited locked].
    repeat split; auto; try apply Hv. lia.
Qed.

Lemma run_ops_inv ops :
  forall d s s', queue_inv d s -> run_ops ops s = Some s' ->
    queue_inv (d + length (List.filter is_task_done_op ops)) s'.
Proof.
  induction ops as [|op ops IH]; intros d s s' Hinv; cbn [run_ops].
  - intros [= <-]. cbn. rewrite Nat.add_0_r. exact Hinv.
  - destruct (queue_step op s) as [s1|] eqn:Hstep; [|discriminate].
    intros Hrun. pose proof (IH _ _ _ (queue_step_inv d op s s1 Hinv Hstep) Hrun) as H.
    cbn [List.filter]. destruct (is_task_done_op op); cbn [length];
      [replace (d + S (length (List.filter is_task_done_op ops)))%nat
         with (d + 1 + length (List.filter is_task_done_op ops))%nat by lia
      |rewrite Nat.add_0_r in H]; exact H.
Qed.

(** A [URLQueue] used by one task, from its creation on, whatever the
    calls: no URL is handed out or queued twice; [get_visited()] is the set
    of the URLs handed out or queued; the unfinished tasks are the items
    put less the calls of [task_done]; the lock is free. *)
Theorem URLQueue_sequential (ops : list queue_op) (q : URLQueue)
    (got : list (option str)) :
  run_ops ops (new_queue, []) = Some (q, got) ->
  NoDup (urls_in (got ++ items q)) /\
  (forall u, u ∈ visited q <-> In u (urls_in (got ++ items q))) /\
  (unfinished q + length (List.filter is_task_done_op ops) =
   length got + length (items q))%nat /\
  locked q = false.
Proof.
  intros Hrun.
  assert (H0 : queue_inv 0 (new_queue, [])).
  { unfold queue_inv, new_queue. cbn. repeat split; auto; try constructor.
    - intros []%elem_of_empty.
    - intros []. }
  exact (run_ops_inv ops 0%nat _ _ H0 Hrun).
Qed.

(** ** The database of a site, the kind of a page *)

Lemma endswith_app_slash (a b : str) :
  b <> "" -> endswith (a ++ b) "/" = endswith b "/".
Proof.
  intros Hb. induction a as [|c a IH]; [reflexivity|].
  rewrite str_app_cons, endswith_cons; [exact IH|].
  destruct a; [exact Hb | discriminate].
Qed.

(** The database of a site is a file of the directory [data] of the
    project, whatever the seed URL is: the name made from the host has no
    [/] and no [:] in it and is not empty. *)
Theorem db_path_in_data (project_root seed_url db_path : str) :
  _db_path_for_site project_root seed_url = Some db_path ->
  exists host,
    site_host seed_url = Some host /\
    db_path = posix_join project_root "data" ++ "/" ++ host ++ ".scraper.db" /\
    host <> "" /\ contains "/" host = false /\ contains ":" host = false.
Proof.
  unfold _db_path_for_site. destruct (site_host seed_url) as [host|] eqn:Hhost;
    [|discriminate].
  intros [= <-]. exists host. split; [reflexivity|].
  unfold site_host in Hhost. destruct (urlparse seed_url) as [r|] eqn:Hparse;
    [|discriminate].
  injection Hhost as Hhost.
  assert (Hnetloc : forallb_str netloc_char (netloc r) = true).
  { unfold urlparse in Hparse. destruct (urlsplit seed_url) as [sr|] eqn:Hsplit;
      [|discriminate].
    destruct (urlsplit_spec seed_url sr Hsplit) as (_ & Hnc & _).
    destruct (if str_in (split_scheme sr) uses_params && contains ";" (split_path sr)
              then _splitparams (split_path sr) else (split_path sr, ""));
      injection Hparse as <-; exact Hnc. }
  subst host.
  match goal with |- context [replace_char ":" "_" ?x] => set (n := x) end.
  assert (Hn : forallb_str netloc_char n = true /\ n <> "").
  { subst n. destruct (String.eqb_spec (netloc r) ""); [split; [reflexivity | discriminate]|].
    split; assumption. }
  destruct Hn as [Hnc Hne]. clearbody n.
  remember (replace_char ":" "_" n) as host eqn:Hhost. symmetry in Hhost.
  assert (Hslash : contains "/" host = false).
  { subst host. apply contains_false, forallb_str_replace_char; [reflexivity|].
    eapply forallb_str_impl; [|exact Hnc]. intros c. unfold netloc_char.
    rewrite (Ascii.eqb_sym c "/"). destruct (Ascii.eqb "/" c); [discriminate | auto]. }
  assert (Hcolon : contains ":" host = false)
    by (subst host; apply contains_false, replace_char_removes; reflexivity).
  assert (Hhne : host <> "") by (subst host; destruct n; [contradiction | cbn [replace_char]; discriminate]).
  split; [|auto].
  unfold posix_join at 1.
  assert (Hsw : startswith (host ++ ".scraper.db") "/" = false).
  { destruct host as [|c h]; [contradiction|]. cbn [contains] in Hslash.
    apply orb_false_elim in Hslash as [Hc _].
    rewrite str_app_cons, startswith_cons, Hc. reflexivity. }
  rewrite Hsw.
  assert (Hdata : String.eqb (posix_join project_root "data") "" = false /\
                  endswith (posix_join project_root "data") "/" = false).
  { unfold posix_join. change (startswith "data" "/") with false. cbn iota.
    destruct (String.eqb project_root "" || endswith project_root "/").
    - split; [destruct project_root; reflexivity|].
      rewrite endswith_app_slash by discriminate. reflexivity.
    - split; [destruct project_root; reflexivity|].
      rewrite endswith_app_slash by discriminate. reflexivity. }
  destruct Hdata as [-> ->]. reflexivity.
Qed.

(** The kind of a page depends on the path only, whatever the case of its
    letters: a fragment added to the URL does not change it, and a page is a
    home page exactly for the paths [""], ["/"] and ["/home"], none of
    which has a word of a blog or of a shop in it. *)
Theorem extract_page_type_path (url f : str) :
  (contains "#" url = false ->
   extract_page_type (url ++ "#" ++ f) = extract_page_type url) /\
  (extract_page_type url = Some "homepage" <->
   exists r, urlparse url = Some r /\
             (lower (path r) = "" \/ lower (path r) = "/" \/ lower (path r) = "/home")).
Proof.
  split.
  - intros Hu. change ("#" ++ f) with (String "#" f). unfold extract_page_type.
    rewrite (urlparse_fragment url f Hu). destruct (urlparse url); reflexivity.
  - unfold extract_page_type. destruct (urlparse url) as [r|]; [|split;
      [discriminate | intros (r & Hr & _); discriminate]].
    split.
    + destruct (existsb (fun x => contains_str x (lower (path r)))
                        ["blog"; "article"; "post"]); [discriminate|].
      destruct (existsb (fun x => contains_str x (lower (path r)))
                        ["product"; "item"; "shop"]); [discriminate|].
      destruct (str_in (lower (path r)) [""; "/"; "/home"]) eqn:Hin; [|discriminate].
      intros _. exists r. split; [reflexivity|].
      unfold str_in in Hin. cbn [existsb] in Hin.
      apply orb_prop in Hin as [H|H]; [left; apply String.eqb_eq, H|].
      apply orb_prop in H as [H|H]; [right; left; apply String.eqb_eq, H|].
      apply orb_prop in H as [H|H]; [right; right; apply String.eqb_eq, H | discriminate].
    + intros (r' & [= <-] & [-> | [-> | ->]]); reflexivity.
Qed.

End WithHostValidation.


(** * Properties *)

(** ** Rounding to a float

    What [float_of_int] and [float_add] do to numbers below [2^53] in
    size, where every integer is a float. *)

Lemma digits2_pos_spec (p : positive) :
  (2 ^ (Z.pos (digits2_pos p) - 1) <= Z.pos p < 2 ^ Z.pos (digits2_pos p))%Z.
Proof.
  induction p as [p IH|p IH|]; cbn [digits2_pos].
  - rewrite Pos2Z.inj_succ.
    replace (Z.succ (Z.pos (digits2_pos p)) - 1)%Z with (Z.succ (Z.pos (digits2_pos p) - 1))%Z by lia.
    rewrite !Z.pow_succ_r by lia. lia.
  - rewrite Pos2Z.inj_succ.
    replace (Z.succ (Z.pos (digits2_pos p)) - 1)%Z with (Z.succ (Z.pos (digits2_pos p) - 1))%Z by lia.
    rewrite !Z.pow_succ_r by lia. lia.
  - cbn. lia.
Qed.

Lemma iter_pos_comm {A : Type} (f : A -> A) (n : positive) :
  forall x, SpecFloat.iter_pos f n (f x) = f (SpecFloat.iter_pos f n x).
Proof.
  induction n as [n IH|n IH|]; intros x; cbn [SpecFloat.iter_pos].
  - rewrite !IH. reflexivity.
  - rewrite !IH. reflexivity.
  - reflexivity.
Qed.

Lemma iter_pos_nat {A : Type} (f : A -> A) (n : positive) :
  forall x, SpecFloat.iter_pos f n x = Nat.iter (Pos.to_nat n) f x.
Proof.
  induction n as [n IH|n IH|]; intros x; cbn [SpecFloat.iter_pos].
  - replace (Pos.to_nat n~1) with (S (Pos.to_nat n + Pos.to_nat n)) by lia.
    rewrite Nat.iter_succ, Nat.iter_add, !iter_pos_comm, !IH. reflexivity.
  - replace (Pos.to_nat n~0) with (Pos.to_nat n + Pos.to_nat n)%nat by lia.
    rewrite Nat.iter_add, !IH. reflexivity.
  - reflexivity.
Qed.

Lemma shr_1_nonneg (m : Z) (r s : bool) :
  (0 <= m)%Z ->
  shr_1 (Build_shr_record m r s) = Build_shr_record (m / 2) (Z.odd m) (r || s).
Proof.
  intros Hm. rewrite <- Z.div2_div.
  destruct m as [|[p|p|]|p]; try lia; reflexivity.
Qed.

Lemma shr_iter (k : nat) (m : Z) :
  (0 <= m)%Z ->
  exists r s,
    Nat.iter k shr_1 (Build_shr_record m false false)
    = Build_shr_record (m / 2 ^ Z.of_nat k) r s /\
    ((m mod 2 ^ Z.of_nat k = 0)%Z -> r = false /\ s = false).
Proof.
  intros Hm. induction k as [|k (r & s & IH & Hex)].
  - exists false, false. change (Nat.iter 0 shr_1 ?x) with x. rewrite Z.div_1_r. auto.
  - rewrite Nat.iter_succ, IH.
    assert (Hq : (0 <= m / 2 ^ Z.of_nat k)%Z) by (apply Z.div_pos; lia).
    rewrite shr_1_nonneg by exact Hq.
    exists (Z.odd (m / 2 ^ Z.of_nat k)), (r || s).
    rewrite Nat2Z.inj_succ, Z.pow_succ_r by lia.
    split.
    + f_equal. rewrite Z.mul_comm, <- Z.div_div by lia. reflexivity.
    + intros Hmod.
      assert (H2k : (0 < 2 ^ Z.of_nat k)%Z) by lia.
      pose proof (Z.div_mod m (2 * 2 ^ Z.of_nat k) ltac:(lia)) as Hdm.
      rewrite Hmod in Hdm.
      assert (Hm' : (m = 2 ^ Z.of_nat k * (2 * (m / (2 * 2 ^ Z.of_nat k))))%Z) by lia.
      assert (Hmodk : (m mod 2 ^ Z.of_nat k = 0)%Z).
      { rewrite Hm' at 1. rewrite Z.mul_comm. apply Z_mod_mult. }
      destruct (Hex Hmodk) as [-> ->].
      split; [|reflexivity].
      rewrite Hm' at 1. rewrite Z.mul_comm, Z_div_mult by lia.
      rewrite Z.odd_mul. reflexivity.
Qed.

Lemma shr_pos (n : positive) (m e : Z) :
  (0 <= m)%Z ->
  exists r s,
    shr (Build_shr_record m false false) e (Z.pos n)
    = (Build_shr_record (m / 2 ^ Z.pos n) r s, (e + Z.pos n)%Z) /\
    ((m mod 2 ^ Z.pos n = 0)%Z -> r = false /\ s = false).
Proof.
  intros Hm. cbn [shr]. rewrite iter_pos_nat.
  destruct (shr_iter (Pos.to_nat n) m Hm) as (r & s & H & Hex).
  rewrite positive_nat_Z in *. exists r, s. rewrite H. auto.
Qed.

Lemma shr_nonneg (n m e : Z) :
  (0 <= m)%Z -> (0 <= n)%Z ->
  exists r s,
    shr (Build_shr_record m false false) e n
    = (Build_shr_record (m / 2 ^ n) r s, (e + n)%Z) /\
    ((m mod 2 ^ n = 0)%Z -> r = false /\ s = false).
Proof.
  intros Hm Hn. destruct n as [|n|n]; [|apply shr_pos; exact Hm | lia].
  exists false, false. cbn [shr]. rewrite Z.pow_0_r, Z.div_1_r, Z.add_0_r. auto.
Qed.

Lemma shr_nonpos (mrs : shr_record) (n e : Z) :
  (n <= 0)%Z -> shr mrs e n = (mrs, e).
Proof. intros Hn. destruct n; [reflexivity | lia | reflexivity]. Qed.

Lemma round_nearest_even_bounds (q : Z) (r s : bool) :
  let q' := round_nearest_even q (loc_of_shr_record (Build_shr_record q r s)) in
  (q <= q' <= q + 1)%Z /\ (r = false /\ s = false -> q' = q).
Proof.
  destruct r, s; cbn [loc_of_shr_record round_nearest_even]; cbv zeta;
    try destruct (Z.even q); split; try lia; intros [? ?]; congruence.
Qed.

Lemma fexp_eq (e : Z) : fexp prec emax e = Z.max (e - 53) (-1074).
Proof. reflexivity. Qed.

Lemma round_aux_bounds (s : bool) (m : positive) (e lo hi : Z) :
  (e <= fexp prec emax (Z.pos (digits2_pos m) + e))%Z ->
  (0 <= lo)%Z -> (hi < 2 ^ 53)%Z ->
  (lo * 2 ^ (- e) <= Z.pos m <= hi * 2 ^ (- e))%Z ->
  match binary_round_aux prec emax s (Z.pos m) e loc_Exact with
  | S754_zero s' => s' = s /\ lo = 0%Z
  | S754_finite s' m' e' =>
      s' = s /\ (e' <= 0)%Z /\
      (lo * 2 ^ (- e') <= Z.pos m' <= hi * 2 ^ (- e'))%Z
  | _ => False
  end.
Proof.
  intros He Hlo Hhi [Hlm Hmh].
  pose proof (digits2_pos_spec m) as [Hd1 Hd2].
  set (d := Z.pos (digits2_pos m)) in *.
  assert (He0 : (e <= 0)%Z).
  { destruct (Z_le_gt_dec e 0) as [|Hpos]; [assumption|].
    rewrite Z.pow_neg_r in Hmh by lia. lia. }
  assert (Hde : (d + e <= 53)%Z).
  { assert (Hlt : (2 ^ (d - 1) < 2 ^ (53 - e))%Z).
    { replace (53 - e)%Z with (53 + - e)%Z by lia. rewrite Z.pow_add_r by lia.
      assert (0 < 2 ^ (- e))%Z by (apply Z.pow_pos_nonneg; lia). nia. }
    apply Z.pow_lt_mono_r_iff in Hlt; lia. }
  rewrite fexp_eq in He.
  set (E := Z.max (d + e - 53) (-1074)) in *.
  assert (HE0 : (E <= 0)%Z) by lia.
  assert (HEmin : (-1074 <= E)%Z) by lia.
  set (n := (E - e)%Z).
  assert (Hn : (0 <= n)%Z) by lia.
  assert (H2n : (0 < 2 ^ n)%Z) by (apply Z.pow_pos_nonneg; lia).
  assert (H2E : (0 < 2 ^ (- E))%Z) by (apply Z.pow_pos_nonneg; lia).
  assert (Hpow : (2 ^ (- e) = 2 ^ (- E) * 2 ^ n)%Z).
  { rewrite <- Z.pow_add_r by lia. f_equal. lia. }
  unfold binary_round_aux, shr_fexp.
  cbn [shr_record_of_loc Zdigits2]. rewrite fexp_eq. fold d. fold E. fold n.
  destruct (shr_nonneg n (Z.pos m) e ltac:(lia) Hn) as (r & s0 & -> & Hex).
  cbn [shr_m].
  pose proof (round_nearest_even_bounds (Z.pos m / 2 ^ n) r s0) as Hq'.
  cbv zeta in Hq'.
  set (q := (Z.pos m / 2 ^ n)%Z) in *.
  set (q' := round_nearest_even q _) in *.
  destruct Hq' as [[Hq1 Hq2] Hqex].
  replace (e + n)%Z with E by lia.
  assert (Hq0 : (0 <= q)%Z) by (apply Z.div_pos; lia).
  assert (HLq : (lo * 2 ^ (- E) <= q)%Z).
  { apply Z.div_le_lower_bound; [lia|]. rewrite Hpow in Hlm. lia. }
  assert (HqH : (q' <= hi * 2 ^ (- E))%Z).
  { assert (Hq_le : (q <= hi * 2 ^ (- E))%Z).
    { apply Z.div_le_upper_bound; [lia|]. rewrite Hpow in Hmh. lia. }
    destruct (Z.eq_dec q (hi * 2 ^ (- E))%Z) as [Heq|Hne]; [|lia].
    rewrite Hqex; [lia|]. apply Hex.
    assert (Hm_eq : Z.pos m = (q * 2 ^ n)%Z).
    { pose proof (Z.mul_div_le (Z.pos m) (2 ^ n) H2n) as Hle. fold q in Hle.
      rewrite Hpow in Hmh. rewrite Heq in *. lia. }
    rewrite Hm_eq. apply Z_mod_mult. }
  assert (Hq53 : (q < 2 ^ 53)%Z).
  { apply Z.div_lt_upper_bound; [lia|].
    assert (Hdn : (d <= 53 + n)%Z) by lia.
    assert (Hle : (2 ^ d <= 2 ^ (53 + n))%Z) by (apply Z.pow_le_mono_r; lia).
    rewrite Z.pow_add_r in Hle by lia. lia. }
  clearbody q'. clear Hqex Hex.
  destruct q' as [|p'|p']; [| |lia].
  - (* the mantissa rounds to zero *)
    cbn [shr_record_of_loc Zdigits2]. rewrite fexp_eq.
    rewrite shr_nonpos by lia. cbn [shr_m].
    split; [reflexivity|]. nia.
  - pose proof (digits2_pos_spec p') as [Hp1 Hp2].
    cbn [shr_record_of_loc Zdigits2]. rewrite fexp_eq.
    set (d' := Z.pos (digits2_pos p')) in *.
    assert (Hd' : (d' <= 54)%Z).
    { assert (Hlt : (2 ^ (d' - 1) < 2 ^ 54)%Z) by (change (2 ^ 54)%Z with (2 * 2 ^ 53)%Z; lia).
      apply Z.pow_lt_mono_r_iff in Hlt; lia. }
    destruct (Z_le_gt_dec d' 53) as [Hsmall|Hbig].
    + rewrite shr_nonpos by lia. cbn [shr_m].
      replace (E <=? emax - prec)%Z with true
        by (symmetry; apply Z.leb_le; unfold emax, prec; lia).
      split; [reflexivity|]. split; [exact HE0|]. lia.
    + assert (Hd54 : d' = 54%Z) by lia.
      assert (Hp' : Z.pos p' = (2 ^ 53)%Z).
      { rewrite Hd54 in Hp1. change (2 ^ (54 - 1))%Z with (2 ^ 53)%Z in Hp1. lia. }
      assert (HEneg : (E < 0)%Z).
      { destruct (Z.eq_dec E 0%Z) as [HE|]; [|lia].
        rewrite HE in HqH. change (2 ^ (- 0))%Z with 1%Z in HqH. lia. }
      replace (Z.max (d' + E - 53) (-1074) - E)%Z with 1%Z by lia.
      destruct (shr_nonneg 1 (Z.pos p') E ltac:(lia) ltac:(lia)) as (r1 & s1 & -> & _).
      cbn [shr_m]. rewrite Hp'.
      change (2 ^ 53 / 2 ^ 1)%Z with (Z.pos (2 ^ 52)).
      replace (E + 1 <=? emax - prec)%Z with true
        by (symmetry; apply Z.leb_le; unfold emax, prec; lia).
      split; [reflexivity|]. split; [lia|].
      assert (Hpow' : (2 ^ (- E) = 2 * 2 ^ (- (E + 1)))%Z).
      { rewrite <- Z.pow_succ_r by lia. f_equal. lia. }
      rewrite Hp', Hpow' in *.
      change (Z.pos (2 ^ 52)) with (2 ^ 52)%Z. change (2 ^ 53)%Z with (2 * 2 ^ 52)%Z in *.
      lia.
Qed.

Lemma iter_xO_spec (m d : positive) :
  Z.pos (Pos.iter xO m d) = (Z.pos m * 2 ^ Z.pos d)%Z /\
  Z.pos (digits2_pos (Pos.iter xO m d)) = (Z.pos (digits2_pos m) + Z.pos d)%Z.
Proof.
  induction d as [|d [IH1 IH2]] using Pos.peano_ind.
  - cbn [Pos.iter digits2_pos]. rewrite Pos2Z.inj_succ. split; lia.
  - rewrite Pos.iter_succ. cbn [digits2_pos].
    rewrite Pos2Z.inj_xO, !Pos2Z.inj_succ, IH1, IH2, Z.pow_succ_r by lia.
    split; lia.
Qed.

Lemma shl_align_spec (m : positive) (e e' : Z) :
  exists m1 e1,
    shl_align m e e' = (m1, e1) /\ e1 = Z.min e e' /\
    Z.pos m1 = (Z.pos m * 2 ^ (e - e1))%Z /\
    (Z.pos (digits2_pos m1) + e1 = Z.pos (digits2_pos m) + e)%Z.
Proof.
  unfold shl_align. destruct (e' - e)%Z as [|d|d] eqn:Hd.
  - exists m, e. repeat split; try lia. rewrite Z.sub_diag. lia.
  - exists m, e. repeat split; try lia. rewrite Z.sub_diag. lia.
  - destruct (iter_xO_spec m d) as [H1 H2].
    exists (Pos.iter xO m d), e'. repeat split; try lia.
    rewrite H1. f_equal. f_equal. lia.
Qed.

Lemma binary_round_bounds (s : bool) (m : positive) (e lo hi : Z) :
  (0 <= lo)%Z -> (hi < 2 ^ 53)%Z ->
  (lo * 2 ^ (- e) <= Z.pos m <= hi * 2 ^ (- e))%Z ->
  match binary_round prec emax s m e with
  | S754_zero s' => s' = s /\ lo = 0%Z
  | S754_finite s' m' e' =>
      s' = s /\ (e' <= 0)%Z /\
      (lo * 2 ^ (- e') <= Z.pos m' <= hi * 2 ^ (- e'))%Z
  | _ => False
  end.
Proof.
  intros Hlo Hhi [Hlm Hmh].
  assert (He0 : (e <= 0)%Z).
  { destruct (Z_le_gt_dec e 0) as [|Hpos]; [assumption|].
    rewrite Z.pow_neg_r in Hmh by lia. lia. }
  unfold binary_round.
  destruct (shl_align_spec m e (fexp prec emax (Z.pos (digits2_pos m) + e)))
    as (m1 & e1 & -> & He1 & Hm1 & Hd1).
  assert (Hpow : (2 ^ (- e1) = 2 ^ (- e) * 2 ^ (e - e1))%Z).
  { rewrite <- Z.pow_add_r by lia. f_equal. lia. }
  assert (0 < 2 ^ (e - e1))%Z by (apply Z.pow_pos_nonneg; lia).
  apply round_aux_bounds; [rewrite Hd1; lia | exact Hlo | exact Hhi |].
  rewrite Hm1, Hpow. split; nia.
Qed.

Lemma binary_normalize_bounds (S e lo hi : Z) :
  (- 2 ^ 53 < lo)%Z -> (hi < 2 ^ 53)%Z -> (e <= 0)%Z ->
  (lo * 2 ^ (- e) <= S <= hi * 2 ^ (- e))%Z ->
  between lo hi (binary_normalize prec emax S e false).
Proof.
  intros Hlo Hhi He [HlS HSh].
  assert (H2e : (0 < 2 ^ (- e))%Z) by (apply Z.pow_pos_nonneg; lia).
  destruct S as [|p|p]; cbn [binary_normalize].
  - cbn [between]. nia.
  - pose proof (binary_round_bounds false p e (Z.max lo 0) hi ltac:(lia) Hhi) as H.
    destruct (binary_round prec emax false p e) as [s'|s'| |s' m' e'];
      cbn [between].
    + destruct H as [_ H]; [nia|]. nia.
    + apply H. nia.
    + apply H. nia.
    + destruct H as (-> & He' & H1 & H2); [nia|].
      split; [exact He'|]. cbn [cond_Zopp].
      assert (0 < 2 ^ (- e'))%Z by (apply Z.pow_pos_nonneg; lia). nia.
  - pose proof (binary_round_bounds true p e (Z.max (- hi) 0) (- lo) ltac:(lia) ltac:(lia)) as H.
    destruct (binary_round prec emax true p e) as [s'|s'| |s' m' e'];
      cbn [between].
    + destruct H as [_ H]; [nia|]. nia.
    + apply H. nia.
    + apply H. nia.
    + destruct H as (-> & He' & H1 & H2); [nia|].
      split; [exact He'|]. cbn [cond_Zopp].
      assert (0 < 2 ^ (- e'))%Z by (apply Z.pow_pos_nonneg; lia). nia.
Qed.

Lemma scaled_bounds (lo hi v A P A' v0 : Z) :
  (0 <= P)%Z -> A' = (A * P)%Z -> v = (v0 * P)%Z ->
  (lo * A <= v0 <= hi * A)%Z ->
  (lo * A' <= v <= hi * A')%Z.
Proof. intros HP -> -> [H1 H2]. split; nia. Qed.

Lemma float_add_between (a b c d : Z) (x y : float) :
  between a b x -> between c d y ->
  (- 2 ^ 53 < a + c)%Z -> (b + d < 2 ^ 53)%Z ->
  between (a + c) (b + d) (float_add x y).
Proof.
  intros Hx Hy Hlo Hhi.
  destruct x as [sx|sx| |sx mx ex], y as [sy|sy| |sy my ey];
    cbn [between] in Hx, Hy; try contradiction.
  - assert (Hz : exists s, float_add (S754_zero sx) (S754_zero sy) = S754_zero s)
      by (destruct sx, sy; eexists; reflexivity).
    destruct Hz as [s ->]. cbn [between]. lia.
  - change (float_add (S754_zero sx) (S754_finite sy my ey)) with (S754_finite sy my ey).
    destruct Hy as [He Hy]. cbn [between]. split; [exact He|].
    assert (0 < 2 ^ (- ey))%Z by (apply Z.pow_pos_nonneg; lia). nia.
  - change (float_add (S754_finite sx mx ex) (S754_zero sy)) with (S754_finite sx mx ex).
    destruct Hx as [He Hx]. cbn [between]. split; [exact He|].
    assert (0 < 2 ^ (- ex))%Z by (apply Z.pow_pos_nonneg; lia). nia.
  - destruct Hx as [Hex Hx], Hy as [Hey Hy].
    unfold float_add. cbn [SFadd].
    set (ez := Z.min ex ey).
    destruct (shl_align_spec mx ex ez) as (m1 & e1 & -> & He1 & Hm1 & _).
    destruct (shl_align_spec my ey ez) as (m2 & e2 & -> & He2 & Hm2 & _).
    cbn [fst].
    assert (E1 : e1 = ez) by lia. assert (E2 : e2 = ez) by lia.
    clear He1 He2. subst e1 e2.
    assert (Hp1 : (2 ^ (- ez) = 2 ^ (- ex) * 2 ^ (ex - ez))%Z).
    { rewrite <- Z.pow_add_r by lia. f_equal. lia. }
    assert (Hp2 : (2 ^ (- ez) = 2 ^ (- ey) * 2 ^ (ey - ez))%Z).
    { rewrite <- Z.pow_add_r by lia. f_equal. lia. }
    assert (0 < 2 ^ (ex - ez))%Z by (apply Z.pow_pos_nonneg; lia).
    assert (0 < 2 ^ (ey - ez))%Z by (apply Z.pow_pos_nonneg; lia).
    apply binary_normalize_bounds; [exact Hlo | exact Hhi | lia |].
    assert (Hx' : (a * 2 ^ (- ez) <= cond_Zopp sx (Z.pos m1) <= b * 2 ^ (- ez))%Z).
    { apply (scaled_bounds _ _ _ (2 ^ (- ex)) (2 ^ (ex - ez)) _ (cond_Zopp sx (Z.pos mx)));
        [lia | exact Hp1 | rewrite Hm1; destruct sx; unfold cond_Zopp; lia | exact Hx]. }
    assert (Hy' : (c * 2 ^ (- ez) <= cond_Zopp sy (Z.pos m2) <= d * 2 ^ (- ez))%Z).
    { apply (scaled_bounds _ _ _ (2 ^ (- ey)) (2 ^ (ey - ez)) _ (cond_Zopp sy (Z.pos my)));
        [lia | exact Hp2 | rewrite Hm2; destruct sy; unfold cond_Zopp; lia | exact Hy]. }
    lia.
Qed.

Lemma float_of_int_exact (n : Z) :
  (- 2 ^ 53 < n < 2 ^ 53)%Z ->
  exists x, float_of_int n = Some x /\ between n n x.
Proof.
  intros Hn. unfold float_of_int.
  pose proof (binary_normalize_bounds n 0 n n ltac:(lia) ltac:(lia) ltac:(lia)) as H.
  change (2 ^ (- 0))%Z with 1%Z in H. specialize (H ltac:(lia)).
  destruct (binary_normalize prec emax n 0 false) as [s|s| |s m e];
    cbn [between] in H; try contradiction; eexists; (split; [reflexivity|]);
    cbn [between]; exact H.
Qed.

Lemma between_value (lo hi : Z) (x : float) :
  between lo hi x -> (inject_Z lo <= float_value x <= inject_Z hi)%Q.
Proof.
  destruct x as [s|s| |s m e]; cbn [between float_value]; try contradiction.
  - intros [H1 H2]. change 0%Q with (inject_Z 0).
    split; rewrite <- Zle_Qle; assumption.
  - intros [He [H1 H2]].
    set (M := cond_Zopp s (Z.pos m)) in *.
    assert (H2e : (0 < 2 ^ (- e))%Z) by (apply Z.pow_pos_nonneg; lia).
    assert (Hpow : (2 ^ e == / inject_Z (2 ^ (- e)))%Q).
    { rewrite Zpower_Qpower by lia.
      replace e with (- - e)%Z at 1 by lia. rewrite Qpower_opp. reflexivity. }
    rewrite Hpow.
    assert (Hpos : (0 < inject_Z (2 ^ (- e)))%Q) by (rewrite <- (Zlt_Qlt 0); exact H2e).
    split.
    + apply Qle_shift_div_l; [exact Hpos|].
      rewrite <- inject_Z_mult, <- Zle_Qle. exact H1.
    + apply Qle_shift_div_r; [exact Hpos|].
      rewrite <- inject_Z_mult, <- Zle_Qle. exact H2.
Qed.

Lemma in_unit_interval_between (x : float) :
  in_unit_interval x = true -> between 0 1 x.
Proof.
  destruct x as [s|s| |[|] m e]; cbn [in_unit_interval between]; try discriminate.
  - lia.
  - intros [He Hm]%andb_prop. apply Z.ltb_lt in He, Hm. cbn [cond_Zopp]. lia.
Qed.

Lemma int_add_float_bounds (n : Z) (r : float) :
  (- 2 ^ 53 < n < 2 ^ 53 - 1)%Z -> in_unit_interval r = true ->
  exists w, int_add_float n r = Some w /\
            (inject_Z n <= float_value w <= inject_Z (n + 1))%Q.
Proof.
  intros Hn Hr. unfold int_add_float.
  destruct (float_of_int_exact n ltac:(lia)) as (x & -> & Hx).
  eexists. split; [reflexivity|].
  apply between_value.
  pose proof (float_add_between n n 0 1 x r Hx (in_unit_interval_between r Hr)) as H.
  rewrite Z.add_0_r in H. apply H; lia.
Qed.

(** ** Retry *)

(** *** The wait of [int] operands *)

Lemma int_wait_expr {E : Type} (OverflowError : E) (delay backoff attempt : Z)
    (r : float) :
  wait_expr E Z float (int_arithmetic OverflowError) delay backoff attempt r =
  match int_add_float (delay * backoff ^ (attempt - 1)) r with
  | None => inl OverflowError
  | Some w => inr w
  end.
Proof. reflexivity. Qed.

Lemma int_add_float_converts (n : Z) (r : float) :
  int_add_float n r = None <-> float_of_int n = None.
Proof.
  unfold int_add_float. destruct (float_of_int n) as [x|].
  - split; discriminate.
  - split; reflexivity.
Qed.

(** *** The loop *)

Section RetryFacts.

Variables A E N W : Type.
Variable none : A.
Variable is_Exception : E -> bool.
Variable coro_func : nat -> outcome A E.
Variable uniform : nat -> float.
Variable arith : arithmetic N W E.

Let retry_loop' := retry_loop A E N W none is_Exception coro_func uniform arith.
Let retry_async' := retry_async A E N W none is_Exception coro_func uniform arith.
Let wait_expr' := wait_expr E N W arith.

(** The [k]-th call fails with an exception that [except Exception] catches. *)
Definition failing (k : nat) : Prop :=
  exists e, coro_func k = Raise e /\ is_Exception e = true.

(** Line 18 raises nothing when it computes the wait after call [k]. *)
Definition waits (delay backoff : N) (k : nat) : Prop :=
  exists w, wait_expr' delay backoff (Z.of_nat k + 1) (uniform k) = inr w.

(** What a failed attempt that is not the last leaves in the trace. *)
Definition failed_attempt (delay backoff : N) (k : nat) : list (retry_event E W) :=
  match coro_func k, wait_expr' delay backoff (Z.of_nat k + 1) (uniform k) with
  | Raise e, inr wait => [Call; Print (Z.of_nat k + 1) e wait; Sleep wait]
  | _, _ => [Call]
  end.

Lemma calls_made_app (tr1 tr2 : list (retry_event E W)) :
  calls_made (tr1 ++ tr2) = (calls_made tr1 + calls_made tr2)%nat.
Proof.
  unfold calls_made. rewrite List.filter_app, length_app. reflexivity.
Qed.

Lemma sleeps_made_app (tr1 tr2 : list (retry_event E W)) :
  sleeps_made (tr1 ++ tr2) = (sleeps_made tr1 + sleeps_made tr2)%nat.
Proof.
  unfold sleeps_made. rewrite List.filter_app, length_app. reflexivity.
Qed.

Lemma retry_loop_extends retries delay backoff n :
  forall attempt calls tr,
    exists s, snd (retry_loop' retries delay backoff n attempt calls tr) = (tr ++ s)%list
              /\ (calls_made s <= n)%nat
              /\ (n <> 0%nat -> exists s', s = Call :: s').
Proof.
  induction n as [|n IH]; intros attempt calls tr; unfold retry_loop'; cbn [retry_loop].
  - exists []. rewrite app_nil_r. repeat split; [cbn; lia | congruence].
  - destruct (coro_func calls) as [a|e].
    + exists [Call]. simpl. repeat split; [cbn; lia | eauto].
    + destruct (is_Exception e).
      * destruct (attempt =? retries)%Z.
        -- exists [Call]. simpl. repeat split; [cbn; lia | eauto].
        -- destruct (wait_expr E N W arith delay backoff attempt (uniform calls))
             as [x|wait].
           ++ exists [Call]. simpl. repeat split; [cbn; lia | eauto].
           ++ fold retry_loop'.
              destruct (IH (attempt + 1)%Z (S calls)
                          (tr ++ [Call; Print attempt e wait; Sleep wait])%list)
                as (s & Hs & Hc & _).
              eexists. rewrite Hs, <- app_assoc. split; [reflexivity|].
              split; [|intros _; simpl; eauto].
              rewrite calls_made_app. cbn. cbn in Hc. lia.
      * exists [Call]. simpl. repeat split; [cbn; lia | eauto].
Qed.

(** As long as the calls fail, the waits are computed and attempts are
    left, the loop goes on. *)
Lemma retry_loop_failing retries delay backoff m :
  forall n calls tr,
    (Z.of_nat (calls + m) < retries)%Z ->
    (forall i, (i < m)%nat -> failing (calls + i)) ->
    (forall i, (i < m)%nat -> waits delay backoff (calls + i)) ->
    retry_loop' retries delay backoff (m + n) (Z.of_nat calls + 1) calls tr =
    retry_loop' retries delay backoff n (Z.of_nat (calls + m) + 1) (calls + m)
      (tr ++ flat_map (failed_attempt delay backoff) (seq calls m))%list.
Proof.
  induction m as [|m IH]; intros n calls tr Hlt Hfail Hwait.
  - simpl. rewrite Nat.add_0_r, app_nil_r. reflexivity.
  - destruct (Hfail 0%nat ltac:(lia)) as (e & He & Hexc).
    destruct (Hwait 0%nat ltac:(lia)) as (w & Hw).
    rewrite Nat.add_0_r in He, Hw. unfold wait_expr' in Hw.
    cbn [Nat.add]. unfold retry_loop'. cbn [retry_loop]. rewrite He, Hexc, Hw.
    destruct (Z.eqb_spec (Z.of_nat calls + 1) retries) as [Heq|_]; [lia|].
    fold retry_loop'.
    replace (Z.of_nat calls + 1 + 1)%Z with (Z.of_nat (S calls) + 1)%Z by lia.
    rewrite IH.
    + replace (S calls + m)%nat with (calls + S m)%nat by lia.
      f_equal. rewrite <- app_assoc. f_equal.
      cbn [seq flat_map]. unfold failed_attempt at 2, wait_expr'. rewrite He, Hw.
      reflexivity.
    + lia.
    + intros i Hi. replace (S calls + i)%nat with (calls + S i)%nat by lia.
      apply Hfail. lia.
    + intros i Hi. replace (S calls + i)%nat with (calls + S i)%nat by lia.
      apply Hwait. lia.
Qed.

Lemma failed_attempts_length delay backoff m :
  forall c, (forall i, (i < m)%nat -> failing (c + i)) ->
  (forall i, (i < m)%nat -> waits delay backoff (c + i)) ->
  length (flat_map (failed_attempt delay backoff) (seq c m)) = (3 * m)%nat
  /\ calls_made (flat_map (failed_attempt delay backoff) (seq c m)) = m
  /\ sleeps_made (flat_map (failed_attempt delay backoff) (seq c m)) = m.
Proof.
  induction m as [|m IH]; intros c Hfail Hwait; [repeat split; reflexivity|].
  destruct (Hfail 0%nat ltac:(lia)) as (e & He & _).
  destruct (Hwait 0%nat ltac:(lia)) as (w & Hw).
  rewrite Nat.add_0_r in He, Hw.
  cbn [seq flat_map]. rewrite length_app, calls_made_app, sleeps_made_app.
  destruct (IH (S c)) as (Hl & Hc & Hs).
  { intros i Hi. replace (S c + i)%nat with (c + S i)%nat by lia. apply Hfail. lia. }
  { intros i Hi. replace (S c + i)%nat with (c + S i)%nat by lia. apply Hwait. lia. }
  rewrite Hl, Hc, Hs. unfold failed_attempt. rewrite He, Hw. cbn. repeat split; lia.
Qed.

Lemma failed_attempts_lookup delay backoff m :
  forall c i e w, (i < m)%nat ->
  (forall i, (i < m)%nat -> failing (c + i)) ->
  (forall i, (i < m)%nat -> waits delay backoff (c + i)) ->
  coro_func (c + i) = Raise e ->
  wait_expr' delay backoff (Z.of_nat (c + i) + 1) (uniform (c + i)) = inr w ->
  let tr := flat_map (failed_attempt delay backoff) (seq c m) in
  tr !! (3 * i)%nat = Some Call /\
  tr !! (3 * i + 1)%nat = Some (Print (Z.of_nat (c + i) + 1) e w) /\
  tr !! (3 * i + 2)%nat = Some (Sleep w).
Proof.
  induction m as [|m IH]; intros c i e w Hi Hfail Hwait He Hw; [lia|].
  cbn [seq flat_map].
  destruct (Hfail 0%nat ltac:(lia)) as (e0 & He0 & _).
  destruct (Hwait 0%nat ltac:(lia)) as (w0 & Hw0).
  rewrite Nat.add_0_r in He0, Hw0.
  destruct i as [|i].
  - rewrite Nat.add_0_r in *. unfold failed_attempt at 1 3 5. rewrite He, Hw. cbn. auto.
  - assert (Hlen : length (failed_attempt delay backoff c) = 3%nat).
    { unfold failed_attempt. rewrite He0, Hw0. reflexivity. }
    replace (c + S i)%nat with (S c + i)%nat in * by lia.
    destruct (IH (S c) i e w) as (H1 & H2 & H3); [lia| | |assumption|assumption|].
    { intros j Hj. replace (S c + j)%nat with (c + S j)%nat by lia. apply Hfail. lia. }
    { intros j Hj. replace (S c + j)%nat with (c + S j)%nat by lia. apply Hwait. lia. }
    rewrite !lookup_app_r by (rewrite Hlen; lia). rewrite Hlen.
    replace (3 * S i - 3)%nat with (3 * i)%nat by lia.
    replace (3 * S i + 1 - 3)%nat with (3 * i + 1)%nat by lia.
    replace (3 * S i + 2 - 3)%nat with (3 * i + 2)%nat by lia.
    auto.
Qed.

(** The run up to the call that ends it: [n] failed attempts, then call
    [n], which returns, raises something that is not caught, is the last
    attempt, or is followed by a wait that cannot be computed. *)
Lemma retry_async_ends retries delay backoff n :
  (Z.of_nat n < retries)%Z ->
  (forall i, (i < n)%nat -> failing i) ->
  (forall i, (i < n)%nat -> waits delay backoff i) ->
  let tr := (flat_map (failed_attempt delay backoff) (seq 0 n) ++ [Call])%list in
  calls_made tr = S n /\ sleeps_made tr = n /\
  ((forall e, coro_func n = Raise e -> is_Exception e = false) ->
   retry_async' retries delay backoff = (coro_func n, tr)) /\
  (forall e, coro_func n = Raise e -> is_Exception e = true ->
     (Z.of_nat n + 1 = retries)%Z ->
     retry_async' retries delay backoff = (Raise e, tr)) /\
  (forall x, failing n -> (Z.of_nat n + 1 < retries)%Z ->
     wait_expr' delay backoff (Z.of_nat n + 1) (uniform n) = inl x ->
     retry_async' retries delay backoff = (Raise x, tr)).
Proof.
  intros Hlt Hfail Hwait tr.
  destruct (failed_attempts_length delay backoff n 0%nat Hfail Hwait) as (_ & Hc & Hs).
  assert (Hstart : retry_async' retries delay backoff =
    retry_loop' retries delay backoff (S (Z.to_nat retries - n - 1)) (Z.of_nat n + 1) n
      (flat_map (failed_attempt delay backoff) (seq 0 n))).
  { unfold retry_async', retry_async. fold retry_loop'.
    replace (Z.to_nat retries) with (n + S (Z.to_nat retries - n - 1))%nat at 1 by lia.
    change 1%Z with (Z.of_nat 0 + 1)%Z at 1.
    rewrite retry_loop_failing; [reflexivity | simpl; lia | exact Hfail | exact Hwait]. }
  split; [|split; [|split; [|split]]].
  - subst tr. rewrite calls_made_app, Hc. cbn. lia.
  - subst tr. rewrite sleeps_made_app, Hs. cbn. lia.
  - intros Hlast. rewrite Hstart. unfold retry_loop'. cbn [retry_loop].
    destruct (coro_func n) as [a|e] eqn:Hn; [reflexivity|].
    rewrite (Hlast e eq_refl). reflexivity.
  - intros e He Hexc Heq. rewrite Hstart. unfold retry_loop'. cbn [retry_loop].
    rewrite He, Hexc.
    destruct (Z.eqb_spec (Z.of_nat n + 1) retries) as [_|Hne]; [reflexivity | lia].
  - intros x (e & He & Hexc) Hlt' Hx. rewrite Hstart. unfold retry_loop'. cbn [retry_loop].
    rewrite He, Hexc. unfold wait_expr' in Hx. rewrite Hx.
    destruct (Z.eqb_spec (Z.of_nat n + 1) retries) as [Heq|_]; [lia | reflexivity].
Qed.

(** C10.  With [retries <= 0] the loop body never runs, whatever [delay]
    and [backoff] are: the operation is not called, nothing is raised, and
    the result is the [None] that an operation returning [None] at its
    first call gives as well. *)
Theorem retry_async_no_attempts (retries : Z) (delay backoff : N) :
  (retries <= 0)%Z ->
  retry_async' retries delay backoff = (Return none, []) /\
  calls_made (snd (retry_async' retries delay backoff)) = 0%nat /\
  forall (op : nat -> outcome A E) (retries' : Z) (delay' backoff' : N),
    (1 <= retries')%Z -> op 0%nat = Return none ->
    fst (retry_async A E N W none is_Exception op uniform arith
           retries' delay' backoff') =
    fst (retry_async' retries delay backoff).
Proof.
  intros Hle.
  assert (H0 : retry_async' retries delay backoff = (Return none, [])).
  { unfold retry_async', retry_async.
    replace (Z.to_nat retries) with 0%nat by lia. reflexivity. }
  rewrite H0. split; [reflexivity|]. split; [reflexivity|].
  intros op retries' delay' backoff' Hpos Hop.
  unfold retry_async.
  destruct (Z.to_nat retries') as [|n] eqn:Hn; [lia|].
  cbn [retry_loop]. rewrite Hop. reflexivity.
Qed.

(** *** The call that ends the loop *)

(** [retry_async] ends at the first call that returns or that raises
    something [except Exception] does not catch, and at the first failed
    attempt after which line 18 raises.  When the first [n] calls fail,
    the waits after them are computed and [n < retries]: if call [n + 1]
    returns or raises something that is not caught, its outcome is the
    result; if it fails too, is not the last attempt and line 18 raises
    [x], the result is [x].  In both cases there have been [n + 1] calls
    and [n] sleeps, and nothing is printed or slept after the last call. *)
Theorem retry_async_first_outcome (retries : Z) (delay backoff : N) (n : nat) :
  (Z.of_nat n < retries)%Z ->
  (forall i, (i < n)%nat -> failing i) ->
  (forall i, (i < n)%nat -> waits delay backoff i) ->
  let tr := (flat_map (failed_attempt delay backoff) (seq 0 n) ++ [Call])%list in
  calls_made tr = S n /\ sleeps_made tr = n /\
  ((forall e, coro_func n = Raise e -> is_Exception e = false) ->
   retry_async' retries delay backoff = (coro_func n, tr)) /\
  (forall x, failing n -> (Z.of_nat n + 1 < retries)%Z ->
     wait_expr' delay backoff (Z.of_nat n + 1) (uniform n) = inl x ->
     retry_async' retries delay backoff = (Raise x, tr)).
Proof.
  intros Hlt Hfail Hwait tr.
  destruct (retry_async_ends retries delay backoff n Hlt Hfail Hwait)
    as (Hc & Hs & Hret & _ & Hraise).
  repeat split; assumption.
Qed.

Lemma retry_loop_sleeps retries delay backoff n :
  forall attempt calls tr,
    n <> 0%nat -> Z.of_nat n = (retries - attempt + 1)%Z ->
    exists s, snd (retry_loop' retries delay backoff n attempt calls tr)
              = (tr ++ s ++ [Call])%list
              /\ calls_made s = sleeps_made s /\ (sleeps_made s < n)%nat.
Proof.
  induction n as [|n IH]; intros attempt calls tr Hn Hrel; [congruence|].
  unfold retry_loop'. cbn [retry_loop].
  destruct (coro_func calls) as [a|e].
  - exists []. cbn. split; [reflexivity | split; [reflexivity | lia]].
  - destruct (is_Exception e).
    + destruct (Z.eqb_spec attempt retries) as [Heq|Hne].
      * exists []. cbn. split; [reflexivity | split; [reflexivity | lia]].
      * destruct (wait_expr E N W arith delay backoff attempt (uniform calls))
          as [x|wait].
        -- exists []. cbn. split; [reflexivity | split; [reflexivity | lia]].
        -- fold retry_loop'.
           destruct (IH (attempt + 1)%Z (S calls)
                       (tr ++ [Call; Print attempt e wait; Sleep wait])%list)
             as (s & Hs & Hc & Hb); [lia | lia |].
           eexists ([_; _; _] ++ s)%list. rewrite Hs, <- !app_assoc.
           split; [reflexivity|]. rewrite calls_made_app, sleeps_made_app.
           change (calls_made [?[x]; ?[y]; ?[z]]) with 1%nat.
           change (sleeps_made [?x; ?y; ?z]) with 1%nat. split; lia.
    + exists []. cbn. split; [reflexivity | split; [reflexivity | lia]].
Qed.

(** Whatever the operation does, a sleep is always followed by another
    call: with [retries >= 1] the trace ends with a call, there is one
    sleep less than there are calls, and so at most [retries - 1] sleeps. *)
Theorem retry_async_never_sleeps_last (retries : Z) (delay backoff : N) :
  (1 <= retries)%Z ->
  let tr := snd (retry_async' retries delay backoff) in
  last tr = Some Call /\
  calls_made tr = S (sleeps_made tr) /\
  (sleeps_made tr <= Z.to_nat retries - 1)%nat.
Proof.
  intros Hpos tr.
  destruct (retry_loop_sleeps retries delay backoff (Z.to_nat retries) 1 0 [])
    as (s & Hs & Hc & Hb); [lia | lia |].
  subst tr. unfold retry_async', retry_async. fold retry_loop'.
  rewrite Hs. cbn [app]. rewrite last_snoc, calls_made_app, sleeps_made_app.
  cbn. repeat split; lia.
Qed.

(** *** The bound *)

(** C5.  [retry_async] calls the operation at most [retries] times.  After
    the [n]-th failed attempt, [n < retries], it evaluates
    [delay * backoff ** (n - 1) + jitter] on line 18 and, when that raises
    nothing (now and after the attempts before), prints and sleeps the
    result and then makes the next attempt; when all attempts fail and
    line 18 never raises, it raises the last exception; when line 18
    raises, that exception leaves [retry_async] in place of the next
    attempt.  For [int] operands the wait is the float sum of the exact
    product and the jitter: it raises [OverflowError] exactly when the
    product does not convert to a float, which it does below [2^53] in
    size, and for a jitter in [0, 1) the sum lies between the product and
    the product plus one.  With [retries = 3], [delay = 2], [backoff = 2]
    and an operation that always fails there are exactly 3 calls, and the
    two waits, of 2 to 3 and of 4 to 5 seconds, add up to 6 to 8 seconds. *)
Theorem retry_async_bound (retries : Z) (delay backoff : N) :
  (forall k, in_unit_interval (uniform k) = true) ->
  let res := fst (retry_async' retries delay backoff) in
  let tr := snd (retry_async' retries delay backoff) in
  let wait (n : nat) :=
    wait_expr' delay backoff (Z.of_nat n) (uniform (n - 1)) in
  (calls_made tr <= Z.to_nat retries)%nat /\
  (forall n : nat, (1 <= n)%nat -> (Z.of_nat n < retries)%Z ->
     (forall i, (i < n)%nat -> failing i) ->
     (forall i, (1 <= i <= n)%nat -> exists w, wait i = inr w) ->
     exists e w, coro_func (n - 1) = Raise e /\ wait n = inr w /\
       tr !! (3 * (n - 1))%nat = Some Call /\
       tr !! (3 * (n - 1) + 1)%nat = Some (Print (Z.of_nat n) e w) /\
       tr !! (3 * (n - 1) + 2)%nat = Some (Sleep w) /\
       tr !! (3 * n)%nat = Some Call) /\
  (forall e, (1 <= retries)%Z ->
     (forall i, (i < Z.to_nat retries)%nat -> failing i) ->
     (forall i, (1 <= i < Z.to_nat retries)%nat -> exists w, wait i = inr w) ->
     coro_func (Z.to_nat retries - 1) = Raise e ->
     res = Raise e /\ calls_made tr = Z.to_nat retries) /\
  (forall (n : nat) (x : E), (1 <= n)%nat -> (Z.of_nat n < retries)%Z ->
     (forall i, (i < n)%nat -> failing i) ->
     (forall i, (1 <= i < n)%nat -> exists w, wait i = inr w) ->
     wait n = inl x ->
     res = Raise x /\ calls_made tr = n) /\
  (forall (OverflowError : E) (d b : Z) (n : nat) (r : float),
     let product := (d * b ^ (Z.of_nat n - 1))%Z in
     wait_expr E Z float (int_arithmetic OverflowError) d b (Z.of_nat n) r =
       match int_add_float product r with
       | None => inl OverflowError
       | Some w => inr w
       end /\
     (int_add_float product r = None <-> float_of_int product = None) /\
     ((- 2 ^ 53 < product < 2 ^ 53)%Z -> float_of_int product <> None) /\
     (in_unit_interval r = true -> (- 2 ^ 53 < product < 2 ^ 53 - 1)%Z ->
      exists w, int_add_float product r = Some w /\
                (inject_Z product <= float_value w <= inject_Z (product + 1))%Q)) /\
  (forall OverflowError : E, (forall i, failing i) ->
     let run := retry_async A E Z float none is_Exception coro_func uniform
                  (int_arithmetic OverflowError) 3 2%Z 2%Z in
     calls_made (snd run) = 3%nat /\
     exists w0 w1,
       int_add_float 2 (uniform 0%nat) = Some w0 /\
       int_add_float 4 (uniform 1%nat) = Some w1 /\
       (2 <= float_value w0 <= 3)%Q /\ (4 <= float_value w1 <= 5)%Q /\
       (total_wait (snd run) == float_value w0 + float_value w1)%Q /\
       (6 <= total_wait (snd run) <= 8)%Q).
Proof.
  intros Hrand res tr wait.
  assert (Hwaits : forall n : nat,
     (forall i, (1 <= i <= n)%nat -> exists w, wait i = inr w) ->
     forall i, (i < n)%nat -> waits delay backoff i).
  { intros n H i Hi. destruct (H (S i) ltac:(lia)) as [w Hw]. exists w.
    unfold wait in Hw. replace (S i - 1)%nat with i in Hw by lia.
    replace (Z.of_nat i + 1)%Z with (Z.of_nat (S i)) by lia. exact Hw. }
  split; [|split; [|split; [|split; [|split]]]].
  - subst tr. unfold retry_async', retry_async. fold retry_loop'.
    destruct (retry_loop_extends retries delay backoff (Z.to_nat retries) 1%Z 0%nat [])
      as (s & -> & Hc & _). exact Hc.
  - intros n Hn Hlt Hfail Hprod.
    destruct (Hfail (n - 1)%nat ltac:(lia)) as (e & He & _).
    destruct (Hprod n ltac:(lia)) as [w Hw].
    exists e, w. split; [exact He|]. split; [exact Hw|].
    assert (Hwx : wait_expr' delay backoff (Z.of_nat (0 + (n - 1)) + 1)
                    (uniform (0 + (n - 1))) = inr w).
    { cbn [Nat.add]. unfold wait in Hw.
      replace (Z.of_nat (n - 1) + 1)%Z with (Z.of_nat n) by lia. exact Hw. }
    subst tr. unfold retry_async', retry_async. fold retry_loop'.
    replace (Z.to_nat retries) with (n + (Z.to_nat retries - n))%nat by lia.
    change 1%Z with (Z.of_nat 0 + 1)%Z.
    rewrite retry_loop_failing; [| simpl; lia | exact Hfail | apply Hwaits; exact Hprod ].
    cbn [Nat.add app].
    destruct (retry_loop_extends retries delay backoff (Z.to_nat retries - n)
                (Z.of_nat n + 1) n
                (flat_map (failed_attempt delay backoff) (seq 0 n)))
      as (s & -> & _ & Hcons).
    destruct Hcons as [s' ->]; [lia|].
    destruct (failed_attempts_length delay backoff n 0%nat Hfail (Hwaits n Hprod))
      as (Hlen & _).
    destruct (failed_attempts_lookup delay backoff n 0%nat (n - 1)%nat e w
                ltac:(lia) Hfail (Hwaits n Hprod) He Hwx) as (H1 & H2 & H3).
    cbn [Nat.add] in H1, H2, H3.
    replace (Z.of_nat (n - 1) + 1)%Z with (Z.of_nat n) in * by lia.
    cbn zeta in H1, H2, H3.
    rewrite !lookup_app_l by (rewrite Hlen; lia).
    repeat split; try assumption.
    rewrite lookup_app_r by (rewrite Hlen; lia).
    rewrite Hlen, Nat.sub_diag. reflexivity.
  - intros e Hpos Hfail Hprod He.
    destruct (Hfail (Z.to_nat retries - 1)%nat ltac:(lia)) as (e' & He' & Hexc).
    rewrite He in He'. injection He' as <-.
    destruct (retry_async_ends retries delay backoff (Z.to_nat retries - 1))
      as (Hc & _ & _ & Hlast & _).
    + lia.
    + intros i Hi. apply Hfail. lia.
    + apply Hwaits. intros i Hi. apply Hprod. lia.
    + subst res tr. rewrite (Hlast e He Hexc ltac:(lia)). cbn [fst snd].
      split; [reflexivity|]. rewrite Hc. lia.
  - intros n x Hn Hlt Hfail Hprod Hx.
    destruct (retry_async_ends retries delay backoff (n - 1))
      as (Hc & _ & _ & _ & Hraise).
    + lia.
    + intros i Hi. apply Hfail. lia.
    + apply Hwaits. intros i Hi. apply Hprod. lia.
    + subst res tr. rewrite (Hraise x).
      * cbn [fst snd]. split; [reflexivity|]. rewrite Hc. lia.
      * apply Hfail. lia.
      * lia.
      * unfold wait in Hx.
        replace (Z.of_nat (n - 1) + 1)%Z with (Z.of_nat n) by lia. exact Hx.
  - intros OverflowError d b n r product.
    split; [apply int_wait_expr|]. split; [apply int_add_float_converts|].
    split.
    + intros Hp. destruct (float_of_int_exact product Hp) as (x & -> & _).
      discriminate.
    + intros Hr Hp. apply int_add_float_bounds; assumption.
  - intros OverflowError Hfail run.
    destruct (Hfail 0%nat) as (e0 & He0 & Hx0).
    destruct (Hfail 1%nat) as (e1 & He1 & Hx1).
    destruct (Hfail 2%nat) as (e2 & He2 & Hx2).
    destruct (int_add_float_bounds 2 (uniform 0%nat) ltac:(lia) (Hrand _))
      as (w0 & Hw0 & Hb0).
    destruct (int_add_float_bounds 4 (uniform 1%nat) ltac:(lia) (Hrand _))
      as (w1 & Hw1 & Hb1).
    assert (Hrun : run = (Raise e2, [Call; Print 1 e0 w0; Sleep w0;
                                     Call; Print 2 e1 w1; Sleep w1; Call])).
    { subst run. unfold retry_async. change (Z.to_nat 3) with 3%nat.
      cbn [retry_loop]. rewrite He0, Hx0, He1, Hx1, He2, Hx2.
      rewrite !int_wait_expr.
      change (2 * 2 ^ (1 - 1))%Z with 2%Z. change (2 * 2 ^ (1 + 1 - 1))%Z with 4%Z.
      rewrite Hw0, Hw1. reflexivity. }
    rewrite Hrun. cbn [snd]. split; [reflexivity|].
    exists w0, w1. split; [exact Hw0|]. split; [exact Hw1|].
    change (inject_Z 2) with 2%Q in Hb0. change (inject_Z (2 + 1)) with 3%Q in Hb0.
    change (inject_Z 4) with 4%Q in Hb1. change (inject_Z (4 + 1)) with 5%Q in Hb1.
    split; [exact Hb0|]. split; [exact Hb1|].
    assert (Htot : (total_wait [Call; Print 1 e0 w0; Sleep w0;
                                Call; Print 2 e1 w1; Sleep w1; @Call E float]
                    == float_value w0 + float_value w1)%Q).
    { cbn [total_wait]. ring. }
    split; [exact Htot|]. rewrite Htot.
    destruct Hb0 as [Ha0 Hb0], Hb1 as [Ha1 Hb1].
    split.
    + change 6%Q with (2 + 4)%Q. apply Qplus_le_compat; assumption.
    + change 8%Q with (3 + 5)%Q. apply Qplus_le_compat; assumption.
Qed.

End RetryFacts.


(** ** The shared browser *)

(** One task: [get_browser] returns a browser; called again, by the same
    task, it returns the same browser and launches nothing, until
    [close_browser], which closes that browser, stops its driver and clears
    both globals. *)
Theorem get_browser_reuses (st : browsers) :
  exists b st1,
    get_browser st = (Some b, st1) /\
    _browser st1 = Some b /\
    get_browser st1 = (Some b, st1) /\
    (launched st1 <= S (launched st))%nat /\
    (forall b0, _browser st = Some b0 -> b = b0 /\ st1 = st) /\
    _browser (close_browser st1) = None /\
    _playwright (close_browser st1) = None /\
    closed (close_browser st1) = (closed st1 ++ [b])%list.
Proof.
  unfold get_browser. cbn [get_browser_from get_step].
  destruct (_browser st) as [b0|] eqn:Hb.
  - exists b0, st. cbn [get_browser_from get_step]. rewrite Hb.
    repeat split; auto; try congruence; unfold close_browser; rewrite Hb; cbn;
      destruct (_playwright st); reflexivity.
  - eexists _, _. cbn [get_browser_from get_step _browser launched].
    repeat split; auto; try discriminate.
Qed.

Lemma run_get_browser_app (s1 s2 : list nat) (s : list get_pc * browsers) :
  run_get_browser (s1 ++ s2) s = run_get_browser s2 (run_get_browser s1 s).
Proof. apply fold_left_app. Qed.

Lemma get_browser_step_at (pre : list get_pc) (pc : get_pc) (pcs : list get_pc)
    (st : browsers) :
  get_browser_step (length pre) ((pre ++ pc :: pcs)%list, st) =
  match get_step pc st with
  | None => ((pre ++ pc :: pcs)%list, st)
  | Some (pc', st') => (((pre ++ [pc']) ++ pcs)%list, st')
  end.
Proof.
  unfold get_browser_step. cbn [fst snd].
  rewrite lookup_app_r by lia. rewrite Nat.sub_diag. cbn [lookup list_lookup].
  destruct (get_step pc st) as [[pc' st']|]; [|reflexivity].
  rewrite insert_app_r_alt by lia. rewrite Nat.sub_diag. cbn.
  rewrite <- app_assoc. reflexivity.
Qed.

(** A round of the event loop over callers that can all move. *)
Lemma run_round (pcs : list get_pc) :
  forall pre st,
    Forall (fun pc => forall b, pc <> GbReturned b) pcs ->
    run_get_browser (seq (length pre) (length pcs)) ((pre ++ pcs)%list, st) =
    ((pre ++ fst (sweep pcs st))%list, snd (sweep pcs st)).
Proof.
  induction pcs as [|pc pcs IH]; intros pre st Hall.
  - cbn. reflexivity.
  - inversion Hall as [|? ? Hpc Hrest]; subst.
    cbn [length seq].
    change (run_get_browser (length pre :: seq (S (length pre)) (length pcs))
              ((pre ++ pc :: pcs)%list, st))
      with (run_get_browser (seq (S (length pre)) (length pcs))
              (get_browser_step (length pre) ((pre ++ pc :: pcs)%list, st))).
    rewrite get_browser_step_at. cbn [sweep].
    destruct (get_step pc st) as [[pc' st1]|] eqn:Hstep.
    + replace (S (length pre)) with (length (pre ++ [pc'])%list)
        by (rewrite length_app; cbn; lia).
      rewrite (IH (pre ++ [pc'])%list st1 Hrest).
      destruct (sweep pcs st1) as [rest' st']. cbn [fst snd].
      rewrite <- app_assoc. reflexivity.
    + destruct pc; cbn [get_step] in Hstep;
        [ destruct (_browser st); discriminate Hstep | discriminate Hstep
        | discriminate Hstep | exfalso; eapply Hpc; reflexivity ].
Qed.

Lemma sweep_check (k : nat) (st : browsers) :
  _browser st = None -> sweep (repeat GbCheck k) st = (repeat GbStarting k, st).
Proof.
  intros Hb. induction k as [|k IH]; [reflexivity|].
  cbn [repeat sweep get_step]. rewrite Hb, IH. reflexivity.
Qed.

Lemma sweep_starting (k : nat) :
  forall st,
    fst (sweep (repeat GbStarting k) st) = repeat GbLaunching k /\
    _browser (snd (sweep (repeat GbStarting k) st)) = _browser st /\
    launched (snd (sweep (repeat GbStarting k) st)) = launched st /\
    closed (snd (sweep (repeat GbStarting k) st)) = closed st /\
    started (snd (sweep (repeat GbStarting k) st)) = (started st + k)%nat.
Proof.
  induction k as [|k IH]; intros st; [cbn; repeat split; lia|].
  cbn [repeat sweep get_step].
  destruct (IH (mkBrowsers (_browser st) (Some (started st)) (S (started st))
                           (launched st) (closed st) (stopped st)))
    as (H1 & H2 & H3 & H4 & H5).
  destruct (sweep (repeat GbStarting k) _) as [rest st']. cbn [fst snd] in *.
  rewrite H1, H2, H3, H4, H5. cbn. repeat split; lia.
Qed.

Lemma sweep_launching (k : nat) :
  forall st,
    fst (sweep (repeat GbLaunching k) st) = map GbReturned (seq (launched st) k) /\
    launched (snd (sweep (repeat GbLaunching k) st)) = (launched st + k)%nat /\
    closed (snd (sweep (repeat GbLaunching k) st)) = closed st /\
    ((0 < k)%nat ->
     _browser (snd (sweep (repeat GbLaunching k) st)) = Some (launched st + k - 1)%nat).
Proof.
  induction k as [|k IH]; intros st; [cbn; repeat split; lia|].
  cbn [repeat sweep get_step].
  destruct (IH (mkBrowsers (Some (launched st)) (_playwright st) (started st)
                           (S (launched st)) (closed st) (stopped st)))
    as (H1 & H2 & H3 & H4).
  destruct (sweep (repeat GbLaunching k) _) as [rest st'] eqn:Hsw. cbn [fst snd] in *.
  rewrite H1, H2, H3. cbn [launched closed seq map].
  split; [reflexivity|]. split; [lia|]. split; [reflexivity|]. intros _.
  destruct k as [|k'].
  - cbn in Hsw. injection Hsw as _ <-. cbn. f_equal. lia.
  - rewrite H4 by lia. cbn [launched]. f_equal. lia.
Qed.

(** Callers that all reach [get_browser] before any of them has its
    browser each launch one: [k] callers that take turns, as the tasks of
    [main] do at their start, get [k] different browsers, of which the
    globals keep the last, the only one that [close_browser] closes. *)
Theorem get_browser_race (k : nat) :
  (1 <= k)%nat ->
  let s := run_get_browser (seq 0 k ++ seq 0 k ++ seq 0 k)
             (repeat GbCheck k, no_browsers) in
  fst s = map GbReturned (seq 0 k) /\
  launched (snd s) = k /\
  _browser (snd s) = Some (k - 1)%nat /\
  closed (close_browser (snd s)) = [(k - 1)%nat].
Proof.
  intros Hk s. subst s. rewrite !run_get_browser_app.
  assert (Hround : forall pcs st,
            Forall (fun pc => forall b, pc <> GbReturned b) pcs -> length pcs = k ->
            run_get_browser (seq 0 k) (pcs, st) = sweep pcs st).
  { intros pcs st Hall Hlen. pose proof (run_round pcs [] st Hall) as H.
    cbn [length app] in H. rewrite Hlen in H. rewrite H.
    destruct (sweep pcs st); reflexivity. }
  assert (Hrep : forall pc, (forall b, pc <> GbReturned b) ->
            Forall (fun pc => forall b, pc <> GbReturned b) (repeat pc k)).
  { intros pc Hpc. apply List.Forall_forall. intros x Hx.
    apply repeat_spec in Hx. subst x. exact Hpc. }
  rewrite Hround, sweep_check;
    [| reflexivity | apply Hrep; discriminate | apply repeat_length].
  rewrite Hround; [| apply Hrep; discriminate | apply repeat_length].
  destruct (sweep_starting k no_browsers) as (H1 & H2 & H3 & H4 & _).
  destruct (sweep (repeat GbStarting k) no_browsers) as [pcs1 st1].
  cbn [fst snd] in *. subst pcs1.
  rewrite Hround; [| apply Hrep; discriminate | apply repeat_length].
  destruct (sweep_launching k st1) as (L1 & L2 & L3 & L4).
  destruct (sweep (repeat GbLaunching k) st1) as [pcs2 st2].
  cbn [fst snd] in *. rewrite H3 in L1, L2, L4. rewrite H4 in L3.
  cbn [no_browsers launched closed] in *.
  specialize (L4 ltac:(lia)). cbn [Nat.add] in L4.
  split; [exact L1|]. split; [exact L2|]. split; [exact L4|].
  unfold close_browser. rewrite L4. cbn [_playwright closed].
  destruct (_playwright st2); cbn [closed]; rewrite L3; reflexivity.
Qed.


(** * Examples *)

(** ** [normalize_url] *)

(** A second pass can change the result of the first.  A [;] that the first
    pass leaves in the last segment of the path starts a path parameter at
    the second pass, once the trailing [/] behind it is gone; a [%25] in
    the query is decoded to a [%] that starts an escape at the second
    pass. *)
Lemma normalize_url_not_idempotent :
  normalize_url no_bracketed_hosts "http://h/a;p/" = Some "http://h/a;p" /\
  normalize_url no_bracketed_hosts "http://h/a;p" = Some "http://h/a" /\
  normalize_url no_bracketed_hosts "http://h/?a=%2541" = Some "http://h/?a=%41" /\
  normalize_url no_bracketed_hosts "http://h/?a=%41" = Some "http://h/?a=A" /\
  ~ (forall u v : str,
       normalize_url no_bracketed_hosts u = Some v ->
       normalize_url no_bracketed_hosts v = Some v).
Proof.
  split; [reflexivity|]. split; [reflexivity|].
  split; [reflexivity|]. split; [reflexivity|].
  intros H. specialize (H "http://h/a;p/" "http://h/a;p" eq_refl).
  vm_compute in H. discriminate H.
Qed.

(** A URL with a path to collapse, a tracking parameter and a fragment, and
    neither a path parameter nor an escape: the second pass returns what the
    first has returned. *)
Lemma normalize_url_idempotent_example :
  normalize_url no_bracketed_hosts "HTTP://Example.COM//a//b/?utm_x=1&b=2#f"
    = Some "http://example.com/a/b?b=2" /\
  normalize_url no_bracketed_hosts "http://example.com/a/b?b=2"
    = Some "http://example.com/a/b?b=2".
Proof.
  split; [reflexivity|].
  apply (normalize_url_idempotent no_bracketed_hosts
           "HTTP://Example.COM//a//b/?utm_x=1&b=2#f" "http://example.com/a/b?b=2"
           (mkParse "http" "Example.COM" "//a//b/" "" "utm_x=1&b=2" "f")).
  - intros h Hh. discriminate Hh.
  - reflexivity.
  - reflexivity.
  - reflexivity.
  - reflexivity.
Defined.

(** [urlparse] raises [ValueError] on a netloc with [[] and no []], and
    [normalize_url] has no handler for it. *)
Lemma normalize_url_raises :
  urlparse no_bracketed_hosts "http://[" = None /\
  normalize_url no_bracketed_hosts "http://[" = None.
Proof. split; reflexivity. Qed.

(** ** The same-domain test *)

Lemma is_internal_url_netloc_example :
  forallb_str isascii "HTTPS://WWW.Example.COM/x" = true /\
  forallb_str isascii "https://example.com" = true /\
  (is_internal_url no_bracketed_hosts
     "HTTPS://WWW.Example.COM/x" "https://example.com" = Some true <->
   exists parsed_url parsed_base,
     urlparse no_bracketed_hosts "HTTPS://WWW.Example.COM/x" = Some parsed_url /\
     urlparse no_bracketed_hosts "https://example.com" = Some parsed_base /\
     strip_www (lower (netloc parsed_url)) = strip_www (lower (netloc parsed_base)) /\
     (scheme parsed_url = "http" \/ scheme parsed_url = "https")).
Proof.
  split; [reflexivity|]. split; [reflexivity|].
  exact (proj1 (proj2 (is_internal_url_netloc no_bracketed_hosts
                         "HTTPS://WWW.Example.COM/x" "https://example.com"
                         eq_refl eq_refl))).
Defined.

(** C9.  [is_internal_url(url, base_url)] is not true whenever the two
    hosts are equal and the scheme is [http] or [https]: the URLs
    [http://example.com:80/] and [http://example.com/] have the same host,
    [example.com], and so have [https://user@example.com/x] and
    [https://example.com], yet [is_internal_url] answers [False] for both
    pairs, because it compares the netlocs, with port and userinfo. *)
Lemma is_internal_url_port :
  urlparse no_bracketed_hosts "http://example.com:80/"
    = Some (mkParse "http" "example.com:80" "/" "" "" "") /\
  urlparse no_bracketed_hosts "http://example.com/"
    = Some (mkParse "http" "example.com" "/" "" "" "") /\
  host "example.com:80" = "example.com" /\ host "example.com" = "example.com" /\
  is_internal_url no_bracketed_hosts
    "http://example.com:80/" "http://example.com/" = Some false /\
  urlparse no_bracketed_hosts "https://user@example.com/x"
    = Some (mkParse "https" "user@example.com" "/x" "" "" "") /\
  host "user@example.com" = "example.com" /\
  is_internal_url no_bracketed_hosts
    "https://user@example.com/x" "https://example.com" = Some false /\
  ~ (forall (url base_url : str) (parsed_url parsed_base : ParseResult),
       urlparse no_bracketed_hosts url = Some parsed_url ->
       urlparse no_bracketed_hosts base_url = Some parsed_base ->
       (is_internal_url no_bracketed_hosts url base_url = Some true <->
        strip_www (host (netloc parsed_url)) = strip_www (host (netloc parsed_base)) /\
        (scheme parsed_url = "http" \/ scheme parsed_url = "https"))).
Proof.
  repeat (split; [reflexivity|]).
  intros H.
  specialize (H "http://example.com:80/" "http://example.com/" _ _ eq_refl eq_refl).
  destruct H as [_ H].
  specialize (H (conj eq_refl (or_introl eq_refl))). discriminate H.
Qed.

(** ** The traversal loop *)

Lemma depth_bound_example :
  exists c0,
    seeded no_bracketed_hosts "http://a.example/" = Some c0 /\
    forall url depth,
      In (GetUrl url depth)
         (trace (state_of (start_crawling no_bracketed_hosts example_browser 5 c0))) ->
      (depth <= MAX_DEPTH)%Z.
Proof.
  destruct (seeded no_bracketed_hosts "http://a.example/") as [c0|] eqn:Hseed;
    [|vm_compute in Hseed; discriminate Hseed].
  exists c0. split; [reflexivity|].
  pose proof (depth_bound no_bracketed_hosts example_browser
                "http://a.example/" c0 5 Hseed) as H.
  cbv zeta in H. exact (proj1 H).
Defined.

Lemma enqueue_before_task_done_example :
  exists c0,
    seeded no_bracketed_hosts "http://a.example/" = Some c0 /\
    match start_crawling no_bracketed_hosts example_browser 5 c0 with
    | Finished c =>
        items (discovery_queue c) = [] /\
        exists tr, trace c = (tr ++ [HasPending false])%list /\
                   protocol Idle tr = Some Idle /\
                   protocol Idle (trace c) = Some Stopped
    | Running c => protocol Idle (trace c) = Some Idle
    | Crashed _ => False
    end.
Proof.
  destruct (seeded no_bracketed_hosts "http://a.example/") as [c0|] eqn:Hseed;
    [|vm_compute in Hseed; discriminate Hseed].
  exists c0. split; [reflexivity|].
  pose proof (enqueue_before_task_done no_bracketed_hosts example_browser
                "http://a.example/" c0 5 Hseed) as H.
  cbv zeta in H. exact (proj1 H).
Defined.


(** ** The pool *)


(** ** Retry *)

(** Three attempts that all fail, with a jitter of one half. *)
Lemma retry_async_bound_example :
  (forall k : nat, in_unit_interval one_half = true) /\
  (calls_made
     (snd (retry_async nat example_exception Z float 0%nat (fun _ => true)
             (fun k => Raise (Failure k)) (fun _ => one_half)
             (int_arithmetic OverflowError) 3 2%Z 2%Z)) <= Z.to_nat 3)%nat /\
  calls_made
    (snd (retry_async nat example_exception Z float 0%nat (fun _ => true)
            (fun k => Raise (Failure k)) (fun _ => one_half)
            (int_arithmetic OverflowError) 3 2%Z 2%Z)) = 3%nat /\
  (total_wait
     (snd (retry_async nat example_exception Z float 0%nat (fun _ => true)
             (fun k => Raise (Failure k)) (fun _ => one_half)
             (int_arithmetic OverflowError) 3 2%Z 2%Z)) == 7)%Q.
Proof.
  assert (Hrand : forall k : nat, in_unit_interval one_half = true)
    by (intros k; reflexivity).
  split; [exact Hrand|]. split; [|split; reflexivity].
  pose proof (retry_async_bound nat example_exception Z float 0%nat (fun _ => true)
                (fun k => Raise (Failure k)) (fun _ => one_half)
                (int_arithmetic OverflowError) 3 2%Z 2%Z Hrand) as H.
  cbv zeta in H. exact (proj1 H).
Defined.

(** A product too large for a float: the third attempt is never made, and
    what is raised is not the failure of the operation.  And a sum that
    rounds up to the next integer: the wait is [delay] plus one. *)
Lemma retry_async_overflow :
  fst (retry_async nat example_exception Z float 0%nat (fun _ => true)
         (fun k => Raise (Failure k)) (fun _ => one_half)
         (int_arithmetic OverflowError) 3 1%Z (10 ^ 400)%Z) = Raise OverflowError /\
  calls_made
    (snd (retry_async nat example_exception Z float 0%nat (fun _ => true)
            (fun k => Raise (Failure k)) (fun _ => one_half)
            (int_arithmetic OverflowError) 3 1%Z (10 ^ 400)%Z)) = 2%nat /\
  ~ (forall retries delay backoff : Z, (1 <= retries)%Z ->
       let run := retry_async nat example_exception Z float 0%nat (fun _ => true)
                    (fun k => Raise (Failure k)) (fun _ => one_half)
                    (int_arithmetic OverflowError) retries delay backoff in
       fst run = Raise (Failure (Z.to_nat retries - 1)) /\
       calls_made (snd run) = Z.to_nat retries) /\
  in_unit_interval (S754_finite false (2 ^ 53 - 1) (-53)) = true /\
  exists w, int_add_float 2 (S754_finite false (2 ^ 53 - 1) (-53)) = Some w /\
            (float_value w == 3)%Q.
Proof.
  split; [vm_compute; reflexivity|]. split; [vm_compute; reflexivity|].
  split.
  { intros H. specialize (H 3%Z 1%Z (10 ^ 400)%Z ltac:(lia)).
    cbv zeta in H. destruct H as [H _]. vm_compute in H. discriminate H. }
  split; [reflexivity|].
  eexists. split; [vm_compute; reflexivity|]. vm_compute. reflexivity.
Qed.

Lemma retry_async_no_attempts_example :
  (0 <= 0)%Z /\
  retry_async nat example_exception Z float 0%nat (fun _ => true)
    (fun k => Raise (Failure k)) (fun _ => one_half)
    (int_arithmetic OverflowError) 0 2%Z 2%Z = (Return 0%nat, []).
Proof.
  split; [lia|].
  exact (proj1 (retry_async_no_attempts nat example_exception Z float 0%nat
                  (fun _ => true) (fun k => Raise (Failure k)) (fun _ => one_half)
                  (int_arithmetic OverflowError) 0 2%Z 2%Z ltac:(lia))).
Defined.

(** ** More of the URL functions *)

Lemma fragment_ignored_example :
  contains "#" "http://example.com/a" = false /\
  normalize_url no_bracketed_hosts ("http://example.com/a" ++ "#" ++ "top") =
  normalize_url no_bracketed_hosts "http://example.com/a".
Proof.
  split; [reflexivity|].
  exact (proj1 (fragment_ignored no_bracketed_hosts "http://example.com/a" "top"
                  "http://example.com/" eq_refl)).
Defined.

Lemma tracking_query_ignored_example :
  normalize_url no_bracketed_hosts ("http://example.com/about" ++ "?" ++ "ref=123") =
  normalize_url no_bracketed_hosts "http://example.com/about".
Proof.
  exact (proj2 (proj2 (tracking_query_ignored no_bracketed_hosts
                         "http://example.com/about" "ref=123" "http://example.com/"
                         eq_refl eq_refl eq_refl)) eq_refl).
Defined.

Lemma trailing_slash_ignored_example :
  normalize_url no_bracketed_hosts ("http://example.com/about" ++ "/") =
  normalize_url no_bracketed_hosts "http://example.com/about".
Proof.
  exact (trailing_slash_ignored no_bracketed_hosts "http://example.com/about"
           eq_refl eq_refl eq_refl).
Defined.

Lemma strip_tracking_params_parsed_example :
  parse_qsl (_strip_tracking_params "a=1&utm_source=x&b=2") = [("a", "1"); ("b", "2")].
Proof.
  exact (strip_tracking_params_parsed "a=1&utm_source=x&b=2" eq_refl).
Defined.

Lemma normalize_url_no_hash_example :
  normalize_url no_bracketed_hosts "HTTP://Example.COM//a//b/?utm_x=1&b=2#f"
    = Some "http://example.com/a/b?b=2" /\
  contains "#" "http://example.com/a/b?b=2" = false.
Proof.
  split; [reflexivity|].
  exact (normalize_url_no_hash no_bracketed_hosts
           "HTTP://Example.COM//a//b/?utm_x=1&b=2#f" "http://example.com/a/b?b=2"
           (mkParse "http" "Example.COM" "//a//b/" "" "utm_x=1&b=2" "f")
           eq_refl eq_refl eq_refl).
Defined.

Lemma db_path_in_data_example :
  _db_path_for_site no_bracketed_hosts "/srv/agent" "https://example.com:8080/x"
    = Some "/srv/agent/data/example.com_8080.scraper.db" /\
  exists host,
    site_host no_bracketed_hosts "https://example.com:8080/x" = Some host /\
    "/srv/agent/data/example.com_8080.scraper.db"
      = posix_join "/srv/agent" "data" ++ "/" ++ host ++ ".scraper.db" /\
    host <> "" /\ contains "/" host = false /\ contains ":" host = false.
Proof.
  split; [reflexivity|].
  exact (db_path_in_data no_bracketed_hosts "/srv/agent" "https://example.com:8080/x"
           "/srv/agent/data/example.com_8080.scraper.db" eq_refl).
Defined.

(** ** More of the queues, the loop and the pool *)

Lemma URLQueue_sequential_example :
  exists q got,
    run_ops no_bracketed_hosts
      [AddUrl "http://a.example/"; AddUrlAsync "http://a.example"; AddUrl "http://a.example/x";
       AddSentinel; GetUrlOp; TaskDoneOp; GetUrlOp]
      (new_queue, []) = Some (q, got) /\
    NoDup (urls_in (got ++ items q)) /\
    (unfinished q + 1 = length got + length (items q))%nat.
Proof.
  destruct (run_ops no_bracketed_hosts
              [AddUrl "http://a.example/"; AddUrlAsync "http://a.example";
               AddUrl "http://a.example/x"; AddSentinel; GetUrlOp; TaskDoneOp; GetUrlOp]
              (new_queue, [])) as [[q got]|] eqn:Hrun;
    [|vm_compute in Hrun; discriminate Hrun].
  exists q, got. split; [reflexivity|].
  destruct (URLQueue_sequential no_bracketed_hosts _ q got Hrun) as (H1 & _ & H3 & _).
  split; [exact H1 | exact H3].
Defined.

Lemma start_crawling_terminates_example :
  exists c0,
    seeded no_bracketed_hosts "http://a.example/" = Some c0 /\
    exists n c, forall m, (n <= m)%nat ->
      start_crawling no_bracketed_hosts example_browser m c0 = Finished c.
Proof.
  destruct (seeded no_bracketed_hosts "http://a.example/") as [c0|] eqn:Hseed;
    [|vm_compute in Hseed; discriminate Hseed].
  exists c0. split; [reflexivity|].
  exact (start_crawling_terminates no_bracketed_hosts example_browser
           "http://a.example/" c0 Hseed).
Defined.

Lemma crawl_breadth_first_example :
  exists c0,
    seeded no_bracketed_hosts "http://a.example/" = Some c0 /\
    nondecreasing
      (get_depths (trace (state_of
         (start_crawling no_bracketed_hosts example_browser 5 c0)))).
Proof.
  destruct (seeded no_bracketed_hosts "http://a.example/") as [c0|] eqn:Hseed;
    [|vm_compute in Hseed; discriminate Hseed].
  exists c0. split; [reflexivity|].
  pose proof (crawl_breadth_first no_bracketed_hosts example_browser
                "http://a.example/" c0 5 Hseed) as H.
  cbv zeta in H. exact (proj1 H).
Defined.

Lemma crawler_puts_justified_example :
  exists c0,
    seeded no_bracketed_hosts "http://a.example/" = Some c0 /\
    Forall (put_justified no_bracketed_hosts example_browser "http://a.example/")
           (trace (state_of (start_crawling no_bracketed_hosts example_browser 5 c0))).
Proof.
  destruct (seeded no_bracketed_hosts "http://a.example/") as [c0|] eqn:Hseed;
    [|vm_compute in Hseed; discriminate Hseed].
  exists c0. split; [reflexivity|].
  exact (crawler_puts_justified no_bracketed_hosts example_browser
           "http://a.example/" c0 5 Hseed).
Defined.

Lemma shutdown_drains_queue_example :
  exists p,
    run no_bracketed_hosts 2 (start_pipeline 2) example_schedule p /\
    orchestrator p = Completed /\
    items (queue p) = [] /\ unfinished (queue p) = 0%nat.
Proof.
  assert (Hc : option_map orchestrator
                 (run_actions no_bracketed_hosts 2 example_schedule (start_pipeline 2))
               = Some Completed) by (vm_compute; reflexivity).
  destruct (run_actions no_bracketed_hosts 2 example_schedule (start_pipeline 2))
    as [p|] eqn:Hrun; [|discriminate Hc].
  injection Hc as Hc. apply run_actions_run in Hrun.
  exists p. split; [exact Hrun|]. split; [exact Hc|].
  exact (shutdown_drains_queue no_bracketed_hosts 2 example_schedule p
           ltac:(lia) Hrun (or_introl Hc)).
Defined.

(** ** More of retry, and the shared browser *)

(** Two failures, then a result. *)
Lemma retry_async_first_outcome_example :
  calls_made
    (flat_map
       (failed_attempt nat example_exception Z float
          (fun k => if (k <? 2)%nat then Raise (Failure k) else Return 7%nat)
          (fun _ => one_half) (int_arithmetic OverflowError) 2%Z 2%Z)
       (seq 0 2) ++ [Call]) = 3%nat /\
  fst (retry_async nat example_exception Z float 0%nat (fun _ => true)
         (fun k => if (k <? 2)%nat then Raise (Failure k) else Return 7%nat)
         (fun _ => one_half) (int_arithmetic OverflowError) 3 2%Z 2%Z) = Return 7%nat.
Proof.
  split; [|reflexivity].
  refine (proj1 (retry_async_first_outcome nat example_exception Z float 0%nat
            (fun _ => true)
            (fun k => if (k <? 2)%nat then Raise (Failure k) else Return 7%nat)
            (fun _ => one_half) (int_arithmetic OverflowError) 3 2%Z 2%Z 2%nat _ _ _)).
  - lia.
  - intros i Hi. unfold failing.
    destruct i as [|[|i]]; [exists (Failure 0) | exists (Failure 1) | lia];
      split; reflexivity.
  - intros i Hi. unfold waits.
    destruct i as [|[|i]]; [| | lia]; eexists; vm_compute; reflexivity.
Defined.

Lemma retry_async_never_sleeps_last_example :
  (sleeps_made
     (snd (retry_async nat example_exception Z float 0%nat (fun _ => true)
             (fun k => Raise (Failure k)) (fun _ => one_half)
             (int_arithmetic OverflowError) 3 2%Z 2%Z)) <= Z.to_nat 3 - 1)%nat.
Proof.
  pose proof (retry_async_never_sleeps_last nat example_exception Z float 0%nat
                (fun _ => true) (fun k => Raise (Failure k)) (fun _ => one_half)
                (int_arithmetic OverflowError) 3 2%Z 2%Z ltac:(lia)) as H.
  cbv zeta in H. exact (proj2 (proj2 H)).
Defined.

(** The eleven tasks of [main]: the crawler and [WORKER_COUNT] workers. *)
Lemma get_browser_race_example :
  launched
    (snd (run_get_browser
            (seq 0 (S WORKER_COUNT) ++ seq 0 (S WORKER_COUNT) ++ seq 0 (S WORKER_COUNT))
            (repeat GbCheck (S WORKER_COUNT), no_browsers))) = S WORKER_COUNT.
Proof.
  pose proof (get_browser_race (S WORKER_COUNT) ltac:(unfold WORKER_COUNT; lia)) as H.
  cbv zeta in H. exact (proj1 (proj2 H)).
Defined.

Lemma crawl_visits_once_example :
  exists c0,
    seeded no_bracketed_hosts "http://a.example/" = Some c0 /\
    NoDup (map fst
             (gets (trace (state_of
                (start_crawling no_bracketed_hosts example_browser 5 c0)))
              ++ items (discovery_queue (state_of
                   (start_crawling no_bracketed_hosts example_browser 5 c0))))).
Proof.
  destruct (seeded no_bracketed_hosts "http://a.example/") as [c0|] eqn:Hseed;
    [|vm_compute in Hseed; discriminate Hseed].
  exists c0. split; [reflexivity|].
  pose proof (crawl_visits_once no_bracketed_hosts example_browser
                "http://a.example/" c0 5 Hseed) as H.
  cbv zeta in H. destruct H as (norm & _ & _ & H). exact H.
Defined.
